(** * JODIE training script (jodie.py): scheduler, flush windows, t-batch cache

    A shallow embedding of the training script of the Jodie-Jittor repository.
    Python floats are modelled by exact rationals ([Qc], canonical fractions,
    so that equal numbers are equal dictionary keys); integer ids by [nat];
    batch ids by [Z] (the script itself uses [-1] for "none yet"); Python
    dictionaries by [gmap]; exceptions by [option].  The neural transforms,
    the losses and the optimizer are parameters of the development, and so
    is what the script takes from library_data ([load_network]) and from
    library_models (the t-batch tables and [reinitialize_tbatches], record
    [Lib]), which are not part of the sources. *)

From Stdlib Require Import QArith Qcanon.
From Stdlib Require Import Qround.
From stdpp Require Import base numbers option list sorting gmap fin_maps strings.

Local Open Scope Z_scope.

(** ** Numbers *)

Definition Qc_of_nat (n : nat) : Qc := Qc_of_Z (Z.of_nat n).

(** The float literal [0.8] of line 40 and the [500] of line 83. *)
Definition Qc_0_8 : Qc := Q2Qc (8 # 10).
Definition Qc_500 : Qc := Qc_of_Z 500.

(** ** Command line arguments (lines 27-39) *)

Record args := {
  network : string;
  model_name : string;
  epochs : nat;
  embedding_dim : nat;
  train_proportion : Qc;
  state_change : bool;
}.

Definition datapath (a : args) : string := "data/" +:+ network a +:+ ".csv".

(** ** Interaction stream

    [load_network] returns index-aligned parallel sequences; an element of
    the stream below is one index of all of them. *)

Definition feature := list Qc.

Record interaction := {
  userid : nat;
  itemid : nat;
  timestamp : Qc;
  features : feature;
  user_timediff : Qc;
  item_timediff : Qc;
  previous_itemid : nat;
  label : Z;
}.

Record network_data := {
  user2id_len : nat;            (* len(user2id) *)
  item2id_len : nat;            (* len(item2id) *)
  interactions : list interaction;
}.

Definition user_sequence_id (d : network_data) : list nat := userid <$> interactions d.
Definition item_sequence_id (d : network_data) : list nat := itemid <$> interactions d.
Definition timestamp_sequence (d : network_data) : list Qc := timestamp <$> interactions d.
Definition user_previous_itemid_sequence (d : network_data) : list nat :=
  previous_itemid <$> interactions d.
Definition y_true (d : network_data) : list Z := label <$> interactions d.

(** Lines 56-60. *)
Definition num_interactions (d : network_data) : nat := length (user_sequence_id d).
Definition num_users (d : network_data) : nat := user2id_len d.
Definition num_items (d : network_data) : nat := item2id_len d + 1.

(** ** Start of the script (lines 39-53)

    The observable steps are recorded as events, so that "before anything is
    loaded" can be stated. *)

Inductive event :=
  | EvLoadNetwork (path : string)
  | EvTrain.

Inductive startup_result :=
  | SysExit (msg : string)
  | Loaded (d : network_data).

Section Startup.
(** [load_network] of library_data, which is not part of the sources. *)
Variable load_network : args → network_data.

Definition startup (a : args) : list event * startup_result :=
  if decide (Qc_0_8 < train_proportion a)%Qc
  then ([], SysExit "Training sequence proportion cannot be greater than 0.8.")
  else ([EvLoadNetwork (datapath a)], Loaded (load_network a)).
End Startup.

(** ** Class weight (line 64)

    [len(y_true)/(1.0+sum(y_true))]; a float division by zero raises. *)

Definition sum_labels (ys : list Z) : Z := foldr Z.add 0 ys.

Definition true_labels_ratio (ys : list Z) : option Qc :=
  let den := (1 + Qc_of_Z (sum_labels ys))%Qc in
  if decide (den = 0%Qc) then None
  else Some (Qc_of_nat (length ys) / den)%Qc.

(** Number of positively labelled interactions. *)
Definition positives (ys : list Z) : nat := length (filter (λ y, y = 1) ys).

(** The ratio the specification names: all labels over positive labels. *)
Definition all_to_positive_ratio (ys : list Z) : Qc :=
  (Qc_of_nat (length ys) / Qc_of_nat (positives ys))%Qc.

(** Lines 68 and 82-83.  [int] truncates towards zero, and a negative bound
    gives an empty [range]. *)
Definition int_of_Qc (q : Qc) : Z := Z.quot (Qnum q) (Z.pos (Qden q)).

Definition train_end_idx (a : args) (d : network_data) : nat :=
  Z.to_nat (int_of_Qc (Qc_of_nat (num_interactions d) * train_proportion a)%Qc).

Definition tbatch_timespan (d : network_data) : option Qc :=
  t0 ← head (timestamp_sequence d);
  tl ← last (timestamp_sequence d);
  Some ((tl - t0) / Qc_500)%Qc.

(** ** Python loops *)

(** [for x in xs: body], where the body may raise. *)
Fixpoint for_each {A S : Type} (body : A → S → option S) (xs : list A) (s : S) : option S :=
  match xs with
  | [] => Some s
  | x :: xs' => s' ← body x s; for_each body xs' s'
  end.

(** [enumerate(xs, start=k)]. *)
Fixpoint enumerate_from {A : Type} (k : nat) (xs : list A) : list (nat * A) :=
  match xs with
  | [] => []
  | x :: xs' => (k, x) :: enumerate_from (S k) xs'
  end.

(** ** T-batch tables

    The module globals of library_models that the script reads and writes.
    The script keeps seven dictionaries [current_tbatches_*] from batch id to
    a list; it appends to, reads, caches and restores all seven under the
    same key at the same program points, so they are kept here as one
    dictionary from batch id to the seven lists; likewise the seven
    dictionaries [cached_tbatches_*] of the script, keyed by timestamp, are
    one dictionary from timestamp to such a dictionary. *)

Record tbatch := {
  tb_user : list nat;
  tb_item : list nat;
  tb_feature : list feature;
  tb_interactionids : list nat;
  tb_user_timediffs : list Qc;
  tb_item_timediffs : list Qc;
  tb_previous_item : list nat;
}.

Definition empty_tbatch : tbatch :=
  {| tb_user := []; tb_item := []; tb_feature := []; tb_interactionids := [];
     tb_user_timediffs := []; tb_item_timediffs := []; tb_previous_item := [] |}.

(** Lines 173-179: the seven [append]s. *)
Definition tbatch_append (j : nat) (x : interaction) (b : tbatch) : tbatch :=
  {| tb_user := tb_user b ++ [userid x];
     tb_item := tb_item b ++ [itemid x];
     tb_feature := tb_feature b ++ [features x];
     tb_interactionids := tb_interactionids b ++ [j];
     tb_user_timediffs := tb_user_timediffs b ++ [user_timediff x];
     tb_item_timediffs := tb_item_timediffs b ++ [item_timediff x];
     tb_previous_item := tb_previous_item b ++ [previous_itemid x] |}.

Record tbatches := {
  tbatchid_user : gmap nat Z;
  tbatchid_item : gmap nat Z;
  current_tbatches : gmap Z tbatch;
}.

Definition empty_tbatches : tbatches :=
  {| tbatchid_user := ∅; tbatchid_item := ∅; current_tbatches := ∅ |}.

Definition set_current (cur : gmap Z tbatch) (t : tbatches) : tbatches :=
  {| tbatchid_user := tbatchid_user t; tbatchid_item := tbatchid_item t;
     current_tbatches := cur |}.

(** What the script needs from library_models, which is not part of the
    sources: the value a counter table yields for an id it has not seen, and
    the effect of [reinitialize_tbatches()] on the tables. *)
Record Lib := {
  tbatchid_default : Z;
  reinitialize_tbatches : tbatches → tbatches;
}.

(** Modelled from the spec: [reinitialize_tbatches] and the counter tables of
    library_models.  Section 4.1: the counters are "both initialized to 0
    (meaning not yet used)", and when a window closes the "scheduler state for
    batch-id counters is NOT reset (ids keep growing across windows within
    one epoch)"; the per-batch lists start anew for the next window. *)
Definition spec_lib : Lib :=
  {| tbatchid_default := 0;
     reinitialize_tbatches := set_current ∅ |}.

(** A library under which every window starts from new tables: the counters
    answer [-1] for an id not seen in the window, so the first batch id of a
    window is [0], the value of [tbatch_to_insert + 1] after lines 151 and
    281.  A value for the parameter [Lib]; library_models itself is not part
    of the sources. *)
Definition fresh_lib : Lib :=
  {| tbatchid_default := -1;
     reinitialize_tbatches := λ _, empty_tbatches |}.

(** A read [table[id]] of a counter table. *)
Definition tbatchid_get (L : Lib) (table : gmap nat Z) (id : nat) : Z :=
  default (tbatchid_default L) (table !! id).

(** A read [d[i]] of a dictionary of lists.  The script appends to
    [d[tbatch_to_insert]] for ids it has never stored, so a read of a missing
    key yields the empty list and stores it under the key. *)
Definition tbatch_get (cur : gmap Z tbatch) (i : Z) : tbatch :=
  default empty_tbatch (cur !! i).

Definition tbatch_touch (cur : gmap Z tbatch) (i : Z) : gmap Z tbatch :=
  <[i := tbatch_get cur i]> cur.

(** Lines 169-179: interaction [j] is given a batch id and appended. *)
Definition insert_interaction (L : Lib) (j : nat) (x : interaction) (t : tbatches)
    : Z * tbatches :=
  let id := Z.max (tbatchid_get L (tbatchid_user t) (userid x))
                  (tbatchid_get L (tbatchid_item t) (itemid x)) + 1 in
  (id,
   {| tbatchid_user := <[userid x := id]> (tbatchid_user t);
      tbatchid_item := <[itemid x := id]> (tbatchid_item t);
      current_tbatches :=
        <[id := tbatch_append j x (tbatch_get (current_tbatches t) id)]>
          (current_tbatches t) |}).

(** ** Trace of one epoch

    Two logs are kept beside the program state, to state properties of a
    run: the batch id given to each interaction (line 169), and one record
    per flush. *)

Record assigned := {
  as_index : nat;
  as_user : nat;
  as_item : nat;
  as_tbatch : Z;
}.

Record window := {
  opening_index : nat;        (* first interaction read after the previous flush *)
  closing_index : nat;        (* the interaction at which the span check fired *)
  window_start_time : Qc;     (* [tbatch_start_time] when the check fired *)
  closing_timestamp : Qc;
}.

Record flush_record := {
  fr_window : window;
  fr_accumulated : gmap Z tbatch;     (* the dictionary handed to the batch loop *)
  fr_consumed : list (Z * tbatch);    (* the batches the loop processed, in order *)
}.

(** ** The training loop (lines 133-293)

    The tensor work on one batch (lines 206-255), the backward pass and
    optimizer step (lines 258-268) and the per-epoch set-up and tear-down of
    the embedding tables act on a state [P] that the scheduler never reads;
    the loop is written once, over any such [P]. *)

Record batch_loop_state {P : Type} := {
  bl_current : gmap Z tbatch;
  bl_count : nat;
  bl_payload : P;
  bl_consumed : list (Z * tbatch);
}.
Arguments batch_loop_state : clear implicits.

Record loop_state {P : Type} := {
  lib : tbatches;
  cached_tbatches : gmap Qc (gmap Z tbatch);
  tbatch_start_time : option Qc;
  tbatch_to_insert : Z;
  total_interaction_count : nat;
  payload : P;
  window_first : nat;             (* log: first index read since the last flush *)
  assignment : list assigned;     (* log *)
  flushed : list flush_record;    (* log *)
}.
Arguments loop_state : clear implicits.

Record run_state {P : Type} := {
  is_first_epoch : bool;
  rs_lib : tbatches;
  rs_cached_tbatches : gmap Qc (gmap Z tbatch);
  rs_payload : P;
  rs_epochs : list (loop_state P);  (* log: the final loop state of each epoch *)
}.
Arguments run_state : clear implicits.

Section TrainingLoop.
Context {P : Type}.
Variable L : Lib.
Variable process_tbatch : tbatch → P → option P.
Variable backpropagate : P → P.
Variable epoch_begin : P → P.
Variable epoch_end : P → P.
Variable span : Qc.

(** Lines 201-255, one iteration of [for i in range(len(...))].  In the
  first epoch the lists read under key [i] are replaced by tensors of the
  same elements (lines 208-215); a list and the tensor made of it are not
  told apart here. *)
Definition tbatch_step (i : nat) (bs : batch_loop_state P) : option (batch_loop_state P) :=
  let b := tbatch_get (bl_current bs) (Z.of_nat i) in
  p' ← process_tbatch b (bl_payload bs);
  Some {| bl_current := tbatch_touch (bl_current bs) (Z.of_nat i);
          bl_count := bl_count bs + length (tb_interactionids b);
          bl_payload := p';
          bl_consumed := bl_consumed bs ++ [(Z.of_nat i, b)] |}.

(** Lines 187-281, the body of the span check.  In the first epoch the
    dictionary of the open window is processed, stored in the cache and the
    tables are reinitialised; in a later epoch the dictionary cached under
    the timestamp is processed.  That dictionary stays the cached object,
    so what the batch loop stores into it is stored in the cache. *)
Definition flush (first : bool) (j : nat) (ts start : Qc) (st : loop_state P)
    : option (loop_state P) :=
  cur ← (if first then Some (current_tbatches (lib st)) else cached_tbatches st !! ts);
  bs ← for_each tbatch_step (seq 0 (size cur))
         {| bl_current := cur; bl_count := total_interaction_count st;
            bl_payload := payload st; bl_consumed := [] |};
  Some {| lib := if first
                 then reinitialize_tbatches L (set_current (bl_current bs) (lib st))
                 else set_current (bl_current bs) (lib st);
          cached_tbatches := <[ts := bl_current bs]> (cached_tbatches st);
          tbatch_start_time := Some ts;
          tbatch_to_insert := if first then -1 else tbatch_to_insert st;
          total_interaction_count := bl_count bs;
          payload := backpropagate (bl_payload bs);
          window_first := S j;
          assignment := assignment st;
          flushed := flushed st ++
            [{| fr_window := {| opening_index := window_first st; closing_index := j;
                                window_start_time := start; closing_timestamp := ts |};
                fr_accumulated := cur;
                fr_consumed := bl_consumed bs |}] |}.

(** Lines 159-179. *)
Definition schedule (j : nat) (x : interaction) (st : loop_state P) : loop_state P :=
  let '(id, t) := insert_interaction L j x (lib st) in
  {| lib := t;
     cached_tbatches := cached_tbatches st;
     tbatch_start_time := tbatch_start_time st;
     tbatch_to_insert := id;
     total_interaction_count := total_interaction_count st;
     payload := payload st;
     window_first := window_first st;
     assignment := assignment st ++
       [{| as_index := j; as_user := userid x; as_item := itemid x; as_tbatch := id |}];
     flushed := flushed st |}.

Definition set_start_time (start : Qc) (st : loop_state P) : loop_state P :=
  {| lib := lib st;
     cached_tbatches := cached_tbatches st;
     tbatch_start_time := Some start;
     tbatch_to_insert := tbatch_to_insert st;
     total_interaction_count := total_interaction_count st;
     payload := payload st;
     window_first := window_first st;
     assignment := assignment st;
     flushed := flushed st |}.

(** Lines 156-281, one iteration of [for j in range(train_end_idx)]. *)
Definition interaction_step (first : bool) (jx : nat * interaction) (st : loop_state P)
    : option (loop_state P) :=
  let st := if first then schedule jx.1 jx.2 st else st in
  let start := default (timestamp jx.2) (tbatch_start_time st) in
  if decide (span < timestamp jx.2 - start)%Qc
  then flush first jx.1 (timestamp jx.2) start st
  else Some (set_start_time start st).

(** Lines 146-152. *)
Definition epoch_init (t : tbatches) (cache : gmap Qc (gmap Z tbatch)) (p : P)
    : loop_state P :=
  {| lib := reinitialize_tbatches L t;
     cached_tbatches := cache;
     tbatch_start_time := None;
     tbatch_to_insert := -1;
     total_interaction_count := 0;
     payload := p;
     window_first := 0;
     assignment := [];
     flushed := [] |}.

(** Lines 136-281: one epoch over the training prefix [xs]. *)
Definition train_epoch (first : bool) (xs : list interaction)
    (t : tbatches) (cache : gmap Qc (gmap Z tbatch)) (p : P) : option (loop_state P) :=
  for_each (interaction_step first) (enumerate_from 0 xs) (epoch_init t cache p).

(** Lines 135-293, one iteration of [for ep in range(args.epochs)]. *)
Definition epoch_step (xs : list interaction) (ep : nat) (rs : run_state P)
    : option (run_state P) :=
  st ← train_epoch (is_first_epoch rs) xs (rs_lib rs) (rs_cached_tbatches rs)
         (epoch_begin (rs_payload rs));
  Some {| is_first_epoch := false;
          rs_lib := lib st;
          rs_cached_tbatches := cached_tbatches st;
          rs_payload := epoch_end (payload st);
          rs_epochs := rs_epochs rs ++ [st] |}.

(** Lines 116-123 and 133-293. *)
Definition train (n : nat) (xs : list interaction) (t : tbatches) (p : P)
    : option (run_state P) :=
  for_each (epoch_step xs) (seq 0 n)
    {| is_first_epoch := true; rs_lib := t; rs_cached_tbatches := ∅;
       rs_payload := p; rs_epochs := [] |}.

(** The span check alone (lines 181-187): the windows the loop closes are
    a function of the timestamps. *)
Fixpoint flush_windows (xs : list (nat * interaction)) (start : option Qc) (first_idx : nat)
    : list window :=
  match xs with
  | [] => []
  | jx :: xs' =>
      let s := default (timestamp jx.2) start in
      if decide (span < timestamp jx.2 - s)%Qc
      then {| opening_index := first_idx; closing_index := jx.1;
              window_start_time := s; closing_timestamp := timestamp jx.2 |}
           :: flush_windows xs' (Some (timestamp jx.2)) (S jx.1)
      else flush_windows xs' (Some s) first_idx
  end.
End TrainingLoop.

(** The training prefix of the stream, [range(train_end_idx)]. *)
Definition training_prefix (a : args) (d : network_data) : list interaction :=
  take (train_end_idx a d) (interactions d).

(** Interaction [j] lies in window [w]. *)
Definition in_window (j : nat) (w : window) : Prop :=
  (opening_index w ≤ j ≤ closing_index w)%nat.

(** The batch ids given to the interactions of one actor, or of one target,
    in the order of the stream. *)
Definition tbatch_ids_of_user (u : nat) (log : list assigned) : list Z :=
  as_tbatch <$> filter (λ a, as_user a = u) log.
Definition tbatch_ids_of_item (i : nat) (log : list assigned) : list Z :=
  as_tbatch <$> filter (λ a, as_item a = i) log.

(** ** Embedding tables and trajectories (lines 94-103, 140-141, 217-268, 292-293) *)

(** [table[ids,:]]: an index outside the table raises. *)
Definition gather {A : Type} (table : list A) (ids : list nat) : option (list A) :=
  mapM (λ i, table !! i) ids.

(** [table[ids,:] = rows]. *)
Fixpoint scatter {A : Type} (table : list A) (ids : list nat) (rows : list A)
    : option (list A) :=
  match ids, rows with
  | i :: ids', r :: rows' =>
      if decide (i < length table)%nat then scatter (<[i := r]> table) ids' rows' else None
  | _, _ => Some table
  end.

(** [torch.eye(n)]: row [i] is the one-hot vector of [i]. *)
Definition eye (n : nat) : list (list bool) :=
  (λ i, (λ j, bool_decide (i = j)) <$> seq 0 n) <$> seq 0 n.

Record train_data {emb model loss : Type} := {
  jodie_model : model;
  user_embeddings : list emb;
  item_embeddings : list emb;
  user_embeddings_timeseries : list (option emb);   (* [None]: row never written *)
  item_embeddings_timeseries : list (option emb);
  loss_acc : loss;
}.
Arguments train_data : clear implicits.

Section Embeddings.
Context {emb model loss : Type}.
(** The learned initial embeddings, the two updating selections of
    [model.forward] (row by row), the loss terms of one batch (projection
    and prediction only feed the loss) and the optimizer step: all
    external to the script. *)
Variable initial_user_embedding initial_item_embedding : model → emb.
Variable forward_user_update forward_item_update :
  model → emb → emb → Qc → feature → emb.
Variable tbatch_loss : model → bool → tbatch → list emb → list emb → list emb → loss → loss.
Variable optimizer_step : model → loss → model.
Variable zero_loss : loss.

Variable a : args.
Variable d : network_data.
Variable L : Lib.

Definition forward (f : model → emb → emb → Qc → feature → emb) (m : model)
    (us vs : list emb) (tds : list Qc) (fs : list feature) : list emb :=
  zip_with (λ ui tf, f m ui.1 ui.2 tf.1 tf.2) (zip us vs) (zip tds fs).

(** Lines 217-255 for one batch. *)
Definition process_tbatch (b : tbatch) (td : train_data emb model loss)
    : option (train_data emb model loss) :=
  let m := jodie_model td in
  item_embedding_previous ← gather (item_embeddings td) (tb_previous_item b);
  user_embedding_input ← gather (user_embeddings td) (tb_user b);
  _ ← gather (eye (num_items d)) (tb_previous_item b);
  _ ← gather (eye (num_users d)) (tb_user b);
  item_embedding_input ← gather (item_embeddings td) (tb_item b);
  _ ← gather (eye (num_items d)) (tb_item b);
  let user_embedding_output :=
    forward forward_user_update m user_embedding_input item_embedding_input
      (tb_user_timediffs b) (tb_feature b) in
  let item_embedding_output :=
    forward forward_item_update m user_embedding_input item_embedding_input
      (tb_item_timediffs b) (tb_feature b) in
  item_embeddings' ← scatter (item_embeddings td) (tb_item b) item_embedding_output;
  user_embeddings' ← scatter (user_embeddings td) (tb_user b) user_embedding_output;
  user_timeseries' ← scatter (user_embeddings_timeseries td) (tb_interactionids b)
                       (Some <$> user_embedding_output);
  item_timeseries' ← scatter (item_embeddings_timeseries td) (tb_interactionids b)
                       (Some <$> item_embedding_output);
  Some {| jodie_model := m;
          user_embeddings := user_embeddings';
          item_embeddings := item_embeddings';
          user_embeddings_timeseries := user_timeseries';
          item_embeddings_timeseries := item_timeseries';
          loss_acc := tbatch_loss m (state_change a) b user_embedding_input
                        item_embedding_input item_embedding_previous (loss_acc td) |}.

(** Lines 258-268. *)
Definition backpropagate (td : train_data emb model loss) : train_data emb model loss :=
  {| jodie_model := optimizer_step (jodie_model td) (loss_acc td);
     user_embeddings := user_embeddings td;
     item_embeddings := item_embeddings td;
     user_embeddings_timeseries := user_embeddings_timeseries td;
     item_embeddings_timeseries := item_embeddings_timeseries td;
     loss_acc := zero_loss |}.

(** Lines 140-148: the trajectories are allocated, not initialised. *)
Definition epoch_begin (td : train_data emb model loss) : train_data emb model loss :=
  {| jodie_model := jodie_model td;
     user_embeddings := user_embeddings td;
     item_embeddings := item_embeddings td;
     user_embeddings_timeseries := replicate (num_interactions d) None;
     item_embeddings_timeseries := replicate (num_interactions d) None;
     loss_acc := zero_loss |}.

(** Lines 292-293. *)
Definition epoch_end (td : train_data emb model loss) : train_data emb model loss :=
  {| jodie_model := jodie_model td;
     user_embeddings := replicate (num_users d) (initial_user_embedding (jodie_model td));
     item_embeddings := replicate (num_items d) (initial_item_embedding (jodie_model td));
     user_embeddings_timeseries := user_embeddings_timeseries td;
     item_embeddings_timeseries := item_embeddings_timeseries td;
     loss_acc := loss_acc td |}.

(** Lines 94-103. *)
Definition initial_train_data (m : model) : train_data emb model loss :=
  {| jodie_model := m;
     user_embeddings := replicate (num_users d) (initial_user_embedding m);
     item_embeddings := replicate (num_items d) (initial_item_embedding m);
     user_embeddings_timeseries := [];
     item_embeddings_timeseries := [];
     loss_acc := zero_loss |}.

(** The script after [load_network]: lines 56-293.  [t] is the state of the
    tables of library_models when the script starts, [m] the model. *)
Definition jodie (t : tbatches) (m : model) : option (run_state (train_data emb model loss)) :=
  _ ← true_labels_ratio (y_true d);
  span ← tbatch_timespan d;
  train L process_tbatch backpropagate epoch_begin epoch_end span
    (epochs a) (training_prefix a d) t (initial_train_data m).
End Embeddings.

(** ** Shapes of windows, used to state what the loop guarantees *)

(** Window [w] over the stream [l]: it closes at an interaction that is more
    than [span] after the window's start time, and every interaction read
    before that one is within [span] of the start time. *)
Definition window_spans (span : Qc) (l : list interaction) (w : window) : Prop :=
  (opening_index w ≤ closing_index w)%nat
  ∧ (∃ x, l !! closing_index w = Some x
          ∧ closing_timestamp w = timestamp x
          ∧ (span < timestamp x - window_start_time w)%Qc)
  ∧ (∀ j x, (opening_index w ≤ j < closing_index w)%nat → l !! j = Some x →
            (timestamp x - window_start_time w ≤ span)%Qc).

(** Consecutive windows: each opens right after its predecessor closed and
    starts the clock at the predecessor's closing timestamp; the first one
    starts it at the first timestamp read. *)
Fixpoint chained (l : list interaction) (first_idx : nat) (start : option Qc)
    (ws : list window) : Prop :=
  match ws with
  | [] => True
  | w :: ws' =>
      opening_index w = first_idx
      ∧ Some (window_start_time w)
          = match start with Some t => Some t | None => timestamp <$> l !! first_idx end
      ∧ chained l (S (closing_index w)) (Some (closing_timestamp w)) ws'
  end.

(** ** A small stream, for evaluation *)

Definition example_interaction (u i : nat) (t : Z) : interaction :=
  {| userid := u; itemid := i; timestamp := Qc_of_Z t; features := [];
     user_timediff := 0%Qc; item_timediff := 0%Qc; previous_itemid := 3; label := 0 |}.

(** Five interactions of three actors with three targets, at times
    0, 1000, 2000, 2001 and 2002. *)
Definition example_data : network_data :=
  {| user2id_len := 3; item2id_len := 3;
     interactions :=
       [example_interaction 0 0 0; example_interaction 1 1 1000;
        example_interaction 0 1 2000; example_interaction 2 0 2001;
        example_interaction 0 2 2002] |}.

Definition example_args : args :=
  {| network := "example"; model_name := "jodie"; epochs := 3; embedding_dim := 1;
     train_proportion := Qc_0_8; state_change := true |}.

(** ** Shapes of batches *)

(** No actor and no target occurs twice in the batch. *)
Definition conflict_free (b : tbatch) : Prop :=
  NoDup (tb_user b) ∧ NoDup (tb_item b).

(** The actor, target and previous-target lists of the batch are those of its
    interactions, position by position. *)
Definition of_stream (xs : list interaction) (b : tbatch) : Prop :=
  Forall2 (λ j u, userid <$> xs !! j = Some u) (tb_interactionids b) (tb_user b)
  ∧ Forall2 (λ j i, itemid <$> xs !! j = Some i) (tb_interactionids b) (tb_item b)
  ∧ Forall2 (λ j i, previous_itemid <$> xs !! j = Some i)
      (tb_interactionids b) (tb_previous_item b).

(** Every batch of a dictionary satisfies [Q]. *)
Definition all_tbatches (Q : tbatch → Prop) (cur : gmap Z tbatch) : Prop :=
  ∀ id b, cur !! id = Some b → Q b.

(** Every batch a flush was handed, and every batch it processed, satisfies [Q]. *)
Definition flush_tbatches (Q : tbatch → Prop) (r : flush_record) : Prop :=
  all_tbatches Q (fr_accumulated r) ∧ Forall (λ ib, Q ib.2) (fr_consumed r).

(** What library_models may be assumed to do in [reinitialize_tbatches]. *)
Definition reinit_clears (L : Lib) : Prop :=
  ∀ t, current_tbatches (reinitialize_tbatches L t) = ∅.

Definition reinit_keeps_ids (L : Lib) : Prop :=
  ∀ t, tbatchid_user (reinitialize_tbatches L t) = tbatchid_user t
       ∧ tbatchid_item (reinitialize_tbatches L t) = tbatchid_item t.

Definition reinit_fresh (L : Lib) : Prop :=
  tbatchid_default L = -1 ∧ ∀ t, reinitialize_tbatches L t = empty_tbatches.

(** The keys of the dictionary are [0 .. len-1]. *)
Definition keyed_from_zero (cur : gmap Z tbatch) : Prop :=
  ∀ id, is_Some (cur !! id) ↔ 0 ≤ id < Z.of_nat (size cur).

(** The batches of a dictionary under the keys [0 .. len-1], in this order:
    what [for i in range(len(d))] reads. *)
Definition tbatches_in_range (cur : gmap Z tbatch) : list (Z * tbatch) :=
  (λ i : nat, (Z.of_nat i, tbatch_get cur (Z.of_nat i))) <$> seq 0 (size cur).

(** The scheduler's invariant on the tables: a batch holds no actor and no
    target twice, and the counter of each of its actors and targets has
    reached the id of the batch. *)
Definition scheduled (L : Lib) (xs : list interaction) (t : tbatches) (id : Z) (b : tbatch)
    : Prop :=
  conflict_free b ∧ of_stream xs b
  ∧ (∀ u, u ∈ tb_user b → id ≤ tbatchid_get L (tbatchid_user t) u)
  ∧ (∀ i, i ∈ tb_item b → id ≤ tbatchid_get L (tbatchid_item t) i).

Definition sched_inv (L : Lib) (xs : list interaction) (t : tbatches) : Prop :=
  ∀ id b, current_tbatches t !! id = Some b → scheduled L xs t id b.

(** The tables of an open window under a library that starts every window
    from new tables: the keys of the dictionary are [0 .. len-1] and every
    stored counter is one of them. *)
Definition contiguous (t : tbatches) : Prop :=
  keyed_from_zero (current_tbatches t)
  ∧ (∀ u c, tbatchid_user t !! u = Some c → 0 ≤ c < Z.of_nat (size (current_tbatches t)))
  ∧ (∀ i c, tbatchid_item t !! i = Some c → 0 ≤ c < Z.of_nat (size (current_tbatches t))).

(** The batch loop of the flush processed exactly the dictionary it was
    handed, key by key from [0]. *)
Definition flushed_in_order (r : flush_record) : Prop :=
  keyed_from_zero (fr_accumulated r)
  ∧ fr_consumed r = tbatches_in_range (fr_accumulated r).

(** What a later epoch records at window [w] when the cache is [cache]. *)
Definition replay_record (cache : gmap Qc (gmap Z tbatch)) (w : window) : flush_record :=
  let cur := default ∅ (cache !! closing_timestamp w) in
  {| fr_window := w; fr_accumulated := cur; fr_consumed := tbatches_in_range cur |}.

(** ** Invariants of the loops

    Stated here, proved to hold further down. *)

(** A batch as the scheduler builds it from the stream [xs]. *)
Definition good (xs : list interaction) (b : tbatch) : Prop :=
  conflict_free b ∧ of_stream xs b.

Definition cache_good (xs : list interaction) (cache : gmap Qc (gmap Z tbatch)) : Prop :=
  ∀ ts cur, cache !! ts = Some cur → all_tbatches (good xs) cur.

(** In any epoch: what was flushed and what is cached are good batches. *)
Definition replay_inv {P : Type} (xs : list interaction) (st : loop_state P) : Prop :=
  Forall (flush_tbatches (good xs)) (flushed st) ∧ cache_good xs (cached_tbatches st).

(** In the first epoch, the open window is as the scheduler keeps it. *)
Definition first_inv {P : Type} (L : Lib) (xs : list interaction) (st : loop_state P) : Prop :=
  sched_inv L xs (lib st) ∧ replay_inv xs st.

Definition run_inv {P : Type} (xs : list interaction) (rs : run_state P) : Prop :=
  cache_good xs (rs_cached_tbatches rs) ∧ Forall (replay_inv xs) (rs_epochs rs).

(** The ids given to an entity so far increase strictly and stay at or below
    the entity's counter. *)
Definition ids_inv {P : Type} (L : Lib) (st : loop_state P) : Prop :=
  ∀ k,
    (StronglySorted Z.lt (tbatch_ids_of_user k (assignment st))
     ∧ Forall (λ id, id ≤ tbatchid_get L (tbatchid_user (lib st)) k)
         (tbatch_ids_of_user k (assignment st)))
    ∧ (StronglySorted Z.lt (tbatch_ids_of_item k (assignment st))
       ∧ Forall (λ id, id ≤ tbatchid_get L (tbatchid_item (lib st)) k)
           (tbatch_ids_of_item k (assignment st))).

Definition cache_keyed (cache : gmap Qc (gmap Z tbatch)) : Prop :=
  ∀ ts cur, cache !! ts = Some cur → keyed_from_zero cur.

(** The first epoch under a library that starts every window from new tables. *)
Definition first_keyed {P : Type} (st : loop_state P) : Prop :=
  contiguous (lib st)
  ∧ cache_keyed (cached_tbatches st)
  ∧ Forall flushed_in_order (flushed st).

(** The flush processed the dictionary that [cache] holds under the closing
    timestamp of the window. *)
Definition replayed (cache : gmap Qc (gmap Z tbatch)) (r : flush_record) : Prop :=
  cache !! closing_timestamp (fr_window r) = Some (fr_accumulated r)
  ∧ flushed_in_order r.

(** A later epoch: the cache stays [cache], nothing is scheduled, every flush
    replays the cache. *)
Definition later_keyed {P : Type} (cache : gmap Qc (gmap Z tbatch)) (st : loop_state P)
    : Prop :=
  cached_tbatches st = cache ∧ assignment st = [] ∧ Forall (replayed cache) (flushed st).

(** Every window closed so far has an entry in the cache. *)
Definition closing_cached {P : Type} (st : loop_state P) : Prop :=
  Forall (λ r, is_Some (cached_tbatches st !! closing_timestamp (fr_window r))) (flushed st).

(** Every window closed so far has its own dictionary in the cache, and
    closed no later than the clock now stands. *)
Definition own_cached {P : Type} (st : loop_state P) : Prop :=
  Forall (λ r, replayed (cached_tbatches st) r
               ∧ ∃ s, tbatch_start_time st = Some s
                      ∧ (closing_timestamp (fr_window r) ≤ s)%Qc)
    (flushed st).

(** The state [st1] in which the first epoch ended, and the state [st] in
    which a later one ended. *)
Definition first_epoch_done {P : Type} (span : Qc) (xs : list interaction)
    (st1 : loop_state P) : Prop :=
  Forall flushed_in_order (flushed st1)
  ∧ fr_window <$> flushed st1 = flush_windows span (enumerate_from 0 xs) None 0
  ∧ closing_cached st1
  ∧ ((0 ≤ span)%Qc → Forall (replayed (cached_tbatches st1)) (flushed st1)).

Definition later_epoch_done {P : Type} (span : Qc) (xs : list interaction)
    (st1 st : loop_state P) : Prop :=
  later_keyed (cached_tbatches st1) st
  ∧ flushed st = replay_record (cached_tbatches st1)
                   <$> flush_windows span (enumerate_from 0 xs) None 0.

Definition run_keyed {P : Type} (span : Qc) (xs : list interaction) (rs : run_state P)
    : Prop :=
  cache_keyed (rs_cached_tbatches rs)
  ∧ match rs_epochs rs with
    | [] => is_first_epoch rs = true
    | st1 :: later =>
        is_first_epoch rs = false
        ∧ rs_cached_tbatches rs = cached_tbatches st1
        ∧ first_epoch_done span xs st1
        ∧ Forall (later_epoch_done span xs st1) later
    end.

(** The embedding tables have the size they were allocated with. *)
Definition sized {emb model loss : Type} (d : network_data) (td : train_data emb model loss)
    : Prop :=
  length (user_embeddings td) = num_users d ∧ length (item_embeddings td) = num_items d.

(** Which rows of a trajectory have been written. *)
Definition written {emb : Type} (timeseries : list (option emb)) : list bool :=
  (λ row, match row with Some _ => true | None => false end) <$> timeseries.

(** ** Runs over the example stream *)

(** The span of the example stream, [(2002 - 0) / 500]. *)
Definition example_span : Qc := ((Qc_of_Z 2002 - Qc_of_Z 0) / Qc_500)%Qc.

(** The loop with nothing to do on a batch: scheduler, windows and cache only. *)
Definition schedule_only (L : Lib) (span : Qc) (first : bool) (xs : list interaction)
    (t : tbatches) (cache : gmap Qc (gmap Z tbatch)) : option (loop_state unit) :=
  train_epoch L (λ _ _, Some tt) id span first xs t cache tt.

Definition schedule_only_run (L : Lib) (span : Qc) (n : nat) (xs : list interaction)
    (t : tbatches) : option (run_state unit) :=
  train L (λ _ _, Some tt) id id id span n xs t tt.

(** The script with one-point embeddings, model and loss. *)
Definition jodie_unit (a : args) (d : network_data) (L : Lib) (t : tbatches)
    : option (run_state (train_data unit unit unit)) :=
  jodie (λ _, tt) (λ _, tt) (λ _ _ _ _ _, tt) (λ _ _ _ _ _, tt) (λ _ _ _ _ _ _ _, tt)
    (λ _ _, tt) tt a d L t tt.

Definition empty_run {P : Type} (p : P) : run_state P :=
  {| is_first_epoch := true; rs_lib := empty_tbatches; rs_cached_tbatches := ∅;
     rs_payload := p; rs_epochs := [] |}.

Definition empty_flush : flush_record :=
  {| fr_window := {| opening_index := 0; closing_index := 0;
                     window_start_time := 0%Qc; closing_timestamp := 0%Qc |};
     fr_accumulated := ∅; fr_consumed := [] |}.

(** Three epochs over the training prefix of the example stream; its epoch
    [k]; the flush [i] of that epoch; the batch accumulated under [id]. *)
Definition example_run (L : Lib) : run_state unit :=
  default (empty_run tt)
    (schedule_only_run L example_span 3 (training_prefix example_args example_data)
       empty_tbatches).

Definition example_epoch (L : Lib) (k : nat) : loop_state unit :=
  default (epoch_init L empty_tbatches ∅ tt) (rs_epochs (example_run L) !! k).

Definition example_flush (L : Lib) (k i : nat) : flush_record :=
  default empty_flush (flushed (example_epoch L k) !! i).

Definition example_tbatch (L : Lib) (k i : nat) (id : Z) : tbatch :=
  tbatch_get (fr_accumulated (example_flush L k i)) id.

(** The same for the script with its embedding tables. *)
Definition example_jodie (L : Lib) : run_state (train_data unit unit unit) :=
  default (empty_run (initial_train_data (λ _, tt) (λ _, tt) tt example_data tt))
    (jodie_unit example_args example_data L empty_tbatches).

Definition example_jodie_epoch (L : Lib) (k : nat) : loop_state (train_data unit unit unit) :=
  default (epoch_init L empty_tbatches ∅
             (initial_train_data (λ _, tt) (λ _, tt) tt example_data tt))
    (rs_epochs (example_jodie L) !! k).

Definition example_jodie_flush (L : Lib) (k i : nat) : flush_record :=
  default empty_flush (flushed (example_jodie_epoch L k) !! i).

(** ** Validation and test boundaries (lines 68-70) *)





(** ** More shapes of batches *)

(** The seven lists of the batch have one length. *)
Definition aligned (b : tbatch) : Prop :=
  length (tb_user b) = length (tb_interactionids b)
  ∧ length (tb_item b) = length (tb_interactionids b)
  ∧ length (tb_feature b) = length (tb_interactionids b)
  ∧ length (tb_user_timediffs b) = length (tb_interactionids b)
  ∧ length (tb_item_timediffs b) = length (tb_interactionids b)
  ∧ length (tb_previous_item b) = length (tb_interactionids b).

(** A batch of two interactions, embedding tables of numbers and two
    updates to run [process_tbatch] on. *)
Definition example_pair : tbatch :=
  tbatch_append 1 (example_interaction 1 1 1000)
    (tbatch_append 0 (example_interaction 0 0 0) empty_tbatch).

Definition example_table : train_data Z unit unit :=
  epoch_begin tt example_data (initial_train_data (λ _, 1) (λ _, 10) tt example_data tt).

Definition example_table_after : train_data Z unit unit :=
  default example_table
    (process_tbatch (λ _ u v _ _, u + v) (λ _ u v _ _, u * v) (λ _ _ _ _ _ _ _, tt)
       example_args example_data example_pair example_table).

(** ** More shapes of windows *)

(** The indices of the interactions of a window. *)
Definition window_indices (w : window) : list nat :=
  seq (opening_index w) (S (closing_index w) - opening_index w).

(** The closing timestamps of the flushes logged so far. *)
Definition closing_timestamps (rs : list flush_record) : list Qc :=
  (λ r, closing_timestamp (fr_window r)) <$> rs.

(** Two interactions at one time. *)
Definition example_together : list interaction :=
  [example_interaction 0 0 5; example_interaction 1 1 5].

(** ** The log of flushes, read as a program

    What the flushes of a log do to the state that the tensor work acts on:
    the batches a flush processed, in the order of the log, then the backward
    pass. *)

Section Replaying.
Context {P : Type}.
Variable process_tbatch : tbatch → P → option P.
Variable backpropagate : P → P.

Definition replay_flush (r : flush_record) (p : P) : option P :=
  p' ← for_each (λ ib : Z * tbatch, process_tbatch ib.2) (fr_consumed r) p;
  Some (backpropagate p').

Definition replay_flushes (rs : list flush_record) (p : P) : option P :=
  for_each replay_flush rs p.
End Replaying.

(** The interactions of the batches a flush processed, batch by batch. *)
Definition flush_interactionids (r : flush_record) : list nat :=
  mjoin ((λ ib : Z * tbatch, tb_interactionids ib.2) <$> fr_consumed r).

(** The embedding tables with which the first epoch of [example_jodie] starts. *)
Definition example_jodie_start : train_data unit unit unit :=
  epoch_begin tt example_data (initial_train_data (λ _, tt) (λ _, tt) tt example_data tt).

(** ** Windows and the batches made of them *)

(** The interactions held by a dictionary under its keys [0 .. len-1]. *)
Definition tbatches_interactionids (cur : gmap Z tbatch) : list nat :=
  mjoin ((λ ib : Z * tbatch, tb_interactionids ib.2) <$> tbatches_in_range cur).

(** The batches the flush processed hold the interactions of its window,
    each of them once. *)
Definition flush_covers (r : flush_record) : Prop :=
  flush_interactionids r ≡ₚ window_indices (fr_window r).

(** The first epoch under a library that starts every window from new
    tables, when [k] interactions have been read: the tables hold the
    interactions read since the last flush, each of them once. *)
Definition covers_inv {P : Type} (k : nat) (st : loop_state P) : Prop :=
  contiguous (lib st)
  ∧ (window_first st ≤ k)%nat
  ∧ tbatches_interactionids (current_tbatches (lib st))
      ≡ₚ seq (window_first st) (k - window_first st)
  ∧ Forall flush_covers (flushed st).

(** Every batch of every cached dictionary satisfies [Q]. *)
Definition cache_all (Q : tbatch → Prop) (cache : gmap Qc (gmap Z tbatch)) : Prop :=
  ∀ ts cur, cache !! ts = Some cur → all_tbatches Q cur.

(** The first epoch under a library that starts every window from new
    tables: every batch of the open window, of the cache and of the flushes
    logged satisfies [Q]. *)
Definition shapes_inv {P : Type} (Q : tbatch → Prop) (st : loop_state P) : Prop :=
  contiguous (lib st)
  ∧ all_tbatches Q (current_tbatches (lib st))
  ∧ cache_keyed (cached_tbatches st)
  ∧ cache_all Q (cached_tbatches st)
  ∧ Forall (λ r, all_tbatches Q (fr_accumulated r)) (flushed st).

(** The batch holds an interaction, and its seven lists have one length. *)
Definition filled (b : tbatch) : Prop := aligned b ∧ tb_interactionids b ≠ [].

(** ** The scheduler is greedy *)

(** Entry [a'] of the log keeps entry [a] out of the batch before its own:
    it is an earlier interaction of the same actor or the same target, in
    that batch, and no flush lies between the two. *)
Definition blocked_by (flushes : list flush_record) (a' a : assigned) : Prop :=
  (as_index a' < as_index a)%nat
  ∧ as_tbatch a' = as_tbatch a - 1
  ∧ (as_user a' = as_user a ∨ as_item a' = as_item a)
  ∧ ∀ r, r ∈ flushes → ¬ (as_index a' ≤ closing_index (fr_window r) < as_index a)%nat.

(** The batch of [a] is the first of its window, or [a] is kept out of the
    batch before. *)
Definition earliest (log : list assigned) (flushes : list flush_record) (a : assigned)
    : Prop :=
  0 ≤ as_tbatch a
  ∧ (0 < as_tbatch a → ∃ a', a' ∈ log ∧ blocked_by flushes a' a).

(** The first epoch under a library that starts every window from new
    tables, when [k] interactions have been read: every counter stored is
    the batch of an interaction of the open window. *)
Definition earliest_inv {P : Type} (k : nat) (st : loop_state P) : Prop :=
  contiguous (lib st)
  ∧ (window_first st ≤ k)%nat
  ∧ (∀ u c, tbatchid_user (lib st) !! u = Some c →
       ∃ a', a' ∈ assignment st ∧ as_user a' = u ∧ as_tbatch a' = c
             ∧ (window_first st ≤ as_index a' < k)%nat)
  ∧ (∀ i c, tbatchid_item (lib st) !! i = Some c →
       ∃ a', a' ∈ assignment st ∧ as_item a' = i ∧ as_tbatch a' = c
             ∧ (window_first st ≤ as_index a' < k)%nat)
  ∧ Forall (λ r, (closing_index (fr_window r) < window_first st)%nat) (flushed st)
  ∧ Forall (λ a, (as_index a < k)%nat ∧ earliest (assignment st) (flushed st) a)
      (assignment st).

(** Two interactions of one actor at one time, the epoch that schedules
    them, and the entry its log has for the second. *)
Definition example_conflict : list interaction :=
  [example_interaction 0 0 5; example_interaction 0 1 5].

Definition example_conflict_epoch : loop_state unit :=
  default (epoch_init fresh_lib empty_tbatches ∅ tt)
    (schedule_only fresh_lib 0 true example_conflict empty_tbatches ∅).

Definition example_conflict_entry : assigned :=
  {| as_index := 1; as_user := 0; as_item := 1; as_tbatch := 1 |}.

(** ** Rows of the trajectories *)

(** From [td] to [td'] the rows [ids] of both trajectories have been
    written, and no others. *)
Definition rows_added {emb model loss : Type} (ids : list nat)
    (td td' : train_data emb model loss) : Prop :=
  ∀ j,
    (written (user_embeddings_timeseries td') !! j = Some true
     ↔ written (user_embeddings_timeseries td) !! j = Some true ∨ j ∈ ids)
    ∧ (written (item_embeddings_timeseries td') !! j = Some true
       ↔ written (item_embeddings_timeseries td) !! j = Some true ∨ j ∈ ids).

(** ** Interactions that depend on one another *)

(** Two interactions of one actor, or with one target. *)
Definition shares (x1 x2 : interaction) : Prop :=
  userid x1 = userid x2 ∨ itemid x1 = itemid x2.

(** Interaction [j1] is in a batch of the dictionary with a smaller id than
    a batch that holds [j2]. *)
Definition batch_before (cur : gmap Z tbatch) (j1 j2 : nat) : Prop :=
  ∃ id1 id2 b1 b2,
    cur !! id1 = Some b1 ∧ cur !! id2 = Some b2
    ∧ j1 ∈ tb_interactionids b1 ∧ j2 ∈ tb_interactionids b2 ∧ id1 < id2.

(** Of two interactions with indices in [lo .. hi-1] that share an actor or a
    target, the earlier one is in a batch with a smaller id. *)
Definition dependencies_ordered (xs : list interaction) (lo hi : nat)
    (cur : gmap Z tbatch) : Prop :=
  ∀ j1 j2 x1 x2,
    (lo ≤ j1 < j2)%nat → (j2 < hi)%nat →
    xs !! j1 = Some x1 → xs !! j2 = Some x2 → shares x1 x2 →
    batch_before cur j1 j2.

Definition flush_ordered (xs : list interaction) (r : flush_record) : Prop :=
  dependencies_ordered xs (opening_index (fr_window r)) (S (closing_index (fr_window r)))
    (fr_accumulated r).

(** Interaction [j] is in a batch whose id the counters of its actor and of
    its target have reached. *)
Definition placed (L : Lib) (t : tbatches) (j : nat) (x : interaction) : Prop :=
  ∃ id b,
    current_tbatches t !! id = Some b ∧ j ∈ tb_interactionids b
    ∧ id ≤ tbatchid_get L (tbatchid_user t) (userid x)
    ∧ id ≤ tbatchid_get L (tbatchid_item t) (itemid x).

(** The first epoch when [k] interactions have been read. *)
Definition dependencies_inv {P : Type} (L : Lib) (xs : list interaction) (k : nat)
    (st : loop_state P) : Prop :=
  (window_first st ≤ k)%nat
  ∧ (∀ j x, (window_first st ≤ j < k)%nat → xs !! j = Some x → placed L (lib st) j x)
  ∧ dependencies_ordered xs (window_first st) k (current_tbatches (lib st))
  ∧ Forall (flush_ordered xs) (flushed st).

(** Three interactions, each sharing an actor or a target with the next,
    the last of them ten time units after the others; two epochs over them
    with a span of five, and the one flush of an epoch. *)
Definition example_chain : list interaction :=
  [example_interaction 0 0 0; example_interaction 0 1 0; example_interaction 1 1 10].

Definition example_chain_run : run_state unit :=
  default (empty_run tt)
    (schedule_only_run fresh_lib (Qc_of_Z 5) 2 example_chain empty_tbatches).

Definition example_chain_epoch (k : nat) : loop_state unit :=
  default (epoch_init fresh_lib empty_tbatches ∅ tt) (rs_epochs example_chain_run !! k).

Definition example_chain_flush (k : nat) : flush_record :=
  default empty_flush (flushed (example_chain_epoch k) !! 0%nat).


(** ** Well-formed streams and tables *)



(** Every row of the two embedding tables is the initial embedding of the
    model. *)
Definition uniform {emb model loss : Type} (initial_user_embedding
    initial_item_embedding : model → emb) (d : network_data)
    (td : train_data emb model loss) : Prop :=
  user_embeddings td = replicate (num_users d) (initial_user_embedding (jodie_model td))
  ∧ item_embeddings td = replicate (num_items d) (initial_item_embedding (jodie_model td)).

(** ** Tactics *)

(** Splits the first [x ← o; ...] of a hypothesis [... = Some _]. *)
Ltac bind_inv H E :=
  match type of H with
  | mbind _ ?o = Some _ => destruct o eqn:E; [simpl in H|discriminate H]
  end.
(** * Properties *)

(** ** The class weight *)

Lemma Qc_of_Z_nonneg (n : Z) : 0 ≤ n → (0 ≤ Qc_of_Z n)%Qc.
Proof.
  intros Hn. unfold Qcle, Qc_of_Z. simpl. unfold Qle. simpl. lia.
Qed.

Lemma Qc_one_plus_pos (q : Qc) : (0 ≤ q)%Qc → (0 < 1 + q)%Qc.
Proof.
  intros Hq. apply Qclt_le_trans with (y := 1%Qc); [done|].
  rewrite <- (Qcplus_0_r 1) at 1. by apply Qcplus_le_mono_l.
Qed.

Lemma sum_labels_positives (ys : list Z) :
  Forall (λ y, y = 0 ∨ y = 1) ys → sum_labels ys = Z.of_nat (positives ys).
Proof.
  unfold positives. induction 1 as [|y ys [->| ->] _ IH]; [done| |].
  - rewrite filter_cons_False by done. simpl. lia.
  - rewrite filter_cons_True by done. simpl sum_labels. simpl length. lia.
Qed.

(** C7, as the code has it: for labels that are 0 or 1, the weight of the
    positive class is the number of labels over one plus the number of
    positive labels; the one keeps the denominator positive, so the weight is
    computed for every stream, one without positive labels included. *)
Theorem true_labels_ratio_guarded (ys : list Z) :
  Forall (λ y, y = 0 ∨ y = 1) ys →
  true_labels_ratio ys
    = Some (Qc_of_nat (length ys) / (1 + Qc_of_nat (positives ys)))%Qc
  ∧ (0 < 1 + Qc_of_nat (positives ys))%Qc.
Proof.
  intros Hys.
  assert (0 < 1 + Qc_of_nat (positives ys))%Qc as Hpos.
  { apply Qc_one_plus_pos, Qc_of_Z_nonneg. lia. }
  split; [|done]. unfold true_labels_ratio.
  rewrite (sum_labels_positives _ Hys). fold (Qc_of_nat (positives ys)).
  case_decide as Hden; [|done].
  rewrite Hden in Hpos. by destruct (Qclt_not_eq _ _ Hpos).
Qed.

Lemma true_labels_ratio_guarded_witness :
  true_labels_ratio (replicate 1000 0%Z)
    = Some (Qc_of_nat (length (replicate 1000 0%Z))
            / (1 + Qc_of_nat (positives (replicate 1000 0%Z))))%Qc
  ∧ (0 < 1 + Qc_of_nat (positives (replicate 1000 0%Z)))%Qc.
Proof.
  apply (true_labels_ratio_guarded (replicate 1000 0%Z)).
  apply Forall_replicate. by left.
Defined.

(** C7 fails as stated: with the labels 1, 0 the ratio of all labels to
    positive labels is 2, and the weight computed is 1. *)
Lemma true_labels_ratio_not_all_to_positive :
  true_labels_ratio [1; 0] ≠ Some (all_to_positive_ratio [1; 0]).
Proof.
  intros H. apply (f_equal (fmap (λ q : Qc, Qnum q))) in H. vm_compute in H. discriminate H.
Qed.

(** ** The check of the arguments *)

(** C9: with a train proportion above 0.8 the script exits with a message
    and nothing has been loaded; with a train proportion of 0.8 it goes on to
    load the network. *)
Theorem train_proportion_check (load_network : args → network_data) (a : args) :
  ((Qc_0_8 < train_proportion a)%Qc →
     ∃ msg, startup load_network a = ([], SysExit msg))
  ∧ (train_proportion a = Qc_0_8 →
     startup load_network a = ([EvLoadNetwork (datapath a)], Loaded (load_network a))).
Proof.
  unfold startup. split.
  - intros Hgt. rewrite decide_True by done. by eexists.
  - intros ->. rewrite decide_False; [done|]. apply Qcle_not_lt, Qcle_refl.
Qed.

(** ** Loops *)

Lemma for_each_invariant {A S : Type} (body : A → S → option S) (I : S → Prop)
    (xs : list A) (s s' : S) :
  (∀ x t t', x ∈ xs → I t → body x t = Some t' → I t') →
  I s → for_each body xs s = Some s' → I s'.
Proof.
  revert s. induction xs as [|x xs IH]; intros s Hstep Hs Hrun; simpl in Hrun.
  - by injection Hrun as <-.
  - destruct (body x s) as [t|] eqn:Hx; [simpl in Hrun|done].
    apply (IH t); [|by eapply Hstep; [left|..]|done].
    intros y u u' Hy. apply Hstep. by right.
Qed.

Lemma for_each_total {A S : Type} (body : A → S → option S) (xs : list A) (s : S) :
  (∀ x t, is_Some (body x t)) → is_Some (for_each body xs s).
Proof.
  intros Hbody. revert s. induction xs as [|x xs IH]; intros s; simpl; [by eexists|].
  destruct (Hbody x s) as [t ->]. simpl. apply IH.
Qed.

Lemma for_each_total_invariant {A S : Type} (body : A → S → option S) (I : S → Prop)
    (xs : list A) (s : S) :
  (∀ x t, I t → ∃ t', body x t = Some t' ∧ I t') →
  I s → ∃ s', for_each body xs s = Some s' ∧ I s'.
Proof.
  intros Hbody. revert s. induction xs as [|x xs IH]; intros s Hs; simpl.
  - by exists s.
  - destruct (Hbody x s Hs) as (t & -> & Ht). simpl. by apply IH.
Qed.


Lemma enumerate_from_lookup {A : Type} (k : nat) (xs : list A) (j : nat) (x : A) :
  (j, x) ∈ enumerate_from k xs ↔ (k ≤ j)%nat ∧ xs !! (j - k)%nat = Some x.
Proof.
  revert k. induction xs as [|y xs IH]; intros k; simpl.
  - rewrite elem_of_nil. by split; [|intros [_ ?]].
  - rewrite elem_of_cons, IH. split.
    + intros [[= -> ->]|[Hk Hx]].
      * split; [lia|]. by rewrite Nat.sub_diag.
      * split; [lia|]. replace (j - k)%nat with (S (j - S k)) by lia. done.
    + intros [Hk Hx]. destruct (decide (j = k)) as [->|Hne].
      * left. rewrite Nat.sub_diag in Hx. by simplify_eq/=.
      * right. split; [lia|]. replace (j - k)%nat with (S (j - S k)) in Hx by lia. done.
Qed.

(** ** The windows closed by the loop *)

Section LoopProperties.
Context {P : Type}.
Variable L : Lib.
Variable process_tbatch : tbatch → P → option P.
Variable backpropagate : P → P.
Variable span : Qc.

Lemma schedule_timing (j : nat) (x : interaction) (st : loop_state P) :
  tbatch_start_time (schedule L j x st) = tbatch_start_time st
  ∧ window_first (schedule L j x st) = window_first st
  ∧ flushed (schedule L j x st) = flushed st
  ∧ cached_tbatches (schedule L j x st) = cached_tbatches st
  ∧ payload (schedule L j x st) = payload st.
Proof. unfold schedule. by destruct (insert_interaction _ _ _ _). Qed.

(** What a flush that does not raise has done. *)
Lemma flush_Some (first : bool) (j : nat) (ts start : Qc) (st st' : loop_state P) :
  flush L process_tbatch backpropagate first j ts start st = Some st' →
  ∃ cur bs,
    (if first then Some (current_tbatches (lib st)) else cached_tbatches st !! ts) = Some cur
    ∧ for_each (tbatch_step process_tbatch) (seq 0 (size cur))
        {| bl_current := cur; bl_count := total_interaction_count st;
           bl_payload := payload st; bl_consumed := [] |} = Some bs
    ∧ lib st' = (if first
                 then reinitialize_tbatches L (set_current (bl_current bs) (lib st))
                 else set_current (bl_current bs) (lib st))
    ∧ cached_tbatches st' = <[ts := bl_current bs]> (cached_tbatches st)
    ∧ tbatch_start_time st' = Some ts
    ∧ payload st' = backpropagate (bl_payload bs)
    ∧ window_first st' = S j
    ∧ assignment st' = assignment st
    ∧ flushed st' = flushed st ++
        [{| fr_window := {| opening_index := window_first st; closing_index := j;
                            window_start_time := start; closing_timestamp := ts |};
            fr_accumulated := cur; fr_consumed := bl_consumed bs |}].
Proof.
  unfold flush. intros Hflush.
  set (src := if first then Some (current_tbatches (lib st)) else cached_tbatches st !! ts)
    in *.
  destruct src as [cur|]; [simpl in Hflush|done].
  destruct (for_each _ _ _) as [bs|] eqn:Hloop; [simpl in Hflush|done].
  injection Hflush as <-. exists cur, bs. by repeat split.
Qed.

(** The two ways through one iteration of the interaction loop. *)
Lemma interaction_step_Some (first : bool) (j : nat) (x : interaction)
    (st st' : loop_state P) :
  interaction_step L process_tbatch backpropagate span first (j, x) st = Some st' →
  let st0 := if first then schedule L j x st else st in
  let start := default (timestamp x) (tbatch_start_time st) in
  (¬ (span < timestamp x - start)%Qc ∧ st' = set_start_time start st0)
  ∨ ((span < timestamp x - start)%Qc
     ∧ flush L process_tbatch backpropagate first j (timestamp x) start st0 = Some st').
Proof.
  intros Hstep st0 start. unfold interaction_step in Hstep. simpl in Hstep.
  assert (tbatch_start_time st0 = tbatch_start_time st) as Hs.
  { unfold st0. destruct first; [|done]. apply schedule_timing. }
  fold st0 in Hstep. rewrite Hs in Hstep. fold start in Hstep.
  case_decide; [right|left]; [done|]. by injection Hstep as <-.
Qed.

Lemma scheduled_timing (first : bool) (j : nat) (x : interaction) (st : loop_state P) :
  let st0 := if first then schedule L j x st else st in
  tbatch_start_time st0 = tbatch_start_time st
  ∧ window_first st0 = window_first st
  ∧ flushed st0 = flushed st
  ∧ cached_tbatches st0 = cached_tbatches st
  ∧ payload st0 = payload st.
Proof. destruct first; [apply schedule_timing|done]. Qed.

(** The windows of a run are those of the span check alone. *)
Lemma flushed_windows (first : bool) (xs : list (nat * interaction)) (st st' : loop_state P) :
  for_each (interaction_step L process_tbatch backpropagate span first) xs st = Some st' →
  fr_window <$> flushed st'
    = (fr_window <$> flushed st)
        ++ flush_windows span xs (tbatch_start_time st) (window_first st).
Proof.
  revert st. induction xs as [|[j x] xs IH]; intros st Hrun; simpl in Hrun.
  - injection Hrun as <-. simpl. by rewrite app_nil_r.
  - destruct (interaction_step L process_tbatch backpropagate span first (j, x) st) as [st1|] eqn:Hstep; [simpl in Hrun|done].
    rewrite (IH _ Hrun). clear IH Hrun. simpl.
    destruct (scheduled_timing first j x st) as (Hs & Hw & Hf & _).
    apply interaction_step_Some in Hstep as [[Hspan ->]|[Hspan Hflush]].
    + rewrite decide_False by done. simpl. by rewrite Hf, Hw.
    + rewrite decide_True by done.
      apply flush_Some in Hflush as (cur & bs & _ & _ & _ & _ & -> & _ & -> & _ & ->).
      rewrite fmap_app, <- (assoc_L (++)). simpl. by rewrite Hw, Hf.
Qed.
End LoopProperties.

Section WindowProperties.
Variable span : Qc.

Lemma flush_windows_spans (l1 l2 : list interaction) (s : option Qc) (f : nat) :
  (f ≤ length l1)%nat →
  (∀ j x, (f ≤ j < length l1)%nat → l1 !! j = Some x →
          ∃ t, s = Some t ∧ (timestamp x - t ≤ span)%Qc) →
  Forall (window_spans span (l1 ++ l2))
    (flush_windows span (enumerate_from (length l1) l2) s f).
Proof.
  revert l1 s f. induction l2 as [|x l2 IH]; intros l1 s f Hf Hopen; simpl; [done|].
  assert (length (l1 ++ [x]) = S (length l1)) as Hlen
    by (rewrite length_app; simpl; lia).
  assert ((l1 ++ [x]) ++ l2 = l1 ++ x :: l2) as Happ by by rewrite <- (assoc_L (++)).
  case_decide as Hspan.
  - constructor.
    + split; [done|]. split; simpl.
      * exists x. split; [|done]. by rewrite list_lookup_middle.
      * intros j y Hj Hy. rewrite lookup_app_l in Hy by lia.
        destruct (Hopen j y Hj Hy) as (t & -> & Hle). done.
    + rewrite <- Happ, <- Hlen. apply IH; [lia|]. intros j y Hj. lia.
  - rewrite <- Happ, <- Hlen. apply IH; [lia|].
    intros j y Hj Hy. exists (default (timestamp x) s). split; [done|].
    destruct (decide (j = length l1)) as [->|Hne].
    + rewrite list_lookup_middle in Hy by done. injection Hy as <-.
      by apply Qcnot_lt_le.
    + rewrite lookup_app_l in Hy by lia.
      destruct (Hopen j y ltac:(lia) Hy) as (t & -> & Hle). done.
Qed.

Lemma chained_start (l : list interaction) (f : nat) (x : interaction) (ws : list window) :
  l !! f = Some x → chained l f (Some (timestamp x)) ws → chained l f None ws.
Proof. intros Hx. destruct ws as [|w ws]; simpl; [done|]. by rewrite Hx. Qed.

Lemma flush_windows_chained (l1 l2 : list interaction) (s : option Qc) (f : nat) :
  (f ≤ length l1)%nat →
  (s = None → f = length l1) →
  chained (l1 ++ l2) f s (flush_windows span (enumerate_from (length l1) l2) s f).
Proof.
  revert l1 s f. induction l2 as [|x l2 IH]; intros l1 s f Hf Hnone; simpl; [done|].
  assert (length (l1 ++ [x]) = S (length l1)) as Hlen
    by (rewrite length_app; simpl; lia).
  assert ((l1 ++ [x]) ++ l2 = l1 ++ x :: l2) as Happ by by rewrite <- (assoc_L (++)).
  case_decide as Hspan.
  - simpl. split; [done|]. split.
    + destruct s as [t|]; [done|]. rewrite (Hnone eq_refl), list_lookup_middle; done.
    + rewrite <- Happ, <- Hlen. apply IH; [lia|done].
  - rewrite <- Happ, <- Hlen.
    destruct s as [t|]; simpl.
    + apply IH; [lia|done].
    + rewrite (Hnone eq_refl).
      (* the clock was started at [x], the first interaction of the window *)
      eapply chained_start; [|apply IH; [lia|done]].
      rewrite Happ. by apply list_lookup_middle.
Qed.
End WindowProperties.

(** ** Windows of an epoch *)

(** C5, as the code has it: a window is closed by the first interaction that
    is more than the span after the window's start time, and that
    interaction belongs to the window; all interactions before it are within
    the span of the start time.  The start time is the first timestamp for
    the first window and the closing timestamp of the previous window for
    every later one.  The span is (last timestamp - first timestamp) / 500. *)
Theorem windows_within_span_until_closing {P : Type} (L : Lib)
    (process_tbatch : tbatch → P → option P) (backpropagate : P → P)
    (a : args) (d : network_data) (first : bool)
    (t : tbatches) (cache : gmap Qc (gmap Z tbatch)) (p : P) (span : Qc) (st : loop_state P) :
  tbatch_timespan d = Some span →
  train_epoch L process_tbatch backpropagate span first (training_prefix a d) t cache p
    = Some st →
  (∃ t0 tl, head (timestamp_sequence d) = Some t0 ∧ last (timestamp_sequence d) = Some tl
            ∧ span = ((tl - t0) / Qc_500)%Qc)
  ∧ Forall (window_spans span (training_prefix a d)) (fr_window <$> flushed st)
  ∧ chained (training_prefix a d) 0 None (fr_window <$> flushed st).
Proof.
  intros Hspan Hrun. split.
  - unfold tbatch_timespan in Hspan.
    destruct (head _) as [t0|]; [simpl in Hspan|done].
    destruct (last _) as [tl|]; [simpl in Hspan|done].
    injection Hspan as <-. by exists t0, tl.
  - apply flushed_windows in Hrun. simpl in Hrun. rewrite Hrun. split.
    + apply (flush_windows_spans span [] (training_prefix a d) None 0%nat); [done|].
      simpl. intros j x Hj. lia.
    + by apply (flush_windows_chained span [] (training_prefix a d) None 0%nat).
Qed.

Lemma windows_within_span_until_closing_witness :
  Forall (window_spans example_span (training_prefix example_args example_data))
    (fr_window <$> flushed (example_epoch fresh_lib 0))
  ∧ chained (training_prefix example_args example_data) 0 None
      (fr_window <$> flushed (example_epoch fresh_lib 0)).
Proof.
  apply (windows_within_span_until_closing fresh_lib (λ _ _, Some tt) id
           example_args example_data true empty_tbatches ∅ tt example_span
           (example_epoch fresh_lib 0)).
  - reflexivity.
  - vm_compute. reflexivity.
Defined.

(** C5 fails as stated: the first of the two windows flushed over the
    example stream holds the interactions 0 and 1, whose timestamps are 1000
    apart, with a span of 2002/500; it is followed by another flushed window
    and by a trailing interaction. *)
Lemma first_window_exceeds_span :
  tbatch_timespan example_data = Some example_span
  ∧ schedule_only fresh_lib example_span true (training_prefix example_args example_data)
      empty_tbatches ∅ = Some (example_epoch fresh_lib 0)
  ∧ length (flushed (example_epoch fresh_lib 0)) = 2%nat
  ∧ (window_first (example_epoch fresh_lib 0)
     < length (training_prefix example_args example_data))%nat
  ∧ opening_index (fr_window (example_flush fresh_lib 0 0)) = 0%nat
  ∧ closing_index (fr_window (example_flush fresh_lib 0 0)) = 1%nat
  ∧ ∃ x_first x_last,
      interactions example_data !! 0%nat = Some x_first
      ∧ interactions example_data !! 1%nat = Some x_last
      ∧ (example_span < timestamp x_last - timestamp x_first)%Qc.
Proof.
  split; [reflexivity|]. split; [vm_compute; reflexivity|].
  split; [vm_compute; reflexivity|]. split; [vm_compute; lia|].
  split; [vm_compute; reflexivity|]. split; [vm_compute; reflexivity|].
  eexists _, _. split; [reflexivity|]. split; [reflexivity|]. by vm_compute.
Qed.

(** ** The batch loop of a flush *)

Lemma tbatch_get_touch (cur : gmap Z tbatch) (i j : Z) :
  tbatch_get (tbatch_touch cur i) j = tbatch_get cur j.
Proof.
  unfold tbatch_touch, tbatch_get at 1. destruct (decide (i = j)) as [->|Hne].
  - by rewrite lookup_insert_eq.
  - by rewrite lookup_insert_ne.
Qed.

Lemma tbatch_touch_present (cur : gmap Z tbatch) (i : Z) :
  is_Some (cur !! i) → tbatch_touch cur i = cur.
Proof.
  intros [b Hb]. unfold tbatch_touch, tbatch_get. rewrite Hb. simpl. by apply insert_id.
Qed.

Lemma all_tbatches_touch (Q : tbatch → Prop) (cur : gmap Z tbatch) (i : Z) :
  Q empty_tbatch → all_tbatches Q cur → all_tbatches Q (tbatch_touch cur i).
Proof.
  intros Hempty Hall id b. unfold tbatch_touch, tbatch_get.
  destruct (decide (i = id)) as [->|Hne].
  - rewrite lookup_insert_eq. intros [= <-].
    destruct (cur !! id) as [b'|] eqn:Hid; simpl; [by eapply Hall|done].
  - rewrite lookup_insert_ne by done. apply Hall.
Qed.

Lemma all_tbatches_get (Q : tbatch → Prop) (cur : gmap Z tbatch) (i : Z) :
  Q empty_tbatch → all_tbatches Q cur → Q (tbatch_get cur i).
Proof.
  intros Hempty Hall. unfold tbatch_get.
  destruct (cur !! i) as [b|] eqn:Hi; simpl; [by eapply Hall|done].
Qed.

Section BatchLoop.
Context {P : Type}.
Variable process_tbatch : tbatch → P → option P.

Lemma tbatch_step_Some (i : nat) (bs bs' : batch_loop_state P) :
  (tbatch_step process_tbatch) i bs = Some bs' →
  bl_current bs' = tbatch_touch (bl_current bs) (Z.of_nat i)
  ∧ bl_consumed bs' = bl_consumed bs ++ [(Z.of_nat i, tbatch_get (bl_current bs) (Z.of_nat i))]
  ∧ process_tbatch (tbatch_get (bl_current bs) (Z.of_nat i)) (bl_payload bs)
      = Some (bl_payload bs').
Proof.
  unfold tbatch_step. intros Hstep.
  destruct (process_tbatch _ _) as [p'|]; [simpl in Hstep|done].
  by injection Hstep as <-.
Qed.

(** The loop reads the keys it is given, in their order, whatever the
    dictionary holds. *)
Lemma tbatch_loop_consumed (ks : list nat) (bs bs' : batch_loop_state P) :
  for_each (tbatch_step process_tbatch) ks bs = Some bs' →
  bl_consumed bs'
    = bl_consumed bs
        ++ ((λ i : nat, (Z.of_nat i, tbatch_get (bl_current bs) (Z.of_nat i))) <$> ks).
Proof.
  revert bs. induction ks as [|i ks IH]; intros bs Hrun; simpl in Hrun.
  - injection Hrun as <-. by rewrite app_nil_r.
  - destruct ((tbatch_step process_tbatch) i bs) as [bs1|] eqn:Hstep; [simpl in Hrun|done].
    rewrite (IH _ Hrun). apply tbatch_step_Some in Hstep as (-> & -> & _).
    rewrite <- (assoc_L (++)). simpl. do 2 f_equal.
    apply list_fmap_ext. intros _ k _. by rewrite tbatch_get_touch.
Qed.

(** If the keys are all present, the dictionary is left as it was. *)
Lemma tbatch_loop_current (ks : list nat) (bs bs' : batch_loop_state P) :
  (∀ i, i ∈ ks → is_Some (bl_current bs !! Z.of_nat i)) →
  for_each (tbatch_step process_tbatch) ks bs = Some bs' → bl_current bs' = bl_current bs.
Proof.
  revert bs. induction ks as [|i ks IH]; intros bs Hkeys Hrun; simpl in Hrun.
  - by injection Hrun as <-.
  - destruct ((tbatch_step process_tbatch) i bs) as [bs1|] eqn:Hstep; [simpl in Hrun|done].
    apply tbatch_step_Some in Hstep as (Hcur & _ & _).
    rewrite tbatch_touch_present in Hcur by (apply Hkeys; left).
    rewrite <- Hcur. apply IH; [|done]. intros k Hk. rewrite Hcur. apply Hkeys. by right.
Qed.

Lemma tbatch_loop_all (Q : tbatch → Prop) (ks : list nat) (bs bs' : batch_loop_state P) :
  Q empty_tbatch → all_tbatches Q (bl_current bs) →
  for_each (tbatch_step process_tbatch) ks bs = Some bs' → all_tbatches Q (bl_current bs').
Proof.
  intros Hempty Hall Hrun.
  apply (for_each_invariant (tbatch_step process_tbatch) (λ s, all_tbatches Q (bl_current s)) ks bs bs');
    [|done|done].
  intros i s s' _ Hs Hstep. apply tbatch_step_Some in Hstep as (-> & _ & _).
  by apply all_tbatches_touch.
Qed.

Lemma tbatch_loop_total (ks : list nat) (bs : batch_loop_state P) :
  (∀ b p, is_Some (process_tbatch b p)) → is_Some (for_each (tbatch_step process_tbatch) ks bs).
Proof.
  intros Htotal. apply for_each_total. intros i s. unfold tbatch_step.
  destruct (Htotal (tbatch_get (bl_current s) (Z.of_nat i)) (bl_payload s)) as [p' ->].
  by eexists.
Qed.
End BatchLoop.

(** ** Conflict-free batches *)

Lemma tbatchid_get_insert (L : Lib) (m : gmap nat Z) (k k' : nat) (id : Z) :
  tbatchid_get L (<[k := id]> m) k' = if decide (k = k') then id else tbatchid_get L m k'.
Proof.
  unfold tbatchid_get. case_decide as Hk.
  - subst. by rewrite lookup_insert_eq.
  - by rewrite lookup_insert_ne.
Qed.

Lemma conflict_free_empty : conflict_free empty_tbatch.
Proof. split; apply NoDup_nil_2. Qed.

Lemma of_stream_empty (xs : list interaction) : of_stream xs empty_tbatch.
Proof. repeat split; constructor. Qed.

Section Scheduler.
Variable L : Lib.
Variable xs : list interaction.

Lemma good_empty : good xs empty_tbatch.
Proof. split; [apply conflict_free_empty|apply of_stream_empty]. Qed.

Lemma scheduled_get (t : tbatches) (id : Z) :
  sched_inv L xs t → scheduled L xs t id (tbatch_get (current_tbatches t) id).
Proof.
  intros Hinv. unfold tbatch_get.
  destruct (current_tbatches t !! id) as [b|] eqn:Hb; simpl; [by apply Hinv|].
  split; [apply conflict_free_empty|]. split; [apply of_stream_empty|].
  split; intros k Hk; by apply elem_of_nil in Hk.
Qed.

Lemma sched_inv_good (t : tbatches) :
  sched_inv L xs t → all_tbatches (good xs) (current_tbatches t).
Proof. intros Hinv id b Hb. destruct (Hinv id b Hb) as (? & ? & _). by split. Qed.

(** Lines 169-179 keep the invariant. *)
Lemma insert_interaction_inv (j : nat) (x : interaction) (t : tbatches) :
  xs !! j = Some x → sched_inv L xs t → sched_inv L xs (insert_interaction L j x t).2.
Proof.
  intros Hx Hinv. unfold insert_interaction. simpl.
  set (cu := tbatchid_get L (tbatchid_user t) (userid x)).
  set (ci := tbatchid_get L (tbatchid_item t) (itemid x)).
  set (new := Z.max cu ci + 1).
  intros id b. simpl. destruct (decide (new = id)) as [<-|Hne].
  - rewrite lookup_insert_eq. intros [= <-].
    destruct (scheduled_get t new Hinv) as ((Hu & Hi) & (Hsu & Hsi & Hsp) & Hbu & Hbi).
    set (b0 := tbatch_get (current_tbatches t) new) in *.
    split; [split|split; [split; [|split]|split]]; simpl.
    + apply NoDup_app. split; [done|]. split; [|apply NoDup_singleton].
      intros u Hin ->%list_elem_of_singleton. specialize (Hbu _ Hin). fold cu in Hbu. lia.
    + apply NoDup_app. split; [done|]. split; [|apply NoDup_singleton].
      intros i Hin ->%list_elem_of_singleton. specialize (Hbi _ Hin). fold ci in Hbi. lia.
    + apply Forall2_app; [done|]. constructor; [|done]. by rewrite Hx.
    + apply Forall2_app; [done|]. constructor; [|done]. by rewrite Hx.
    + apply Forall2_app; [done|]. constructor; [|done]. by rewrite Hx.
    + intros u Hin. rewrite tbatchid_get_insert. case_decide; [done|].
      apply elem_of_app in Hin as [Hin|Hin%list_elem_of_singleton]; [by apply Hbu|done].
    + intros i Hin. rewrite tbatchid_get_insert. case_decide; [done|].
      apply elem_of_app in Hin as [Hin|Hin%list_elem_of_singleton]; [by apply Hbi|done].
  - rewrite lookup_insert_ne by done. intros Hb.
    destruct (Hinv id b Hb) as (Hcf & Hos & Hbu & Hbi).
    split; [done|]. split; [done|]. split; simpl.
    + intros u Hin. rewrite tbatchid_get_insert. case_decide as Hu; [|by apply Hbu].
      subst u. specialize (Hbu _ Hin). fold cu in Hbu. lia.
    + intros i Hin. rewrite tbatchid_get_insert. case_decide as Hi; [|by apply Hbi].
      subst i. specialize (Hbi _ Hin). fold ci in Hbi. lia.
Qed.
End Scheduler.

Section ConflictFree.
Context {P : Type}.
Variable L : Lib.
Variable process_tbatch : tbatch → P → option P.
Variable backpropagate : P → P.
Variable epoch_begin epoch_end : P → P.
Variable span : Qc.
Variable xs : list interaction.
Hypothesis Hclears : reinit_clears L.

Lemma sched_inv_reinit (t : tbatches) : sched_inv L xs (reinitialize_tbatches L t).
Proof. intros id b. by rewrite Hclears, lookup_empty. Qed.

Lemma cache_good_insert (cache : gmap Qc (gmap Z tbatch)) (ts : Qc) (cur : gmap Z tbatch) :
  cache_good xs cache → all_tbatches (good xs) cur → cache_good xs (<[ts := cur]> cache).
Proof.
  intros Hcache Hcur ts' cur'. destruct (decide (ts = ts')) as [->|Hne].
  - rewrite lookup_insert_eq. by intros [= <-].
  - rewrite lookup_insert_ne by done. apply Hcache.
Qed.

(** A flush of good batches records good batches and caches good batches. *)
Lemma flush_replay_inv (first : bool) (j : nat) (ts start : Qc) (st st' : loop_state P) :
  (first = true → all_tbatches (good xs) (current_tbatches (lib st))) →
  (replay_inv xs) st →
  flush L process_tbatch backpropagate first j ts start st = Some st' →
  (replay_inv xs) st'.
Proof.
  intros Hcur [Hflushed Hcache] Hflush.
  apply flush_Some in Hflush
    as (cur & bs & Hsrc & Hloop & _ & Hc & _ & _ & _ & _ & Hf).
  assert (all_tbatches (good xs) cur) as Hgood.
  { destruct first; [injection Hsrc as <-; by apply Hcur|by eapply Hcache]. }
  split.
  - rewrite Hf. apply Forall_app. split; [done|]. constructor; [|done]. split; [done|].
    simpl. rewrite (tbatch_loop_consumed _ _ _ _ Hloop). simpl.
    apply Forall_fmap, Forall_forall. intros i _. simpl.
    by apply all_tbatches_get; [apply good_empty|].
  - rewrite Hc. apply cache_good_insert; [done|].
    by eapply (tbatch_loop_all process_tbatch); [apply good_empty| |done].
Qed.

Lemma schedule_lib (j : nat) (x : interaction) (st : loop_state P) :
  lib (schedule L j x st) = (insert_interaction L j x (lib st)).2.
Proof. unfold schedule. by destruct (insert_interaction _ _ _ _). Qed.

Lemma first_step_inv (j : nat) (x : interaction) (st st' : loop_state P) :
  xs !! j = Some x → (first_inv L xs) st →
  interaction_step L process_tbatch backpropagate span true (j, x) st = Some st' →
  (first_inv L xs) st'.
Proof.
  intros Hx [Hsched Hreplay] Hstep.
  pose proof (schedule_timing L j x st) as (_ & _ & Hf & Hc & _).
  assert (sched_inv L xs (lib (schedule L j x st))) as Hsched0.
  { rewrite schedule_lib. by apply insert_interaction_inv. }
  assert ((replay_inv xs) (schedule L j x st)) as Hreplay0.
  { destruct Hreplay. split; [by rewrite Hf|by rewrite Hc]. }
  apply interaction_step_Some in Hstep as [[_ ->]|[_ Hflush]]; [done|].
  split.
  - apply flush_Some in Hflush as (cur & bs & _ & _ & -> & _). apply sched_inv_reinit.
  - eapply flush_replay_inv; [|done|done]. intros _. by apply (sched_inv_good L).
Qed.

Lemma later_step_inv (jx : nat * interaction) (st st' : loop_state P) :
  (replay_inv xs) st →
  interaction_step L process_tbatch backpropagate span false jx st = Some st' →
  (replay_inv xs) st'.
Proof.
  destruct jx as [j x]. intros Hreplay Hstep.
  apply interaction_step_Some in Hstep as [[_ ->]|[_ Hflush]]; [done|].
  eapply flush_replay_inv; [|done|done]. intros [=].
Qed.

Lemma epoch_replay_inv (first : bool) (t : tbatches) (cache : gmap Qc (gmap Z tbatch))
    (p : P) (st : loop_state P) :
  cache_good xs cache →
  train_epoch L process_tbatch backpropagate span first xs t cache p = Some st →
  (replay_inv xs) st.
Proof.
  intros Hcache Hrun. unfold train_epoch in Hrun. destruct first.
  - eapply (for_each_invariant _ (first_inv L xs)) in Hrun; [by destruct Hrun| |].
    + intros [j x] s s' Hjx. apply first_step_inv.
      apply enumerate_from_lookup in Hjx as [_ Hjx]. by rewrite Nat.sub_0_r in Hjx.
    + split; [apply sched_inv_reinit|]. by split.
  - eapply (for_each_invariant _ (replay_inv xs)) in Hrun; [done| |by split].
    intros jx s s' _. apply later_step_inv.
Qed.

Lemma train_run_inv (n : nat) (t : tbatches) (p : P) (rs : run_state P) :
  train L process_tbatch backpropagate epoch_begin epoch_end span n xs t p = Some rs →
  (run_inv xs) rs.
Proof.
  unfold train. intros Hrun.
  eapply (for_each_invariant _ (run_inv xs)) in Hrun; [done| |].
  - intros ep s s' _ [Hcache Hepochs] Hstep. unfold epoch_step in Hstep.
    destruct (train_epoch _ _ _ _ _ _ _ _ _) as [st|] eqn:Hepoch; [simpl in Hstep|done].
    injection Hstep as <-. apply epoch_replay_inv in Hepoch; [|done].
    split; simpl; [by destruct Hepoch|]. apply Forall_app. by split; [|constructor].
  - split; simpl; [|done]. intros ts cur. by rewrite lookup_empty.
Qed.
End ConflictFree.

Lemma train_flushed_good {P : Type} (L : Lib)
    (process_tbatch : tbatch → P → option P) (backpropagate epoch_begin epoch_end : P → P)
    (span : Qc) (n : nat) (xs : list interaction) (t : tbatches) (p : P)
    (rs : run_state P) (st : loop_state P) (r : flush_record) (id : Z) (b : tbatch) :
  reinit_clears L →
  train L process_tbatch backpropagate epoch_begin epoch_end span n xs t p = Some rs →
  st ∈ rs_epochs rs → r ∈ flushed st →
  fr_accumulated r !! id = Some b ∨ (id, b) ∈ fr_consumed r →
  good xs b.
Proof.
  intros Hclears Hrun Hst Hr Hb.
  apply (train_run_inv L _ _ _ _ _ xs Hclears) in Hrun as [_ Hepochs].
  rewrite Forall_forall in Hepochs. destruct (Hepochs st Hst) as [Hflushed _].
  rewrite Forall_forall in Hflushed. destruct (Hflushed r Hr) as [Hacc Hcons].
  destruct Hb as [Hb|Hb]; [by eapply Hacc|].
  rewrite Forall_forall in Hcons. apply (Hcons _ Hb).
Qed.

(** C3: whatever [reinitialize_tbatches] does to the counters, as long as it
    empties the per-batch lists: in every epoch, every batch of every flushed
    window -- as accumulated under its batch id and as processed -- holds no
    actor twice and no target twice, its actor and target lists being those of
    its interactions. *)
Theorem tbatches_conflict_free {P : Type} (L : Lib)
    (process_tbatch : tbatch → P → option P) (backpropagate epoch_begin epoch_end : P → P)
    (span : Qc) (n : nat) (xs : list interaction) (t : tbatches) (p : P)
    (rs : run_state P) (st : loop_state P) (r : flush_record) (id : Z) (b : tbatch) :
  reinit_clears L →
  train L process_tbatch backpropagate epoch_begin epoch_end span n xs t p = Some rs →
  st ∈ rs_epochs rs → r ∈ flushed st →
  fr_accumulated r !! id = Some b ∨ (id, b) ∈ fr_consumed r →
  NoDup (tb_user b) ∧ NoDup (tb_item b) ∧ of_stream xs b.
Proof.
  intros Hclears Hrun Hst Hr Hb.
  destruct (train_flushed_good L _ _ _ _ _ _ _ _ _ _ _ _ _ _ Hclears Hrun Hst Hr Hb)
    as [[? ?] ?].
  done.
Qed.

(** ** Batch ids of one entity *)

Lemma StronglySorted_snoc {A : Type} (R : relation A) (l : list A) (x : A) :
  StronglySorted R l → Forall (λ y, R y x) l → StronglySorted R (l ++ [x]).
Proof.
  induction 1 as [|y l Hl IH Hy]; intros Hx; simpl.
  - by repeat constructor.
  - apply Forall_cons in Hx as [Hyx Hx]. constructor; [by apply IH|].
    apply Forall_app. by split; [|repeat constructor].
Qed.

Section BatchIds.
Context {P : Type}.
Variable L : Lib.
Variable process_tbatch : tbatch → P → option P.
Variable backpropagate : P → P.
Variable span : Qc.
Hypothesis Hkeeps : reinit_keeps_ids L.

Lemma schedule_assignment (j : nat) (x : interaction) (st : loop_state P) :
  let id := (insert_interaction L j x (lib st)).1 in
  assignment (schedule L j x st)
    = assignment st
        ++ [{| as_index := j; as_user := userid x; as_item := itemid x; as_tbatch := id |}].
Proof. unfold schedule. by destruct (insert_interaction _ _ _ _). Qed.

Lemma ids_snoc (proj : assigned → nat) (table : gmap nat Z) (log : list assigned)
    (a : assigned) (k : nat) :
  let ids := as_tbatch <$> filter (λ a', proj a' = k) log in
  tbatchid_get L table (proj a) < as_tbatch a →
  StronglySorted Z.lt ids ∧ Forall (λ id, id ≤ tbatchid_get L table k) ids →
  let ids' := as_tbatch <$> filter (λ a', proj a' = k) (log ++ [a]) in
  StronglySorted Z.lt ids'
  ∧ Forall (λ id, id ≤ tbatchid_get L (<[proj a := as_tbatch a]> table) k) ids'.
Proof.
  intros ids Hlt [Hsorted Hle] ids'. unfold ids'. rewrite filter_app, fmap_app. fold ids.
  rewrite tbatchid_get_insert. case_decide as Hk.
  - subst k. rewrite filter_cons_True, filter_nil by done. simpl.
    assert (Forall (λ id, id < as_tbatch a) ids) as Hlts.
    { eapply Forall_impl; [done|]. simpl. intros id Hid. lia. }
    split; [by apply StronglySorted_snoc|].
    apply Forall_app. split; [|by repeat constructor].
    eapply Forall_impl; [exact Hlts|]. simpl. intros id Hid. lia.
  - rewrite filter_cons_False, filter_nil by done. simpl. by rewrite app_nil_r.
Qed.

Lemma schedule_ids_inv (j : nat) (x : interaction) (st : loop_state P) :
  (ids_inv L) st → (ids_inv L) (schedule L j x st).
Proof.
  intros Hinv k. rewrite schedule_assignment, (schedule_lib L). simpl.
  destruct (Hinv k) as [Hu Hi]. split.
  - apply (ids_snoc as_user); [simpl; lia|done].
  - apply (ids_snoc as_item); [simpl; lia|done].
Qed.

Lemma first_step_ids_inv (jx : nat * interaction) (st st' : loop_state P) :
  (ids_inv L) st →
  interaction_step L process_tbatch backpropagate span true jx st = Some st' →
  (ids_inv L) st'.
Proof.
  destruct jx as [j x]. intros Hinv%(schedule_ids_inv j x) Hstep.
  apply interaction_step_Some in Hstep as [[_ ->]|[_ Hflush]]; [done|].
  apply flush_Some in Hflush as (cur & bs & _ & _ & Hlib & _ & _ & _ & _ & Hlog & _).
  intros k. rewrite Hlib, Hlog. destruct (Hkeeps (set_current (bl_current bs)
    (lib (schedule L j x st)))) as [-> ->]. apply Hinv.
Qed.

Lemma assignment_complete (ys : list (nat * interaction)) (st st' : loop_state P) :
  for_each (interaction_step L process_tbatch backpropagate span true) ys st = Some st' →
  (λ a, (as_index a, as_user a, as_item a)) <$> assignment st'
    = ((λ a, (as_index a, as_user a, as_item a)) <$> assignment st)
        ++ ((λ jx : nat * interaction, (jx.1, userid jx.2, itemid jx.2)) <$> ys).
Proof.
  revert st. induction ys as [|[j x] ys IH]; intros st Hrun; simpl in Hrun.
  - injection Hrun as <-. by rewrite app_nil_r.
  - destruct (interaction_step _ _ _ _ _ _ _) as [st1|] eqn:Hstep; [simpl in Hrun|done].
    rewrite (IH _ Hrun). clear IH Hrun. simpl.
    assert (assignment st1 = assignment (schedule L j x st)) as ->.
    { apply interaction_step_Some in Hstep as [[_ ->]|[_ Hflush]]; [done|].
      by apply flush_Some in Hflush as (cur & bs & _ & _ & _ & _ & _ & _ & _ & -> & _). }
    rewrite schedule_assignment, fmap_app, <- (assoc_L (++)). done.
Qed.

Lemma epoch_ids_sorted (xs : list interaction) (t : tbatches)
    (cache : gmap Qc (gmap Z tbatch)) (p : P) (st : loop_state P) :
  train_epoch L process_tbatch backpropagate span true xs t cache p = Some st →
  (λ a, (as_index a, as_user a, as_item a)) <$> assignment st
    = (λ jx : nat * interaction, (jx.1, userid jx.2, itemid jx.2)) <$> enumerate_from 0 xs
  ∧ ∀ k, StronglySorted Z.lt (tbatch_ids_of_user k (assignment st))
         ∧ StronglySorted Z.lt (tbatch_ids_of_item k (assignment st)).
Proof.
  unfold train_epoch. intros Hrun. split.
  - by apply assignment_complete in Hrun.
  - eapply (for_each_invariant _ (ids_inv L)) in Hrun.
    + intros k. destruct (Hrun k) as [[? _] [? _]]. done.
    + intros jx s s' _. apply first_step_ids_inv.
    + intros k. simpl. by repeat constructor.
Qed.
End BatchIds.

Lemma spec_lib_keeps_ids : reinit_keeps_ids spec_lib.
Proof. by intros t. Qed.

Lemma fresh_lib_clears : reinit_clears fresh_lib.
Proof. by intros t. Qed.

Lemma fresh_lib_fresh : reinit_fresh fresh_lib.
Proof. by split. Qed.

(** C2, against the library as the specification describes it: a flush
    leaves the counters of last batch ids as they are, every interaction of
    the training prefix is given one batch id, and for every actor and every
    target the batch ids of its interactions, in stream order over the whole
    epoch, increase strictly. *)
Theorem spec_tbatch_ids_strictly_increasing {P : Type}
    (process_tbatch : tbatch → P → option P) (backpropagate : P → P) (span : Qc)
    (xs : list interaction) (t : tbatches) (cache : gmap Qc (gmap Z tbatch)) (p : P)
    (st : loop_state P) :
  train_epoch spec_lib process_tbatch backpropagate span true xs t cache p = Some st →
  (∀ t', tbatchid_user (reinitialize_tbatches spec_lib t') = tbatchid_user t'
         ∧ tbatchid_item (reinitialize_tbatches spec_lib t') = tbatchid_item t')
  ∧ (λ a, (as_index a, as_user a, as_item a)) <$> assignment st
      = (λ jx : nat * interaction, (jx.1, userid jx.2, itemid jx.2)) <$> enumerate_from 0 xs
  ∧ ∀ k, StronglySorted Z.lt (tbatch_ids_of_user k (assignment st))
         ∧ StronglySorted Z.lt (tbatch_ids_of_item k (assignment st)).
Proof.
  intros Hrun. split; [apply spec_lib_keeps_ids|].
  by apply (epoch_ids_sorted spec_lib _ _ _ spec_lib_keeps_ids) in Hrun.
Qed.

(** ** Batches of a window under new tables *)

Lemma keyed_from_zero_empty : keyed_from_zero ∅.
Proof.
  intros id. rewrite lookup_empty, map_size_empty. split; [by intros [? ?]|lia].
Qed.

Lemma tbatches_in_range_ids (cur : gmap Z tbatch) :
  (tbatches_in_range cur).*1 = Z.of_nat <$> seq 0 (size cur).
Proof.
  unfold tbatches_in_range. rewrite <- list_fmap_compose. by apply list_fmap_ext.
Qed.

Lemma seq_sorted (k n : nat) : StronglySorted Z.lt (Z.of_nat <$> seq k n).
Proof.
  revert k. induction n as [|n IH]; intros k; simpl; constructor; [apply IH|].
  apply Forall_fmap, Forall_forall. intros i Hi%elem_of_seq. simpl. lia.
Qed.

(** The keys read by the loop increase strictly. *)
Lemma tbatches_in_range_sorted (cur : gmap Z tbatch) :
  StronglySorted Z.lt (tbatches_in_range cur).*1.
Proof. rewrite tbatches_in_range_ids. apply seq_sorted. Qed.

(** For a dictionary with keys [0 .. len-1], what the loop reads is what the
    dictionary holds. *)
Lemma tbatches_in_range_keyed (cur : gmap Z tbatch) (id : Z) (b : tbatch) :
  keyed_from_zero cur → cur !! id = Some b ↔ (id, b) ∈ tbatches_in_range cur.
Proof.
  intros Hkeyed. unfold tbatches_in_range. rewrite list_elem_of_fmap. split.
  - intros Hb. exists (Z.to_nat id).
    assert (0 ≤ id < Z.of_nat (size cur)) as Hid by (apply Hkeyed; by eexists).
    rewrite Z2Nat.id by lia. unfold tbatch_get. rewrite Hb. split; [done|].
    apply elem_of_seq. lia.
  - intros (i & [= -> ->] & Hi%elem_of_seq).
    destruct (proj2 (Hkeyed (Z.of_nat i)) ltac:(lia)) as [b Hb].
    unfold tbatch_get. by rewrite Hb.
Qed.

Section FreshTables.
Variable L : Lib.
Hypothesis Hfresh : reinit_fresh L.

Lemma fresh_clears : reinit_clears L.
Proof. destruct Hfresh as [_ Hr]. intros t. by rewrite Hr. Qed.

Lemma contiguous_reinit (t : tbatches) : contiguous (reinitialize_tbatches L t).
Proof.
  destruct Hfresh as [_ Hr]. rewrite Hr. split; [apply keyed_from_zero_empty|].
  split; intros k c; simpl; by rewrite lookup_empty.
Qed.

Lemma contiguous_get (t : tbatches) (table : gmap nat Z) (k : nat) :
  (∀ k' c, table !! k' = Some c → 0 ≤ c < Z.of_nat (size (current_tbatches t))) →
  -1 ≤ tbatchid_get L table k < Z.of_nat (size (current_tbatches t)).
Proof.
  destruct Hfresh as [Hd _]. intros Htable. unfold tbatchid_get. rewrite Hd.
  destruct (table !! k) as [c|] eqn:Hk; simpl; [|lia].
  specialize (Htable _ _ Hk). lia.
Qed.

(** Lines 169-179 on contiguous tables: the new id is at most the number of
    batches, so the keys stay [0 .. len-1]. *)
Lemma insert_interaction_contiguous (j : nat) (x : interaction) (t : tbatches) :
  contiguous t → contiguous (insert_interaction L j x t).2.
Proof.
  intros (Hkeyed & Husers & Hitems). unfold insert_interaction. simpl.
  unfold keyed_from_zero in Hkeyed.
  pose proof (contiguous_get t _ (userid x) Husers) as Hcu.
  pose proof (contiguous_get t _ (itemid x) Hitems) as Hci.
  set (new := Z.max (tbatchid_get L (tbatchid_user t) (userid x))
                    (tbatchid_get L (tbatchid_item t) (itemid x)) + 1) in *.
  set (b := tbatch_append j x (tbatch_get (current_tbatches t) new)).
  set (n := size (current_tbatches t)) in *.
  assert (0 ≤ new ≤ Z.of_nat n) as Hnew by lia.
  assert (size (<[new := b]> (current_tbatches t))
          = if decide (new = Z.of_nat n) then S n else n) as Hsize.
  { case_decide as Hlast.
    - apply map_size_insert_None. apply eq_None_not_Some. rewrite Hkeyed. fold n. lia.
    - apply map_size_insert_Some. apply Hkeyed. fold n. lia. }
  unfold contiguous. simpl. rewrite Hsize. split; [|split].
  - intros id. rewrite lookup_insert_is_Some, Hkeyed. fold n.
    case_decide; destruct (decide (new = id)); lia.
  - intros u c. intros [[_ <-]|[_ Hc]]%lookup_insert_Some.
    + case_decide; lia.
    + specialize (Husers _ _ Hc). case_decide; lia.
  - intros i c. intros [[_ <-]|[_ Hc]]%lookup_insert_Some.
    + case_decide; lia.
    + specialize (Hitems _ _ Hc). case_decide; lia.
Qed.
End FreshTables.

(** ** Flushes under new tables, and their replay *)

Lemma replay_record_eq (cache : gmap Qc (gmap Z tbatch)) (r : flush_record) :
  cache !! closing_timestamp (fr_window r) = Some (fr_accumulated r) →
  fr_consumed r = tbatches_in_range (fr_accumulated r) →
  r = replay_record cache (fr_window r).
Proof.
  destruct r as [w cur consumed]. simpl. intros Hcur ->.
  unfold replay_record. by rewrite Hcur.
Qed.

Section Replay.
Context {P : Type}.
Variable L : Lib.
Variable process_tbatch : tbatch → P → option P.
Variable backpropagate : P → P.
Variable epoch_begin epoch_end : P → P.
Variable span : Qc.
Variable xs : list interaction.
Hypothesis Hfresh : reinit_fresh L.

(** A flush of a dictionary with keys [0 .. len-1] processes that
    dictionary and leaves it as it is. *)
Lemma flush_keyed (first : bool) (j : nat) (ts start : Qc) (st st' : loop_state P) :
  (first = true → keyed_from_zero (current_tbatches (lib st))) →
  cache_keyed (cached_tbatches st) →
  flush L process_tbatch backpropagate first j ts start st = Some st' →
  ∃ cur,
    (if first then Some (current_tbatches (lib st)) else cached_tbatches st !! ts) = Some cur
    ∧ keyed_from_zero cur
    ∧ lib st' = (if first then reinitialize_tbatches L (set_current cur (lib st))
                 else set_current cur (lib st))
    ∧ cached_tbatches st' = <[ts := cur]> (cached_tbatches st)
    ∧ assignment st' = assignment st
    ∧ flushed st' = flushed st ++
        [{| fr_window := {| opening_index := window_first st; closing_index := j;
                            window_start_time := start; closing_timestamp := ts |};
            fr_accumulated := cur; fr_consumed := tbatches_in_range cur |}].
Proof.
  intros Hcur Hcache Hflush.
  apply flush_Some in Hflush
    as (cur & bs & Hsrc & Hloop & Hlib & Hc & _ & _ & _ & Hlog & Hf).
  assert (keyed_from_zero cur) as Hkeyed.
  { destruct first; [injection Hsrc as <-; by apply Hcur|by eapply Hcache]. }
  assert (bl_current bs = cur) as Hsame.
  { apply (tbatch_loop_current process_tbatch) in Hloop; [done|].
    simpl. intros i Hi%elem_of_seq. apply Hkeyed. lia. }
  apply tbatch_loop_consumed in Hloop. simpl in Hloop.
  rewrite Hsame in Hlib, Hc. rewrite Hloop in Hf. by exists cur.
Qed.

Lemma cache_keyed_insert (cache : gmap Qc (gmap Z tbatch)) (ts : Qc) (cur : gmap Z tbatch) :
  cache_keyed cache → keyed_from_zero cur → cache_keyed (<[ts := cur]> cache).
Proof.
  intros Hcache Hcur ts' cur'. destruct (decide (ts = ts')) as [->|Hne].
  - rewrite lookup_insert_eq. by intros [= <-].
  - rewrite lookup_insert_ne by done. apply Hcache.
Qed.

Lemma first_step_keyed (jx : nat * interaction) (st st' : loop_state P) :
  first_keyed st →
  interaction_step L process_tbatch backpropagate span true jx st = Some st' →
  first_keyed st'.
Proof.
  destruct jx as [j x]. intros (Hcontig & Hcache & Hflushed) Hstep.
  pose proof (schedule_timing L j x st) as (_ & _ & Hf & Hc & _).
  assert (first_keyed (schedule L j x st)) as (Hcontig0 & Hcache0 & Hflushed0).
  { split; [|split]; [|by rewrite Hc|by rewrite Hf].
    rewrite (schedule_lib L). by apply insert_interaction_contiguous. }
  apply interaction_step_Some in Hstep as [[_ ->]|[_ Hflush]]; [done|].
  apply flush_keyed in Hflush as (cur & Hsrc & Hkeyed & Hl & Hc' & _ & Hf');
    [|intros _; apply Hcontig0|done].
  unfold first_keyed. rewrite Hl, Hc', Hf'. clear Hsrc Hl Hc' Hf'.
  split; [by apply contiguous_reinit|]. split; [by apply cache_keyed_insert|].
  apply Forall_app. split; [done|]. constructor; [by split|constructor].
Qed.

Lemma first_epoch_keyed (t : tbatches) (cache : gmap Qc (gmap Z tbatch)) (p : P)
    (st : loop_state P) :
  cache_keyed cache →
  train_epoch L process_tbatch backpropagate span true xs t cache p = Some st →
  first_keyed st.
Proof.
  intros Hcache Hrun. unfold train_epoch in Hrun.
  eapply (for_each_invariant _ first_keyed) in Hrun; [done| |].
  - intros jx s s' _. apply first_step_keyed.
  - split; [by apply contiguous_reinit|]. by split.
Qed.

Lemma later_step_keyed (cache : gmap Qc (gmap Z tbatch)) (jx : nat * interaction)
    (st st' : loop_state P) :
  cache_keyed cache → later_keyed cache st →
  interaction_step L process_tbatch backpropagate span false jx st = Some st' →
  later_keyed cache st'.
Proof.
  destruct jx as [j x]. intros Hcache (Hc & Hlog & Hflushed) Hstep.
  apply interaction_step_Some in Hstep as [[_ ->]|[_ Hflush]]; [done|].
  apply flush_keyed in Hflush as (cur & Hcur & Hkeyed & _ & Hc' & Hlog' & Hf');
    [|intros [=]|by rewrite Hc].
  unfold later_keyed. rewrite Hc', Hlog', Hf'. simpl in Hcur.
  rewrite Hc in *. split; [by apply insert_id|]. split; [done|].
  apply Forall_app. split; [done|]. constructor; [|constructor].
  split; [done|]. by split.
Qed.

Lemma later_epoch_keyed (t : tbatches) (cache : gmap Qc (gmap Z tbatch)) (p : P)
    (st : loop_state P) :
  cache_keyed cache →
  train_epoch L process_tbatch backpropagate span false xs t cache p = Some st →
  later_keyed cache st
  ∧ flushed st = replay_record cache <$> flush_windows span (enumerate_from 0 xs) None 0.
Proof.
  intros Hcache Hrun. unfold train_epoch in Hrun.
  assert (later_keyed cache st) as Hlater.
  { eapply (for_each_invariant _ (later_keyed cache)) in Hrun; [done| |done].
    intros jx s s' _. by apply later_step_keyed. }
  split; [done|]. apply flushed_windows in Hrun. simpl in Hrun. rewrite <- Hrun.
  destruct Hlater as (_ & _ & Hflushed). clear Hrun.
  induction Hflushed as [|r rs [Hr [_ Hcons]] _ IH]; [done|].
  rewrite !fmap_cons. f_equal; [by apply replay_record_eq|done].
Qed.

(** *** The first epoch leaves a cache entry for every window it closed *)

Lemma step_closing_cached (first : bool) (jx : nat * interaction) (st st' : loop_state P) :
  closing_cached st →
  interaction_step L process_tbatch backpropagate span first jx st = Some st' →
  closing_cached st'.
Proof.
  destruct jx as [j x]. intros Hkeys Hstep.
  destruct (scheduled_timing L first j x st) as (_ & _ & Hf & Hc & _).
  apply interaction_step_Some in Hstep as [[_ ->]|[_ Hflush]].
  { unfold closing_cached. simpl. by rewrite Hf, Hc. }
  apply flush_Some in Hflush as (cur & bs & _ & _ & _ & Hc' & _ & _ & _ & _ & Hf').
  unfold closing_cached. rewrite Hc', Hf', Hf, Hc. apply Forall_app. split.
  - eapply Forall_impl; [exact Hkeys|]. simpl. intros r Hr.
    apply lookup_insert_is_Some'. by right.
  - constructor; [|constructor]. simpl. apply lookup_insert_is_Some'. by left.
Qed.

Lemma epoch_closing_cached (first : bool) (t : tbatches)
    (cache : gmap Qc (gmap Z tbatch)) (p : P) (st : loop_state P) :
  train_epoch L process_tbatch backpropagate span first xs t cache p = Some st →
  closing_cached st.
Proof.
  unfold train_epoch. intros Hrun.
  eapply (for_each_invariant _ closing_cached) in Hrun; [done| |by constructor].
  intros jx s s' _. apply step_closing_cached.
Qed.

(** *** With a span that is not negative, closing timestamps increase, and
    the cache entry of a window is the dictionary of that window *)

Lemma first_step_own_cached (jx : nat * interaction) (st st' : loop_state P) :
  (0 ≤ span)%Qc →
  first_keyed st → own_cached st →
  interaction_step L process_tbatch backpropagate span true jx st = Some st' →
  own_cached st'.
Proof.
  destruct jx as [j x]. intros Hspan (Hcontig & Hcache & _) Hown Hstep.
  pose proof (schedule_timing L j x st) as (Hs & _ & Hf & Hc & _).
  assert (contiguous (lib (schedule L j x st))) as Hcontig0.
  { rewrite (schedule_lib L). by apply insert_interaction_contiguous. }
  apply interaction_step_Some in Hstep as [[_ ->]|[Hlt Hflush]].
  { unfold own_cached. simpl.
    eapply Forall_impl; [exact Hown|]. simpl. intros r [Hr (s & Hstart & Hle)].
    split; [done|]. exists s. by rewrite Hstart. }
  pose proof Hflush as Hstart'.
  apply flush_Some in Hstart' as (_ & _ & _ & _ & _ & _ & Hstart' & _).
  apply flush_keyed in Hflush as (cur & Hsrc & Hkeyed & _ & Hc' & _ & Hf');
    [|intros _; apply Hcontig0|by rewrite Hc].
  unfold own_cached. rewrite Hc', Hf', Hf, Hc, Hstart'.
  apply Forall_app. split.
  - eapply Forall_impl; [exact Hown|]. simpl. intros r [[Hr Hin] (s & Hstart & Hle)].
    rewrite Hstart in Hlt. simpl in Hlt.
    assert (closing_timestamp (fr_window r) < timestamp x)%Qc as Hbefore.
    { apply Qcle_lt_trans with (y := s); [done|].
      apply Qclt_minus_iff. by apply Qcle_lt_trans with (y := span). }
    split; [split; [|done]|].
    + rewrite lookup_insert_ne; [done|]. intros Heq. rewrite Heq in Hbefore.
      by apply Qclt_not_eq in Hbefore.
    + exists (timestamp x). split; [done|]. by apply Qclt_le_weak.
  - constructor; [|constructor]. simpl. split.
    + split; [by rewrite lookup_insert_eq|]. by split.
    + exists (timestamp x). split; [done|]. apply Qcle_refl.
Qed.

Lemma first_epoch_own_cached (t : tbatches) (cache : gmap Qc (gmap Z tbatch)) (p : P)
    (st : loop_state P) :
  (0 ≤ span)%Qc → cache_keyed cache →
  train_epoch L process_tbatch backpropagate span true xs t cache p = Some st →
  Forall (replayed (cached_tbatches st)) (flushed st).
Proof.
  intros Hspan Hcache Hrun. unfold train_epoch in Hrun.
  eapply (for_each_invariant _ (λ s, first_keyed s ∧ own_cached s)) in Hrun.
  - destruct Hrun as [_ Hown]. eapply Forall_impl; [exact Hown|]. by intros r [? _].
  - intros jx s s' _ [Hkeyed Hown] Hstep. split.
    + by eapply first_step_keyed.
    + by eapply first_step_own_cached.
  - split; [|by constructor]. split; [by apply contiguous_reinit|]. by split.
Qed.

(** *** No flush raises, if no batch does *)

Hypothesis Htotal : ∀ b p, is_Some (process_tbatch b p).

Lemma flush_total (first : bool) (j : nat) (ts start : Qc) (st : loop_state P) :
  is_Some (if first then Some (current_tbatches (lib st)) else cached_tbatches st !! ts) →
  is_Some (flush L process_tbatch backpropagate first j ts start st).
Proof.
  intros [cur Hcur]. unfold flush. rewrite Hcur. simpl.
  destruct (tbatch_loop_total process_tbatch (seq 0 (size cur))
              {| bl_current := cur; bl_count := total_interaction_count st;
                 bl_payload := payload st; bl_consumed := [] |} Htotal)
    as [bs ->].
  by eexists.
Qed.

Lemma first_epoch_total (ys : list (nat * interaction)) (st : loop_state P) :
  is_Some (for_each (interaction_step L process_tbatch backpropagate span true) ys st).
Proof.
  apply for_each_total. intros [j x] s. unfold interaction_step. cbn [fst snd].
  case_decide; [|by eexists]. apply flush_total. by eexists.
Qed.

(** A later epoch finds every closing timestamp in the cache. *)
Lemma later_epoch_total (cache : gmap Qc (gmap Z tbatch)) (ys : list (nat * interaction))
    (st : loop_state P) :
  cache_keyed cache → cached_tbatches st = cache →
  Forall (λ w, is_Some (cache !! closing_timestamp w))
    (flush_windows span ys (tbatch_start_time st) (window_first st)) →
  is_Some (for_each (interaction_step L process_tbatch backpropagate span false) ys st).
Proof.
  intros Hcache. revert st. induction ys as [|[j x] ys IH]; intros st Hc Hkeys; simpl.
  { by eexists. }
  simpl in Hkeys.
  assert (∃ st', interaction_step L process_tbatch backpropagate span false (j, x) st
                   = Some st'
                 ∧ cached_tbatches st' = cache
                 ∧ Forall (λ w, is_Some (cache !! closing_timestamp w))
                     (flush_windows span ys (tbatch_start_time st') (window_first st')))
    as (st' & -> & Hc' & Hkeys'); [|simpl; by apply IH].
  unfold interaction_step. simpl. case_decide as Hspan.
  - apply Forall_cons in Hkeys as [[cur Hcur] Hkeys]. simpl in Hcur.
    unfold flush. rewrite Hc, Hcur. simpl.
    destruct (tbatch_loop_total process_tbatch (seq 0 (size cur))
                {| bl_current := cur; bl_count := total_interaction_count st;
                   bl_payload := payload st; bl_consumed := [] |} Htotal)
      as [bs Hloop].
    rewrite Hloop. simpl. eexists. split; [done|]. simpl. split; [|done].
    apply (tbatch_loop_current process_tbatch) in Hloop; simpl in Hloop.
    + rewrite Hloop. by apply insert_id.
    + intros i Hi%elem_of_seq. apply (Hcache _ _ Hcur). lia.
  - eexists. split; [done|]. by split.
Qed.

(** *** The run as a whole

    The first epoch fills the cache with dictionaries keyed [0 .. len-1],
    one for each window; every later epoch replays them. *)

Lemma epoch_step_keyed (ep : nat) (rs rs' : run_state P) :
  (run_keyed span xs) rs →
  epoch_step L process_tbatch backpropagate epoch_begin epoch_end span xs ep rs = Some rs' →
  (run_keyed span xs) rs'.
Proof.
  intros [Hcache Hepochs] Hstep. unfold epoch_step in Hstep.
  destruct (train_epoch _ _ _ _ _ _ _ _ _) as [st|] eqn:Hepoch; [simpl in Hstep|done].
  injection Hstep as <-. unfold run_keyed. simpl.
  destruct (rs_epochs rs) as [|st1 later].
  - rewrite Hepochs in Hepoch.
    pose proof (first_epoch_keyed _ _ _ _ Hcache Hepoch) as (_ & ? & ?).
    pose proof (epoch_closing_cached _ _ _ _ _ Hepoch) as Hkeys.
    pose proof (λ Hspan, first_epoch_own_cached _ _ _ _ Hspan Hcache Hepoch) as Hown.
    apply flushed_windows in Hepoch. simpl in Hepoch.
    simpl. split; [done|]. split; [done|]. split; [done|]. by split.
  - destruct Hepochs as (Hfirst & Hc & Hdone & Hlater).
    rewrite Hfirst, Hc in Hepoch. rewrite Hc in Hcache.
    apply later_epoch_keyed in Hepoch as [Hkeyed Hreplay]; [|done].
    destruct Hkeyed as (Hsame & ? & ?). rewrite Hsame. simpl.
    split; [done|]. split; [done|]. split; [done|]. split; [done|].
    apply Forall_app. split; [done|]. constructor; [|constructor].
    split; [|done]. split; [done|]. by split.
Qed.

Lemma train_keyed (n : nat) (t : tbatches) (p : P) (rs : run_state P) :
  train L process_tbatch backpropagate epoch_begin epoch_end span n xs t p = Some rs →
  (run_keyed span xs) rs.
Proof.
  unfold train. intros Hrun.
  eapply (for_each_invariant _ (run_keyed span xs)) in Hrun; [done| |].
  - intros ep s s' _. apply epoch_step_keyed.
  - split; simpl; [|done]. intros ts cur. by rewrite lookup_empty.
Qed.


Lemma epoch_step_total (ep : nat) (rs : run_state P) :
  (run_keyed span xs) rs →
  ∃ rs', epoch_step L process_tbatch backpropagate epoch_begin epoch_end span xs ep rs
           = Some rs'
         ∧ (run_keyed span xs) rs'.
Proof.
  intros Hkeyed.
  assert (is_Some (train_epoch L process_tbatch backpropagate span (is_first_epoch rs) xs
                     (rs_lib rs) (rs_cached_tbatches rs) (epoch_begin (rs_payload rs))))
    as [st Hst].
  { destruct Hkeyed as [Hcache Hepochs]. unfold train_epoch.
    destruct (rs_epochs rs) as [|st1 later].
    - rewrite Hepochs. by apply first_epoch_total.
    - destruct Hepochs as (-> & Hc & (_ & Hwindows & Hkeys & _) & _).
      apply (later_epoch_total (rs_cached_tbatches rs)); [done|done|].
      simpl. rewrite <- Hwindows, Hc. by apply Forall_fmap. }
  assert (epoch_step L process_tbatch backpropagate epoch_begin epoch_end span xs ep rs
          = Some {| is_first_epoch := false; rs_lib := lib st;
                    rs_cached_tbatches := cached_tbatches st;
                    rs_payload := epoch_end (payload st);
                    rs_epochs := rs_epochs rs ++ [st] |}) as Hstep.
  { unfold epoch_step. by rewrite Hst. }
  eexists. split; [done|]. by eapply epoch_step_keyed.
Qed.

Lemma train_total (n : nat) (t : tbatches) (p : P) :
  is_Some (train L process_tbatch backpropagate epoch_begin epoch_end span n xs t p).
Proof.
  unfold train.
  edestruct (for_each_total_invariant
               (epoch_step L process_tbatch backpropagate epoch_begin epoch_end span xs)
               (run_keyed span xs) (seq 0 n)) as (rs & Hrs & _); [| |by eexists].
  - intros ep s. by apply epoch_step_total.
  - split; simpl; [|done]. intros ts cur. by rewrite lookup_empty.
Qed.
End Replay.

Lemma replayed_records (cache : gmap Qc (gmap Z tbatch)) (rs : list flush_record) :
  Forall (replayed cache) rs → rs = replay_record cache <$> (fr_window <$> rs).
Proof.
  induction 1 as [|r rs [Hr [_ Hcons]] _ IH]; [done|].
  rewrite !fmap_cons. f_equal; [by apply replay_record_eq|done].
Qed.

Lemma replay_record_windows (cache : gmap Qc (gmap Z tbatch)) (ws : list window) :
  fr_window <$> (replay_record cache <$> ws) = ws.
Proof. rewrite <- list_fmap_compose. by apply list_fmap_id. Qed.

Lemma run_keyed_in_order {P : Type} (span : Qc) (xs : list interaction) (rs : run_state P)
    (st : loop_state P) :
  run_keyed span xs rs → st ∈ rs_epochs rs → Forall flushed_in_order (flushed st).
Proof.
  intros [_ Hepochs] Hst. destruct (rs_epochs rs) as [|st1 later]; [by apply elem_of_nil in Hst|].
  destruct Hepochs as (_ & _ & (Hfirst & _) & Hlater).
  apply elem_of_cons in Hst as [->|Hst]; [done|].
  rewrite Forall_forall in Hlater. destruct (Hlater _ Hst) as [(_ & _ & Hreplayed) _].
  eapply Forall_impl; [exact Hreplayed|]. by intros r [_ ?].
Qed.

(** C8, for a library that starts every window from new tables whose
    counters answer [-1]: in every flush of every epoch, the ids of the
    accumulated batches are exactly [0 .. n-1], the batch loop visits ids in
    strictly increasing order, and a batch is visited under an id if and only
    if it was accumulated under that id -- each accumulated batch once. *)
Theorem tbatches_processed_once_in_order {P : Type} (L : Lib)
    (process_tbatch : tbatch → P → option P) (backpropagate epoch_begin epoch_end : P → P)
    (span : Qc) (n : nat) (xs : list interaction) (t : tbatches) (p : P)
    (rs : run_state P) (st : loop_state P) (r : flush_record) :
  reinit_fresh L →
  train L process_tbatch backpropagate epoch_begin epoch_end span n xs t p = Some rs →
  st ∈ rs_epochs rs → r ∈ flushed st →
  keyed_from_zero (fr_accumulated r)
  ∧ StronglySorted Z.lt (fr_consumed r).*1
  ∧ ∀ id b, fr_accumulated r !! id = Some b ↔ (id, b) ∈ fr_consumed r.
Proof.
  intros Hfresh Hrun Hst Hr.
  apply (train_keyed L _ _ _ _ _ xs Hfresh) in Hrun.
  pose proof (run_keyed_in_order _ _ _ _ Hrun Hst) as Horder.
  rewrite Forall_forall in Horder. destruct (Horder r Hr) as [Hkeyed ->].
  split; [done|]. split; [apply tbatches_in_range_sorted|].
  intros id b. by apply tbatches_in_range_keyed.
Qed.

(** C4, for a library that starts every window from new tables whose
    counters answer [-1].  If no batch raises, no epoch raises: every closing
    timestamp is found in the cache.  In every epoch after the first nothing
    is scheduled and the cache is the one the first epoch left; the windows
    are those of the first epoch; every flush processes the dictionary cached
    under its closing timestamp, all of it, in the order of the batch ids;
    all later epochs record the same flushes; and when the span is not
    negative (timestamps in order), they are the flushes of the first epoch. *)
Theorem later_epochs_replay_cache {P : Type} (L : Lib)
    (process_tbatch : tbatch → P → option P) (backpropagate epoch_begin epoch_end : P → P)
    (span : Qc) (n : nat) (xs : list interaction) (t : tbatches) (p : P) :
  reinit_fresh L →
  ((∀ b q, is_Some (process_tbatch b q)) →
   is_Some (train L process_tbatch backpropagate epoch_begin epoch_end span n xs t p))
  ∧ ∀ rs st1 k st,
      train L process_tbatch backpropagate epoch_begin epoch_end span n xs t p = Some rs →
      rs_epochs rs !! 0%nat = Some st1 →
      rs_epochs rs !! S k = Some st →
      assignment st = []
      ∧ cached_tbatches st = cached_tbatches st1
      ∧ fr_window <$> flushed st = fr_window <$> flushed st1
      ∧ Forall (λ r, cached_tbatches st1 !! closing_timestamp (fr_window r)
                       = Some (fr_accumulated r)
                     ∧ fr_consumed r = tbatches_in_range (fr_accumulated r)
                     ∧ ∀ id b, fr_accumulated r !! id = Some b ↔ (id, b) ∈ fr_consumed r)
          (flushed st)
      ∧ (∀ k' st', rs_epochs rs !! S k' = Some st' → flushed st' = flushed st)
      ∧ ((0 ≤ span)%Qc → flushed st = flushed st1).
Proof.
  intros Hfresh. split; [intros Htotal; by apply train_total|].
  intros rs st1 k st Hrun Hst1 Hst.
  apply (train_keyed L _ _ _ _ _ xs Hfresh) in Hrun as [_ Hepochs].
  destruct (rs_epochs rs) as [|st1' later]; [done|].
  simpl in Hst1, Hst. injection Hst1 as ->.
  destruct Hepochs as (_ & _ & (_ & Hwindows & _ & Hown) & Hlater).
  rewrite Forall_forall in Hlater.
  destruct (Hlater st (list_elem_of_lookup_2 _ _ _ Hst)) as [(Hc & Hlog & Hreplayed) Hflushed].
  split; [done|]. split; [done|]. split.
  { by rewrite Hflushed, replay_record_windows. }
  split.
  { eapply Forall_impl; [exact Hreplayed|]. simpl. intros r [Hr [Hkeyed Hcons]].
    split; [done|]. split; [done|]. intros id b. rewrite Hcons.
    by apply tbatches_in_range_keyed. }
  split.
  { intros k' st' Hst'. simpl in Hst'.
    destruct (Hlater st' (list_elem_of_lookup_2 _ _ _ Hst')) as [_ ->]. done. }
  intros Hspan. rewrite Hflushed, <- Hwindows. symmetry. by apply replayed_records, Hown.
Qed.

(** ** Tables and their lookups *)

Lemma gather_is_Some {A : Type} (table : list A) (ids : list nat) :
  Forall (λ i, i < length table)%nat ids → is_Some (gather table ids).
Proof.
  intros Hids. apply mapM_is_Some_2. eapply Forall_impl; [exact Hids|].
  intros i Hi. simpl. by apply lookup_lt_is_Some_2.
Qed.

Lemma scatter_length {A : Type} (table table' : list A) (ids : list nat) (rows : list A) :
  scatter table ids rows = Some table' → length table' = length table.
Proof.
  revert table rows. induction ids as [|i ids IH]; intros table rows Hscatter; simpl in Hscatter.
  - by injection Hscatter as <-.
  - destruct rows as [|r rows]; [by injection Hscatter as <-|].
    case_decide; [|done]. apply IH in Hscatter. by rewrite length_insert in Hscatter.
Qed.

Lemma eye_length (n : nat) : length (eye n) = n.
Proof. unfold eye. by rewrite length_fmap, length_seq. Qed.

(** The previous targets of a batch built from the stream are previous
    targets of the stream. *)
Lemma of_stream_previous_item (xs : list interaction) (b : tbatch) (bound : nat) :
  Forall (λ x, previous_itemid x ≤ bound)%nat xs →
  of_stream xs b → Forall (λ i, i ≤ bound)%nat (tb_previous_item b).
Proof.
  intros Hxs (_ & _ & Hprev).
  eapply Forall2_Forall_r; [exact Hprev|]. apply Forall_true. intros j i Hj.
  destruct (xs !! j) as [x|] eqn:Hx; simplify_eq/=.
  rewrite Forall_forall in Hxs. apply Hxs. by eapply list_elem_of_lookup_2.
Qed.

Section Payload.
Context {P : Type}.
Variable L : Lib.
Variable process_tbatch : tbatch → P → option P.
Variable backpropagate epoch_begin epoch_end : P → P.
Variable span : Qc.
Variable I : P → Prop.
Hypothesis Hprocess : ∀ b p p', I p → process_tbatch b p = Some p' → I p'.
Hypothesis Hbackpropagate : ∀ p, I p → I (backpropagate p).

(** What every batch keeps and the backward pass keeps, an epoch keeps. *)
Lemma epoch_payload (first : bool) (xs : list interaction) (t : tbatches)
    (cache : gmap Qc (gmap Z tbatch)) (p : P) (st : loop_state P) :
  I p →
  train_epoch L process_tbatch backpropagate span first xs t cache p = Some st →
  I (payload st).
Proof.
  intros Hp Hrun. unfold train_epoch in Hrun.
  eapply (for_each_invariant _ (λ s, I (payload s))) in Hrun; [done| |done].
  intros [j x] s s' _ Hs Hstep.
  destruct (scheduled_timing L first j x s) as (_ & _ & _ & _ & Hpay).
  apply interaction_step_Some in Hstep as [[_ ->]|[_ Hflush]].
  { simpl. by rewrite Hpay. }
  apply flush_Some in Hflush as (cur & bs & _ & Hloop & _ & _ & _ & -> & _).
  apply Hbackpropagate.
  eapply (for_each_invariant _ (λ s, I (bl_payload s))) in Hloop; [done| |].
  - intros i u u' _ Hu Hi. apply tbatch_step_Some in Hi as (_ & _ & Hi). by eapply Hprocess.
  - simpl. by rewrite Hpay.
Qed.

Lemma train_payload (n : nat) (xs : list interaction) (t : tbatches) (p : P)
    (rs : run_state P) :
  (∀ q, I q → I (epoch_begin q)) → (∀ q, I q → I (epoch_end q)) →
  I p →
  train L process_tbatch backpropagate epoch_begin epoch_end span n xs t p = Some rs →
  I (rs_payload rs) ∧ Forall (λ st, I (payload st)) (rs_epochs rs).
Proof.
  intros Hbegin Hend Hp Hrun. unfold train in Hrun.
  eapply (for_each_invariant _
            (λ s, I (rs_payload s) ∧ Forall (λ st, I (payload st)) (rs_epochs s)))
    in Hrun; [done| |by split].
  intros ep s s' _ [Hs Hepochs] Hstep. unfold epoch_step in Hstep.
  destruct (train_epoch _ _ _ _ _ _ _ _ _) as [st|] eqn:Hepoch; [simpl in Hstep|done].
  injection Hstep as <-. simpl. apply epoch_payload in Hepoch; [|by apply Hbegin].
  split; [by apply Hend|]. apply Forall_app. by split; [|constructor].
Qed.
End Payload.

(** ** The embedding tables during training *)

Section EmbeddingProperties.
Context {emb model loss : Type}.
Variable initial_user_embedding initial_item_embedding : model → emb.
Variable forward_user_update forward_item_update :
  model → emb → emb → Qc → feature → emb.
Variable tbatch_loss : model → bool → tbatch → list emb → list emb → list emb → loss → loss.
Variable optimizer_step : model → loss → model.
Variable zero_loss : loss.
Variable a : args.
Variable d : network_data.

Lemma process_tbatch_Some (b : tbatch) (td td' : train_data emb model loss) :
  process_tbatch forward_user_update forward_item_update tbatch_loss a d b td = Some td' →
  is_Some (gather (item_embeddings td) (tb_previous_item b))
  ∧ is_Some (gather (eye (num_items d)) (tb_previous_item b))
  ∧ length (user_embeddings td') = length (user_embeddings td)
  ∧ length (item_embeddings td') = length (item_embeddings td)
  ∧ length (user_embeddings_timeseries td') = length (user_embeddings_timeseries td)
  ∧ length (item_embeddings_timeseries td') = length (item_embeddings_timeseries td).
Proof.
  unfold process_tbatch. intros H.
  bind_inv H Hprev. bind_inv H Huser. bind_inv H Hsprev. bind_inv H Hsuser.
  bind_inv H Hitem. bind_inv H Hsitem.
  bind_inv H Hitems'. bind_inv H Husers'. bind_inv H Huts. bind_inv H Hits.
  injection H as <-. simpl.
  apply scatter_length in Hitems', Husers', Huts, Hits.
  split; [by eexists|]. split; [by eexists|]. done.
Qed.

Lemma process_tbatch_sized (b : tbatch) (td td' : train_data emb model loss) :
  sized d td →
  process_tbatch forward_user_update forward_item_update tbatch_loss a d b td = Some td' →
  sized d td'.
Proof.
  intros [Hu Hi] (_ & _ & Hu' & Hi' & _)%process_tbatch_Some. split; congruence.
Qed.

Lemma initial_sized (m : model) :
  sized d (initial_train_data initial_user_embedding initial_item_embedding zero_loss d m).
Proof. split; simpl; apply length_replicate. Qed.

Lemma epoch_end_sized (td : train_data emb model loss) :
  sized d (epoch_end initial_user_embedding initial_item_embedding d td).
Proof. split; simpl; apply length_replicate. Qed.
End EmbeddingProperties.

Section Safety.
Context {emb model loss : Type}.
Variable initial_user_embedding initial_item_embedding : model → emb.
Variable forward_user_update forward_item_update :
  model → emb → emb → Qc → feature → emb.
Variable tbatch_loss : model → bool → tbatch → list emb → list emb → list emb → loss → loss.
Variable optimizer_step : model → loss → model.
Variable zero_loss : loss.
Variable a : args.
Variable d : network_data.
Variable L : Lib.

Lemma jodie_Some (t : tbatches) (m : model) (rs : run_state (train_data emb model loss)) :
  jodie initial_user_embedding initial_item_embedding forward_user_update
    forward_item_update tbatch_loss optimizer_step zero_loss a d L t m = Some rs →
  ∃ span,
    tbatch_timespan d = Some span
    ∧ train L (process_tbatch forward_user_update forward_item_update tbatch_loss a d)
        (backpropagate optimizer_step zero_loss) (epoch_begin zero_loss d)
        (epoch_end initial_user_embedding initial_item_embedding d) span
        (epochs a) (training_prefix a d) t
        (initial_train_data initial_user_embedding initial_item_embedding zero_loss d m)
      = Some rs.
Proof.
  unfold jodie. intros H. bind_inv H Hratio. bind_inv H Hspan. by eexists.
Qed.

(** C10: the target table and the one-hot table of the targets have one row
    more than there are targets; training keeps the tables at that size;
    and for every batch processed in any flush of any epoch, the previous
    targets of the batch -- which are those of its interactions, the
    sentinel [len(item2id)] included -- are found in any table of that
    size, and in the one-hot table. *)
Theorem previous_item_lookups_in_bounds (t : tbatches) (m : model)
    (rs : run_state (train_data emb model loss)) :
  reinit_clears L →
  Forall (λ x, previous_itemid x ≤ item2id_len d)%nat (interactions d) →
  jodie initial_user_embedding initial_item_embedding forward_user_update
    forward_item_update tbatch_loss optimizer_step zero_loss a d L t m = Some rs →
  (num_items d = (item2id_len d + 1)%nat
   ∧ length (item_embeddings
               (initial_train_data initial_user_embedding initial_item_embedding
                  zero_loss d m)) = (item2id_len d + 1)%nat
   ∧ length (eye (num_items d)) = (item2id_len d + 1)%nat)
  ∧ (sized d (rs_payload rs) ∧ Forall (λ st, sized d (payload st)) (rs_epochs rs))
  ∧ ∀ st r id b (td : train_data emb model loss),
      st ∈ rs_epochs rs → r ∈ flushed st → (id, b) ∈ fr_consumed r →
      length (item_embeddings td) = num_items d →
      is_Some (gather (item_embeddings td) (tb_previous_item b))
      ∧ is_Some (gather (eye (num_items d)) (tb_previous_item b)).
Proof.
  intros Hclears Hprev (span & _ & Hrun)%jodie_Some. split; [|split].
  - split; [done|]. split; [simpl; apply length_replicate|apply eye_length].
  - eapply (train_payload L _ _ _ _ span (sized d)); [| | | | |exact Hrun].
    + intros b p p'. apply process_tbatch_sized.
    + by intros p.
    + by intros p.
    + intros p _. apply epoch_end_sized.
    + apply initial_sized.
  - intros st r id b td Hst Hr Hb Hsize.
    assert (good (training_prefix a d) b) as [_ Hstream].
    { eapply train_flushed_good; [exact Hclears|exact Hrun|exact Hst|exact Hr|by right]. }
    apply of_stream_previous_item with (bound := item2id_len d) in Hstream;
      [|by apply Forall_take].
    split; apply gather_is_Some.
    + eapply Forall_impl; [exact Hstream|]. simpl. intros i Hi.
      rewrite Hsize. unfold num_items. lia.
    + eapply Forall_impl; [exact Hstream|]. simpl. intros i Hi.
      rewrite eye_length. unfold num_items. lia.
Qed.
End Safety.

(** ** The trailing window *)

(** C1 fails on the code: over the example stream, whose training prefix is
    the interactions 0 to 3, an epoch closes the windows 0..1 and 2..2 and
    ends; interaction 3 is read after the last flush and belongs to no
    flushed window.  This holds for every epoch, library and batch work. *)
Theorem trailing_window_not_flushed {P : Type} (L : Lib)
    (process_tbatch : tbatch → P → option P) (backpropagate : P → P) (first : bool)
    (t : tbatches) (cache : gmap Qc (gmap Z tbatch)) (p : P) (st : loop_state P) :
  train_epoch L process_tbatch backpropagate example_span first
    (training_prefix example_args example_data) t cache p = Some st →
  tbatch_timespan example_data = Some example_span
  ∧ train_end_idx example_args example_data = 4%nat
  ∧ (λ w, (opening_index w, closing_index w)) <$> (fr_window <$> flushed st)
      = [(0, 1); (2, 2)]%nat
  ∧ Forall (λ r, ¬ in_window 3 (fr_window r)) (flushed st).
Proof.
  intros Hrun. apply flushed_windows in Hrun. simpl in Hrun.
  split; [reflexivity|]. split; [reflexivity|].
  assert ((λ w, (opening_index w, closing_index w)) <$> (fr_window <$> flushed st)
          = [(0, 1); (2, 2)]%nat) as Hwindows.
  { rewrite Hrun. vm_compute. reflexivity. }
  split; [done|].
  apply Forall_forall. intros r Hr [Hopen Hclose].
  assert ((opening_index (fr_window r), closing_index (fr_window r))
          ∈ [(0, 1); (2, 2)]%nat) as Hin.
  { rewrite <- Hwindows, <- list_fmap_compose.
    by apply (list_elem_of_fmap_2 (λ r, (opening_index (fr_window r),
                                         closing_index (fr_window r)))). }
  apply elem_of_cons in Hin as [[= Ho Hc]|Hin]; [lia|].
  apply list_elem_of_singleton in Hin as [= Ho Hc]. lia.
Qed.

Lemma trailing_window_not_flushed_witness :
  (λ w, (opening_index w, closing_index w))
    <$> (fr_window <$> flushed (example_epoch fresh_lib 0)) = [(0, 1); (2, 2)]%nat
  ∧ Forall (λ r, ¬ in_window 3 (fr_window r)) (flushed (example_epoch fresh_lib 0)).
Proof.
  apply (trailing_window_not_flushed fresh_lib (λ _ _, Some tt) id true empty_tbatches ∅ tt
           (example_epoch fresh_lib 0)).
  vm_compute. reflexivity.
Defined.

(** C6 fails on the code, by the same missing flush: after each of the three
    epochs over the example stream, with the library of either kind, row 3 of
    both trajectories -- an interaction below the training boundary 4 -- has
    not been written. *)
Theorem trailing_trajectory_rows_unwritten {emb model loss : Type}
    (initial_user_embedding initial_item_embedding : model → emb)
    (forward_user_update forward_item_update : model → emb → emb → Qc → feature → emb)
    (tbatch_loss : model → bool → tbatch → list emb → list emb → list emb → loss → loss)
    (optimizer_step : model → loss → model) (zero_loss : loss) (m : model) :
  train_end_idx example_args example_data = 4%nat
  ∧ Forall (λ L,
      (λ rs, (λ st, (written (user_embeddings_timeseries (payload st)) !! 3%nat,
                     written (item_embeddings_timeseries (payload st)) !! 3%nat))
             <$> rs_epochs rs)
      <$> jodie initial_user_embedding initial_item_embedding forward_user_update
            forward_item_update tbatch_loss optimizer_step zero_loss
            example_args example_data L empty_tbatches m
      = Some [(Some false, Some false); (Some false, Some false); (Some false, Some false)])
      [fresh_lib; spec_lib].
Proof.
  split; [reflexivity|].
  constructor; [vm_compute; reflexivity|]. constructor; [vm_compute; reflexivity|].
  constructor.
Qed.

(** ** The statements at the example stream *)

Lemma train_proportion_check_witness :
  (∃ msg,
     startup (λ _, example_data)
       {| network := "example"; model_name := "jodie"; epochs := 3; embedding_dim := 1;
          train_proportion := Q2Qc (85 # 100); state_change := true |}
     = ([], SysExit msg))
  ∧ startup (λ _, example_data) example_args
    = ([EvLoadNetwork (datapath example_args)], Loaded example_data).
Proof.
  split.
  - apply (train_proportion_check (λ _, example_data)). vm_compute. reflexivity.
  - apply (train_proportion_check (λ _, example_data) example_args). reflexivity.
Defined.

Lemma spec_tbatch_ids_strictly_increasing_witness :
  as_tbatch <$> assignment (example_epoch spec_lib 0) = [1; 1; 2; 2]
  ∧ ∀ k, StronglySorted Z.lt (tbatch_ids_of_user k (assignment (example_epoch spec_lib 0)))
         ∧ StronglySorted Z.lt (tbatch_ids_of_item k (assignment (example_epoch spec_lib 0))).
Proof.
  split; [vm_compute; reflexivity|].
  apply (spec_tbatch_ids_strictly_increasing (λ _ _, Some tt) id example_span
           (training_prefix example_args example_data) empty_tbatches ∅ tt
           (example_epoch spec_lib 0)).
  vm_compute. reflexivity.
Defined.

Lemma example_run_fresh :
  schedule_only_run fresh_lib example_span 3 (training_prefix example_args example_data)
    empty_tbatches = Some (example_run fresh_lib).
Proof. vm_compute. reflexivity. Qed.

Lemma example_epoch_fresh (k : nat) :
  (k < 3)%nat → rs_epochs (example_run fresh_lib) !! k = Some (example_epoch fresh_lib k).
Proof.
  intros Hk. destruct k as [|[|[|k]]]; [vm_compute; reflexivity..|lia].
Qed.

Lemma example_flush_fresh (k i : nat) :
  (k < 3)%nat → (i < 2)%nat →
  flushed (example_epoch fresh_lib k) !! i = Some (example_flush fresh_lib k i).
Proof.
  intros Hk Hi. destruct k as [|[|[|k]]]; [..|lia];
    (destruct i as [|[|i]]; [vm_compute; reflexivity..|lia]).
Qed.

Lemma tbatches_conflict_free_witness :
  tb_interactionids (example_tbatch fresh_lib 1 0 0) = [0; 1]%nat
  ∧ NoDup (tb_user (example_tbatch fresh_lib 1 0 0))
  ∧ NoDup (tb_item (example_tbatch fresh_lib 1 0 0))
  ∧ of_stream (training_prefix example_args example_data) (example_tbatch fresh_lib 1 0 0).
Proof.
  split; [vm_compute; reflexivity|].
  apply (tbatches_conflict_free fresh_lib (λ _ _, Some tt) id id id example_span 3
           (training_prefix example_args example_data) empty_tbatches tt
           (example_run fresh_lib) (example_epoch fresh_lib 1)
           (example_flush fresh_lib 1 0) 0 (example_tbatch fresh_lib 1 0 0)).
  - intros t. reflexivity.
  - apply example_run_fresh.
  - apply (list_elem_of_lookup_2 _ 1%nat). apply example_epoch_fresh. lia.
  - apply (list_elem_of_lookup_2 _ 0%nat). apply example_flush_fresh; lia.
  - left. vm_compute. reflexivity.
Defined.

Lemma tbatches_processed_once_in_order_witness :
  (λ ib, (ib.1, tb_interactionids ib.2)) <$> fr_consumed (example_flush fresh_lib 0 0)
    = [(0, [0; 1]%nat)]
  ∧ keyed_from_zero (fr_accumulated (example_flush fresh_lib 0 0))
  ∧ StronglySorted Z.lt (fr_consumed (example_flush fresh_lib 0 0)).*1
  ∧ ∀ id b, fr_accumulated (example_flush fresh_lib 0 0) !! id = Some b
            ↔ (id, b) ∈ fr_consumed (example_flush fresh_lib 0 0).
Proof.
  split; [vm_compute; reflexivity|].
  apply (tbatches_processed_once_in_order fresh_lib (λ _ _, Some tt) id id id example_span 3
           (training_prefix example_args example_data) empty_tbatches tt
           (example_run fresh_lib) (example_epoch fresh_lib 0) (example_flush fresh_lib 0 0)).
  - apply fresh_lib_fresh.
  - apply example_run_fresh.
  - apply (list_elem_of_lookup_2 _ 0%nat). apply example_epoch_fresh. lia.
  - apply (list_elem_of_lookup_2 _ 0%nat). apply example_flush_fresh; lia.
Defined.

Lemma later_epochs_replay_cache_witness :
  is_Some (schedule_only_run fresh_lib example_span 3
             (training_prefix example_args example_data) empty_tbatches)
  ∧ assignment (example_epoch fresh_lib 2) = []
  ∧ cached_tbatches (example_epoch fresh_lib 2) = cached_tbatches (example_epoch fresh_lib 0)
  ∧ flushed (example_epoch fresh_lib 2) = flushed (example_epoch fresh_lib 0).
Proof.
  destruct (later_epochs_replay_cache fresh_lib (λ _ _, Some tt) id id id example_span 3
              (training_prefix example_args example_data) empty_tbatches tt)
    as [Htotal Hreplay].
  { apply fresh_lib_fresh. }
  split; [apply Htotal; intros b q; by eexists|].
  destruct (Hreplay (example_run fresh_lib) (example_epoch fresh_lib 0) 1%nat
              (example_epoch fresh_lib 2))
    as (Hlog & Hcache & _ & _ & _ & Hsame).
  - apply example_run_fresh.
  - apply example_epoch_fresh. lia.
  - apply example_epoch_fresh. lia.
  - split; [exact Hlog|]. split; [exact Hcache|]. apply Hsame. by vm_compute.
Defined.

Lemma previous_item_lookups_in_bounds_witness :
  tb_previous_item (tbatch_get (fr_accumulated (example_jodie_flush fresh_lib 0 0)) 0)
    = [3; 3]%nat
  ∧ is_Some (gather (item_embeddings (payload (example_jodie_epoch fresh_lib 0)))
               (tb_previous_item
                  (tbatch_get (fr_accumulated (example_jodie_flush fresh_lib 0 0)) 0)))
  ∧ is_Some (gather (eye (num_items example_data))
               (tb_previous_item
                  (tbatch_get (fr_accumulated (example_jodie_flush fresh_lib 0 0)) 0))).
Proof.
  split; [vm_compute; reflexivity|].
  destruct (previous_item_lookups_in_bounds (λ _ : unit, tt) (λ _, tt) (λ _ _ _ _ _, tt)
              (λ _ _ _ _ _, tt) (λ _ _ _ _ _ _ _, tt) (λ _ _, tt) tt
              example_args example_data fresh_lib empty_tbatches tt
              (example_jodie fresh_lib))
    as (_ & _ & Hlookups).
  - apply fresh_lib_clears.
  - repeat constructor.
  - vm_compute. reflexivity.
  - apply (Hlookups (example_jodie_epoch fresh_lib 0) (example_jodie_flush fresh_lib 0 0) 0).
    + apply (list_elem_of_lookup_2 _ 0%nat). vm_compute. reflexivity.
    + apply (list_elem_of_lookup_2 _ 0%nat). vm_compute. reflexivity.
    + apply (list_elem_of_lookup_2 _ 0%nat). vm_compute. reflexivity.
    + vm_compute. reflexivity.
Defined.

(** ** The library of the specification and the batch loop

    With counters that start at 0 and are kept across flushes, the ids of a
    window do not start at 0, but the batch loop does: the first flush over
    the example stream is handed the interactions 0 and 1 under id 1 and
    processes the empty batch 0 only; and the dictionaries it left in the
    cache grow under the reads of later epochs, so that the third epoch does
    not process what the second did. *)
Lemma spec_lib_flush_misses_batches :
  schedule_only_run spec_lib example_span 3 (training_prefix example_args example_data)
    empty_tbatches = Some (example_run spec_lib)
  ∧ tb_interactionids (example_tbatch spec_lib 0 0 1) = [0; 1]%nat
  ∧ (λ ib, (ib.1, tb_interactionids ib.2)) <$> fr_consumed (example_flush spec_lib 0 0)
      = [(0, [])]
  ∧ (λ r, length (fr_consumed r)) <$> flushed (example_epoch spec_lib 1) = [2; 2]%nat
  ∧ (λ r, length (fr_consumed r)) <$> flushed (example_epoch spec_lib 2) = [2; 3]%nat.
Proof.
  split; [vm_compute; reflexivity|]. split; [vm_compute; reflexivity|].
  split; [vm_compute; reflexivity|]. split; vm_compute; reflexivity.
Qed.

(** * Further properties of the script *)

(** ** Reading and writing rows of a table (lines 224-247) *)

Lemma scatter_lookup_other {A : Type} (table table' : list A) (ids : list nat)
    (rows : list A) (k : nat) :
  scatter table ids rows = Some table' → k ∉ ids → table' !! k = table !! k.
Proof.
  revert table rows. induction ids as [|i ids IH]; intros table rows Hsc Hk.
  { simpl in Hsc. by destruct rows; simplify_eq. }
  destruct rows as [|r rows]; [by simplify_eq/=|]. simpl in Hsc.
  destruct (decide (i < length table)%nat); [|done].
  apply not_elem_of_cons in Hk as [Hne Hk].
  rewrite (IH _ _ Hsc Hk). by rewrite list_lookup_insert_ne.
Qed.

Lemma scatter_lookup_row {A : Type} (table table' : list A) (ids : list nat)
    (rows : list A) (n i : nat) (r : A) :
  NoDup ids → scatter table ids rows = Some table' →
  ids !! n = Some i → rows !! n = Some r → table' !! i = Some r.
Proof.
  revert table rows n. induction ids as [|i' ids IH]; intros table rows n Hnd Hsc Hi Hr.
  { done. }
  destruct rows as [|r' rows]; [done|]. simpl in Hsc.
  destruct (decide (i' < length table)%nat) as [Hlt|]; [|done].
  apply NoDup_cons in Hnd as [Hnotin Hnd].
  destruct n as [|n]; simpl in Hi, Hr.
  - simplify_eq. rewrite (scatter_lookup_other _ _ _ _ _ Hsc Hnotin).
    by apply list_lookup_insert_eq.
  - by eapply IH.
Qed.

Lemma scatter_then_gather_rows {A : Type} (table table' : list A) (ids : list nat)
    (rows : list A) :
  NoDup ids → length rows = length ids →
  scatter table ids rows = Some table' → gather table' ids = Some rows.
Proof.
  intros Hnd Hlen Hsc. unfold gather. apply mapM_Some.
  apply Forall2_same_length_lookup. split; [done|].
  intros n i r Hi Hr. by eapply scatter_lookup_row.
Qed.




(** X2.  Writing rows under pairwise different indices and reading the same
    indices back yields the rows written; the rows of all other indices are
    as before. *)
Theorem scatter_then_gather {A : Type} (table table' : list A) (ids : list nat)
    (rows : list A) :
  NoDup ids → length rows = length ids →
  scatter table ids rows = Some table' →
  gather table' ids = Some rows
  ∧ length table' = length table
  ∧ ∀ k, k ∉ ids → table' !! k = table !! k.
Proof.
  intros Hnd Hlen Hsc. split; [|split].
  - by apply (scatter_then_gather_rows table).
  - by eapply scatter_length.
  - intros k Hk. by eapply scatter_lookup_other.
Qed.

Lemma scatter_then_gather_witness :
  gather [7; 20; 8] [2; 0]%nat = Some [8; 7]
  ∧ length [7; 20; 8] = length [10; 20; 30]
  ∧ ∀ k, k ∉ [2; 0]%nat → [7; 20; 8] !! k = [10; 20; 30] !! k.
Proof.
  apply (scatter_then_gather [10; 20; 30] [7; 20; 8] [2; 0]%nat [8; 7]).
  - refine (bool_decide_unpack _ _); vm_compute; exact I.
  - reflexivity.
  - reflexivity.
Defined.

Lemma scatter_lookup_written {A : Type} (table table' : list A) (ids : list nat)
    (rows : list A) (j : nat) :
  length rows = length ids →
  scatter table ids rows = Some table' → j ∈ ids →
  ∃ r, r ∈ rows ∧ table' !! j = Some r.
Proof.
  revert table rows. induction ids as [|i ids IH]; intros table rows Hlen Hsc Hj.
  { by apply elem_of_nil in Hj. }
  destruct rows as [|r rows]; [done|]. simpl in Hsc, Hlen.
  destruct (decide (i < length table)%nat) as [Hlt|]; [|done].
  destruct (decide (j ∈ ids)) as [Hin|Hnotin].
  - assert (length rows = length ids) as Hlen' by lia.
    destruct (IH _ _ Hlen' Hsc Hin) as (r' & Hr' & Hlook).
    exists r'. split; [by right|done].
  - apply elem_of_cons in Hj as [->|Hj]; [|done].
    exists r. split; [by left|].
    rewrite (scatter_lookup_other _ _ _ _ _ Hsc Hnotin). by apply list_lookup_insert_eq.
Qed.

Lemma written_lookup {emb : Type} (timeseries : list (option emb)) (j : nat) :
  written timeseries !! j = Some true ↔ ∃ e, timeseries !! j = Some (Some e).
Proof.
  unfold written. rewrite list_lookup_fmap.
  destruct (timeseries !! j) as [[e|]|]; simpl.
  - split; [by exists e|done].
  - split; [done|by intros [e ?]].
  - split; [done|by intros [e ?]].
Qed.

Lemma scatter_written {emb : Type} (timeseries timeseries' : list (option emb))
    (ids : list nat) (rows : list emb) (j : nat) :
  length rows = length ids →
  scatter timeseries ids (Some <$> rows) = Some timeseries' → j ∈ ids →
  written timeseries' !! j = Some true.
Proof.
  intros Hlen Hsc Hj. apply written_lookup.
  destruct (scatter_lookup_written timeseries timeseries' ids (Some <$> rows) j)
    as (r & Hr & Hlook); [by rewrite length_fmap|done|done|].
  apply list_elem_of_fmap in Hr as (e & -> & _). by exists e.
Qed.

Lemma gather_length {A : Type} (table : list A) (ids : list nat) (rows : list A) :
  gather table ids = Some rows → length rows = length ids.
Proof. intros Hg. unfold gather in Hg. apply length_mapM in Hg. done. Qed.

Section BatchUpdate.
Context {emb model loss : Type}.
Variable forward_user_update forward_item_update :
  model → emb → emb → Qc → feature → emb.
Variable tbatch_loss : model → bool → tbatch → list emb → list emb → list emb → loss → loss.
Variable a : args.
Variable d : network_data.

Lemma forward_length (f : model → emb → emb → Qc → feature → emb) (m : model)
    (us vs : list emb) (tds : list Qc) (fs : list feature) (n : nat) :
  length us = n → length vs = n → length tds = n → length fs = n →
  length (forward f m us vs tds fs) = n.
Proof.
  intros Hus Hvs Htds Hfs. unfold forward.
  rewrite length_zip_with, !length_zip. lia.
Qed.

(** What one batch does to the tables. *)
Lemma process_tbatch_scatters (b : tbatch) (td td' : train_data emb model loss) :
  process_tbatch forward_user_update forward_item_update tbatch_loss a d b td = Some td' →
  ∃ us vs,
    gather (user_embeddings td) (tb_user b) = Some us
    ∧ gather (item_embeddings td) (tb_item b) = Some vs
    ∧ scatter (item_embeddings td) (tb_item b)
        (forward forward_item_update (jodie_model td) us vs (tb_item_timediffs b)
           (tb_feature b)) = Some (item_embeddings td')
    ∧ scatter (user_embeddings td) (tb_user b)
        (forward forward_user_update (jodie_model td) us vs (tb_user_timediffs b)
           (tb_feature b)) = Some (user_embeddings td')
    ∧ scatter (user_embeddings_timeseries td) (tb_interactionids b)
        (Some <$> forward forward_user_update (jodie_model td) us vs
                    (tb_user_timediffs b) (tb_feature b))
      = Some (user_embeddings_timeseries td')
    ∧ scatter (item_embeddings_timeseries td) (tb_interactionids b)
        (Some <$> forward forward_item_update (jodie_model td) us vs
                    (tb_item_timediffs b) (tb_feature b))
      = Some (item_embeddings_timeseries td')
    ∧ jodie_model td' = jodie_model td.
Proof.
  unfold process_tbatch. intros H.
  bind_inv H E1. bind_inv H E2. bind_inv H E3. bind_inv H E4. bind_inv H E5.
  bind_inv H E6. bind_inv H E7. bind_inv H E8. bind_inv H E9. bind_inv H E10.
  injection H as <-. simpl. eexists _, _. repeat (split; [done|]). done.
Qed.

(** X3.  Processing a batch that holds no actor and no target twice
    replaces the embedding of each of its actors and targets by the update
    computed from the embeddings before the batch, leaves every other row
    of the two tables and every trajectory row of another interaction as it
    was, writes the trajectory rows of its own interactions, and leaves
    the model to the backward pass. *)
Theorem process_tbatch_updates (b : tbatch) (td td' : train_data emb model loss) :
  conflict_free b → aligned b →
  process_tbatch forward_user_update forward_item_update tbatch_loss a d b td = Some td' →
  ∃ us vs,
    gather (user_embeddings td) (tb_user b) = Some us
    ∧ gather (item_embeddings td) (tb_item b) = Some vs
    ∧ gather (user_embeddings td') (tb_user b)
      = Some (forward forward_user_update (jodie_model td) us vs (tb_user_timediffs b)
                (tb_feature b))
    ∧ gather (item_embeddings td') (tb_item b)
      = Some (forward forward_item_update (jodie_model td) us vs (tb_item_timediffs b)
                (tb_feature b))
    ∧ (∀ u, u ∉ tb_user b → user_embeddings td' !! u = user_embeddings td !! u)
    ∧ (∀ i, i ∉ tb_item b → item_embeddings td' !! i = item_embeddings td !! i)
    ∧ (∀ j, j ∉ tb_interactionids b →
         user_embeddings_timeseries td' !! j = user_embeddings_timeseries td !! j
         ∧ item_embeddings_timeseries td' !! j = item_embeddings_timeseries td !! j)
    ∧ (∀ j, j ∈ tb_interactionids b →
         written (user_embeddings_timeseries td') !! j = Some true
         ∧ written (item_embeddings_timeseries td') !! j = Some true)
    ∧ jodie_model td' = jodie_model td.
Proof.
  intros [Hu Hi] (Hlu & Hli & Hlf & Hlut & Hlit & _) Hp.
  apply process_tbatch_scatters in Hp
    as (us & vs & Hus & Hvs & Hsi & Hsu & Hstu & Hsti & Hm).
  pose proof (gather_length _ _ _ Hus) as Hlus.
  pose proof (gather_length _ _ _ Hvs) as Hlvs.
  set (n := length (tb_interactionids b)) in *.
  assert (length (forward forward_user_update (jodie_model td) us vs
                    (tb_user_timediffs b) (tb_feature b)) = n) as Hfu.
  { apply forward_length; congruence. }
  assert (length (forward forward_item_update (jodie_model td) us vs
                    (tb_item_timediffs b) (tb_feature b)) = n) as Hfi.
  { apply forward_length; congruence. }
  exists us, vs. split; [done|]. split; [done|].
  split. { eapply scatter_then_gather_rows; [done| |done]. congruence. }
  split. { eapply scatter_then_gather_rows; [done| |done]. congruence. }
  split. { intros u Hnotin. by eapply scatter_lookup_other. }
  split. { intros i Hnotin. by eapply scatter_lookup_other. }
  split. { intros j Hnotin. split; by eapply scatter_lookup_other. }
  split; [|done].
  intros j Hin. split.
  - eapply scatter_written; [|exact Hstu|done]. exact Hfu.
  - eapply scatter_written; [|exact Hsti|done]. exact Hfi.
Qed.
End BatchUpdate.

Lemma process_tbatch_updates_witness :
  gather (user_embeddings example_table_after) [0; 1]%nat = Some [11; 11]
  ∧ gather (item_embeddings example_table_after) [0; 1]%nat = Some [10; 10]
  ∧ user_embeddings example_table_after !! 2%nat = Some 1
  ∧ written (user_embeddings_timeseries example_table_after) = [true; true; false; false; false].
Proof.
  destruct (process_tbatch_updates (λ _ u v _ _, u + v) (λ _ u v _ _, u * v)
              (λ _ _ _ _ _ _ _, tt) example_args example_data example_pair
              example_table example_table_after)
    as (us & vs & Hus & Hvs & Hu & Hi & Hframe & _).
  - split; refine (bool_decide_unpack _ _); vm_compute; exact I.
  - repeat split.
  - vm_compute. reflexivity.
  - injection Hus as <-. injection Hvs as <-.
    split; [exact Hu|]. split; [exact Hi|].
    split; [|vm_compute; reflexivity].
    rewrite (Hframe 2%nat); [reflexivity|].
    refine (bool_decide_unpack _ _); vm_compute; exact I.
Defined.

(** ** Boundaries of the training, validation and test parts (lines 68-70) *)








(** ** The windows of an epoch (lines 181-187) *)

Lemma window_indices_in_window (j : nat) (w : window) :
  j ∈ window_indices w ↔ in_window j w.
Proof. unfold window_indices, in_window. rewrite elem_of_seq. lia. Qed.

Lemma StronglySorted_lt_NoDup (l : list Qc) : StronglySorted Qclt l → NoDup l.
Proof.
  induction 1 as [|q l Hsorted IH Hall]; [by constructor|].
  constructor; [|done]. intros Hin. rewrite Forall_forall in Hall.
  by apply Hall, Qclt_not_eq in Hin.
Qed.

Lemma join_singleton {A : Type} (l : list A) : mjoin [l] = l.
Proof. simpl. apply app_nil_r. Qed.

Section Windows.
Context {P : Type}.
Variable L : Lib.
Variable process_tbatch : tbatch → P → option P.
Variable backpropagate : P → P.
Variable span : Qc.

Lemma steps_tile (first : bool) (ys : list interaction) (k : nat) (st st' : loop_state P) :
  for_each (interaction_step L process_tbatch backpropagate span first)
    (enumerate_from k ys) st = Some st' →
  (window_first st ≤ k)%nat →
  mjoin (window_indices <$> (fr_window <$> flushed st)) = seq 0 (window_first st) →
  (window_first st' ≤ k + length ys)%nat
  ∧ mjoin (window_indices <$> (fr_window <$> flushed st')) = seq 0 (window_first st').
Proof.
  revert k st. induction ys as [|y ys IH]; intros k st Hrun Hle Hcat; simpl in Hrun.
  { injection Hrun as <-. split; [lia|done]. }
  destruct (interaction_step L process_tbatch backpropagate span first (k, y) st)
    as [st1|] eqn:Hstep; [simpl in Hrun|done].
  destruct (scheduled_timing L first k y st) as (_ & Hw & Hf & _).
  assert ((window_first st1 ≤ S k)%nat
          ∧ mjoin (window_indices <$> (fr_window <$> flushed st1))
            = seq 0 (window_first st1)) as [Hle1 Hcat1].
  { apply interaction_step_Some in Hstep as [[_ ->]|[_ Hflush]].
    - simpl. rewrite Hw, Hf. split; [lia|done].
    - apply flush_Some in Hflush as (cur & bs & _ & _ & _ & _ & _ & _ & -> & _ & ->).
      split; [lia|]. rewrite !fmap_app, join_app, Hf, Hcat, Hw.
      rewrite !list_fmap_singleton, join_singleton.
      unfold window_indices. cbn [fr_window opening_index closing_index].
      rewrite <- seq_app. f_equal. lia. }
  destruct (IH _ _ Hrun Hle1 Hcat1) as [Hle' Hcat']. simpl. split; [lia|done].
Qed.

Lemma flush_windows_after (ys : list (nat * interaction)) (s : option Qc) (f : nat) :
  (0 ≤ span)%Qc →
  Forall (λ w, ∀ t, s = Some t → (t < closing_timestamp w)%Qc) (flush_windows span ys s f)
  ∧ StronglySorted Qclt (closing_timestamp <$> flush_windows span ys s f).
Proof.
  intros Hspan. revert s f. induction ys as [|[j y] ys IH]; intros s f; simpl.
  { split; constructor. }
  case_decide as Hlt.
  - destruct (IH (Some (timestamp y)) (S j)) as [Hafter Hsorted].
    assert (∀ t, s = Some t → (t < timestamp y)%Qc) as Hstart.
    { intros t ->. simpl in Hlt. apply Qclt_minus_iff.
      by apply Qcle_lt_trans with (y := span). }
    split.
    + constructor; [done|]. eapply Forall_impl; [exact Hafter|]. simpl.
      intros w Hw t Ht. apply Qclt_trans with (y := timestamp y); [by apply Hstart|].
      by apply Hw.
    + rewrite fmap_cons. constructor; [done|]. simpl. apply Forall_fmap.
      eapply Forall_impl; [exact Hafter|]. simpl. intros w Hw. by apply Hw.
  - destruct (IH (Some (default (timestamp y) s)) f) as [Hafter Hsorted].
    split; [|done]. eapply Forall_impl; [exact Hafter|]. simpl.
    intros w Hw t ->. by apply Hw.
Qed.

Lemma step_cache_keys (first : bool) (jx : nat * interaction) (st st' : loop_state P) :
  (∀ ts, is_Some (cached_tbatches st !! ts) ↔ ts ∈ closing_timestamps (flushed st)) →
  interaction_step L process_tbatch backpropagate span first jx st = Some st' →
  ∀ ts, is_Some (cached_tbatches st' !! ts) ↔ ts ∈ closing_timestamps (flushed st').
Proof.
  destruct jx as [j x]. intros Hkeys Hstep ts.
  destruct (scheduled_timing L first j x st) as (_ & _ & Hf & Hc & _).
  apply interaction_step_Some in Hstep as [[_ ->]|[_ Hflush]].
  - simpl. rewrite Hf, Hc. apply Hkeys.
  - apply flush_Some in Hflush as (cur & bs & _ & _ & _ & -> & _ & _ & _ & _ & ->).
    unfold closing_timestamps. rewrite fmap_app, elem_of_app, Hf, Hc. simpl.
    rewrite list_elem_of_singleton. destruct (decide (timestamp x = ts)) as [->|Hne].
    + rewrite lookup_insert_eq. split; [by right|by eexists].
    + rewrite lookup_insert_ne by done. rewrite Hkeys. unfold closing_timestamps.
      split; [by left|]. by intros [?|?].
Qed.

Lemma schedule_counts (j : nat) (x : interaction) (st : loop_state P) :
  total_interaction_count (schedule L j x st) = total_interaction_count st.
Proof. unfold schedule. by destruct (insert_interaction L j x (lib st)). Qed.

Lemma interaction_step_within (first : bool) (j : nat) (x : interaction)
    (st : loop_state P) :
  let st0 := if first then schedule L j x st else st in
  let start := default (timestamp x) (tbatch_start_time st) in
  (timestamp x - start ≤ span)%Qc →
  interaction_step L process_tbatch backpropagate span first (j, x) st
    = Some (set_start_time start st0).
Proof.
  intros st0 start Hwithin. unfold interaction_step. cbn [fst snd].
  assert (tbatch_start_time st0 = tbatch_start_time st) as Hs.
  { apply (scheduled_timing L first j x st). }
  fold st0. rewrite Hs. fold start. rewrite decide_False; [done|].
  by apply Qcle_not_lt.
Qed.

Lemma steps_within (first : bool) (ys : list interaction) (k : nat) (st : loop_state P)
    (s0 : Qc) :
  tbatch_start_time st = Some s0 →
  Forall (λ x, (timestamp x - s0 ≤ span)%Qc) ys →
  ∃ st', for_each (interaction_step L process_tbatch backpropagate span first)
           (enumerate_from k ys) st = Some st'
         ∧ flushed st' = flushed st ∧ payload st' = payload st
         ∧ total_interaction_count st' = total_interaction_count st
         ∧ cached_tbatches st' = cached_tbatches st.
Proof.
  revert k st. induction ys as [|y ys IH]; intros k st Hs Hall; simpl.
  { by eexists. }
  apply Forall_cons in Hall as [Hy Hall].
  rewrite interaction_step_within; [|by rewrite Hs]. simpl.
  destruct (scheduled_timing L first k y st) as (_ & _ & Hf & Hc & Hp).
  edestruct (IH (S k)) as (st' & -> & Hf' & Hp' & Hn' & Hc'); [|exact Hall|].
  { simpl. by rewrite Hs. }
  exists st'. split; [done|]. simpl in *.
  rewrite Hf', Hp', Hn', Hc', Hf, Hc, Hp. split; [done|]. split; [done|].
  split; [|done]. destruct first; [apply schedule_counts|done].
Qed.
End Windows.



(** X6.  When the span is not negative, the closing timestamps of the
    windows of an epoch increase strictly; the first epoch, which starts from
    an empty cache, therefore leaves one cache entry for each window it
    flushed, under the closing timestamp of the window, and overwrites
    none. *)
Theorem first_epoch_caches_each_window {P : Type} (L : Lib)
    (process_tbatch : tbatch → P → option P) (backpropagate : P → P) (span : Qc)
    (xs : list interaction) (t : tbatches) (p : P) (st : loop_state P) :
  (0 ≤ span)%Qc →
  train_epoch L process_tbatch backpropagate span true xs t ∅ p = Some st →
  StronglySorted Qclt (closing_timestamps (flushed st))
  ∧ (∀ ts, is_Some (cached_tbatches st !! ts) ↔ ts ∈ closing_timestamps (flushed st))
  ∧ size (cached_tbatches st) = length (flushed st).
Proof.
  intros Hspan Hrun.
  assert (StronglySorted Qclt (closing_timestamps (flushed st))) as Hsorted.
  { pose proof (flushed_windows _ _ _ _ _ _ _ _ Hrun) as Hw. simpl in Hw.
    replace (closing_timestamps (flushed st))
      with (closing_timestamp <$> (fr_window <$> flushed st))
      by (by rewrite <- list_fmap_compose).
    rewrite Hw. by apply flush_windows_after. }
  assert (∀ ts, is_Some (cached_tbatches st !! ts) ↔ ts ∈ closing_timestamps (flushed st))
    as Hkeys.
  { unfold train_epoch in Hrun.
    refine (for_each_invariant _
              (λ s, ∀ ts, is_Some (cached_tbatches s !! ts)
                          ↔ ts ∈ closing_timestamps (flushed s)) _ _ _ _ _ Hrun).
    - intros jx s s' _. apply step_cache_keys.
    - intros ts. simpl. rewrite lookup_empty. split; [by intros [? ?]|].
      intros Hin. by apply elem_of_nil in Hin. }
  split; [done|]. split; [done|].
  rewrite <- size_dom.
  replace (dom (cached_tbatches st)) with (list_to_set (C := gset Qc)
                                             (closing_timestamps (flushed st))).
  - rewrite size_list_to_set by by apply StronglySorted_lt_NoDup.
    unfold closing_timestamps. by rewrite length_fmap.
  - apply set_eq. intros ts. by rewrite elem_of_list_to_set, elem_of_dom, Hkeys.
Qed.

Lemma first_epoch_caches_each_window_witness :
  StronglySorted Qclt (closing_timestamps (flushed (example_epoch fresh_lib 0)))
  ∧ (∀ ts, is_Some (cached_tbatches (example_epoch fresh_lib 0) !! ts)
           ↔ ts ∈ closing_timestamps (flushed (example_epoch fresh_lib 0)))
  ∧ size (cached_tbatches (example_epoch fresh_lib 0))
    = length (flushed (example_epoch fresh_lib 0)).
Proof.
  apply (first_epoch_caches_each_window fresh_lib (λ _ _, Some tt) id example_span
           (training_prefix example_args example_data) empty_tbatches tt).
  - by vm_compute.
  - vm_compute. reflexivity.
Defined.

(** X7.  If no interaction of the training prefix is more than the span
    after the first one, the epoch closes no window: it does not raise, no
    batch is processed, no backward pass is made, and the embeddings, the
    interaction count and the cache are as at the start of the epoch. *)
Theorem no_flush_within_span {P : Type} (L : Lib)
    (process_tbatch : tbatch → P → option P) (backpropagate : P → P) (span : Qc)
    (first : bool) (xs : list interaction) (t : tbatches)
    (cache : gmap Qc (gmap Z tbatch)) (p : P) :
  (∀ x0, head xs = Some x0 → Forall (λ x, (timestamp x - timestamp x0 ≤ span)%Qc) xs) →
  ∃ st, train_epoch L process_tbatch backpropagate span first xs t cache p = Some st
        ∧ flushed st = [] ∧ payload st = p
        ∧ total_interaction_count st = 0%nat ∧ cached_tbatches st = cache.
Proof.
  intros Hwithin. unfold train_epoch. destruct xs as [|x0 xs]; simpl.
  { by eexists. }
  specialize (Hwithin x0 eq_refl). pose proof Hwithin as Hall.
  apply Forall_cons in Hall as [Hx0 Hall].
  rewrite interaction_step_within by done. simpl.
  set (st0 := if first then schedule L 0 x0 (epoch_init L t cache p)
              else epoch_init L t cache p).
  destruct (scheduled_timing L first 0 x0 (epoch_init L t cache p)) as (_ & _ & Hf & Hc & Hp).
  fold st0 in Hf, Hc, Hp.
  edestruct (steps_within L process_tbatch backpropagate span first xs 1
               (set_start_time (timestamp x0) st0) (timestamp x0))
    as (st' & -> & Hf' & Hp' & Hn' & Hc'); [done|done|].
  exists st'. split; [done|]. simpl in *. rewrite Hf', Hp', Hn', Hc', Hf, Hc, Hp.
  split; [done|]. split; [done|]. split; [|done].
  unfold st0. destruct first; [apply schedule_counts|done].
Qed.

Lemma no_flush_within_span_witness :
  ∃ st, schedule_only fresh_lib 0 false example_together empty_tbatches ∅ = Some st
        ∧ flushed st = [] ∧ payload st = tt
        ∧ total_interaction_count st = 0%nat ∧ cached_tbatches st = ∅.
Proof.
  apply (no_flush_within_span fresh_lib (λ _ _, Some tt) id 0%Qc false example_together
           empty_tbatches ∅ tt).
  intros x0 Hx0. injection Hx0 as <-.
  constructor; [by vm_compute|]. constructor; [by vm_compute|]. constructor.
Defined.

(** ** A later epoch and the cache (lines 190-197) *)

Section CacheMiss.
Context {P : Type}.
Variable L : Lib.
Variable process_tbatch : tbatch → P → option P.
Variable backpropagate : P → P.
Variable span : Qc.

Lemma steps_cache_miss (ys : list (nat * interaction)) (st : loop_state P) (w : window) :
  w ∈ flush_windows span ys (tbatch_start_time st) (window_first st) →
  cached_tbatches st !! closing_timestamp w = None →
  for_each (interaction_step L process_tbatch backpropagate span false) ys st = None.
Proof.
  revert st. induction ys as [|[j x] ys IH]; intros st Hw Hmiss; simpl in Hw |- *.
  { by apply elem_of_nil in Hw. }
  destruct (interaction_step L process_tbatch backpropagate span false (j, x) st)
    as [st1|] eqn:Hstep; [simpl|done].
  apply interaction_step_Some in Hstep as [[Hspan ->]|[Hspan Hflush]].
  - rewrite decide_False in Hw by done. by apply IH.
  - rewrite decide_True in Hw by done.
    apply elem_of_cons in Hw as [->|Hw].
    + simpl in Hmiss. unfold flush in Hflush. by rewrite Hmiss in Hflush.
    + apply flush_Some in Hflush as (cur & bs & Hsrc & _ & _ & Hc & Hs & _ & Hwf & _).
      apply IH; [by rewrite Hs, Hwf|]. rewrite Hc.
      rewrite lookup_insert_ne; [done|]. intros Heq. by rewrite Heq, Hmiss in Hsrc.
Qed.
End CacheMiss.

(** X8.  An epoch after the first raises if the closing timestamp of one of
    the windows of the training prefix has no entry in the cache: the cache
    is read, never filled, in a later epoch. *)
Theorem cache_miss_raises {P : Type} (L : Lib)
    (process_tbatch : tbatch → P → option P) (backpropagate : P → P) (span : Qc)
    (xs : list interaction) (t : tbatches) (cache : gmap Qc (gmap Z tbatch)) (p : P)
    (w : window) :
  w ∈ flush_windows span (enumerate_from 0 xs) None 0 →
  cache !! closing_timestamp w = None →
  train_epoch L process_tbatch backpropagate span false xs t cache p = None.
Proof. intros Hw Hmiss. unfold train_epoch. by eapply steps_cache_miss. Qed.

Lemma cache_miss_raises_witness :
  schedule_only fresh_lib example_span false (training_prefix example_args example_data)
    empty_tbatches ∅ = None.
Proof.
  apply (cache_miss_raises fresh_lib (λ _ _, Some tt) id example_span
           (training_prefix example_args example_data) empty_tbatches ∅ tt
           (fr_window (example_flush fresh_lib 0 1))).
  - apply (list_elem_of_lookup_2 _ 1%nat). vm_compute. reflexivity.
  - reflexivity.
Defined.

(** ** The embeddings and the log of flushes (lines 200-268) *)

Lemma for_each_app {A St : Type} (body : A → St → option St) (xs ys : list A) (s : St) :
  for_each body (xs ++ ys) s = for_each body xs s ≫= for_each body ys.
Proof.
  revert s. induction xs as [|x xs IH]; intros s; simpl; [done|].
  destruct (body x s) as [s'|]; simpl; [apply IH|done].
Qed.

Lemma join_cons {A : Type} (l : list A) (ls : list (list A)) : mjoin (l :: ls) = l ++ mjoin ls.
Proof. done. Qed.

Section Trace.
Context {P : Type}.
Variable L : Lib.
Variable process_tbatch : tbatch → P → option P.
Variable backpropagate : P → P.
Variable span : Qc.

Lemma tbatch_loop_trace (ks : list nat) (bs bs' : batch_loop_state P) :
  for_each (tbatch_step process_tbatch) ks bs = Some bs' →
  ∃ new,
    bl_consumed bs' = bl_consumed bs ++ new
    ∧ for_each (λ ib : Z * tbatch, process_tbatch ib.2) new (bl_payload bs)
      = Some (bl_payload bs')
    ∧ bl_count bs'
      = (bl_count bs
         + length (mjoin ((λ ib : Z * tbatch, tb_interactionids ib.2) <$> new)))%nat.
Proof.
  revert bs. induction ks as [|i ks IH]; intros bs Hloop; simpl in Hloop.
  { injection Hloop as <-. exists []. rewrite app_nil_r. simpl. split; [done|].
    split; [done|lia]. }
  destruct (tbatch_step process_tbatch i bs) as [bs1|] eqn:Hstep; [simpl in Hloop|done].
  apply IH in Hloop as (new & Hcons & Hproc & Hcount).
  unfold tbatch_step in Hstep.
  destruct (process_tbatch (tbatch_get (bl_current bs) (Z.of_nat i)) (bl_payload bs))
    as [p1|] eqn:Hp; [simpl in Hstep|done].
  injection Hstep as <-. simpl in Hcons, Hproc, Hcount.
  exists ((Z.of_nat i, tbatch_get (bl_current bs) (Z.of_nat i)) :: new).
  split; [by rewrite Hcons, <- (assoc_L (++))|]. split.
  - simpl. by rewrite Hp.
  - rewrite Hcount, fmap_cons, join_cons, length_app. cbn [snd]. lia.
Qed.

Lemma flush_trace (first : bool) (j : nat) (ts start : Qc) (st st' : loop_state P) :
  flush L process_tbatch backpropagate first j ts start st = Some st' →
  ∃ r, flushed st' = flushed st ++ [r]
       ∧ replay_flush process_tbatch backpropagate r (payload st) = Some (payload st')
       ∧ total_interaction_count st'
         = (total_interaction_count st + length (flush_interactionids r))%nat.
Proof.
  intros Hflush. unfold flush in Hflush.
  set (src := if first then Some (current_tbatches (lib st)) else cached_tbatches st !! ts)
    in *.
  destruct src as [cur|]; [simpl in Hflush|done].
  destruct (for_each _ _ _) as [bs|] eqn:Hloop; [simpl in Hflush|done].
  apply tbatch_loop_trace in Hloop as (new & Hcons & Hproc & Hcount).
  simpl in Hcons, Hproc, Hcount. injection Hflush as <-. simpl.
  eexists. split; [done|]. unfold replay_flush, flush_interactionids. simpl.
  rewrite Hcons, Hproc. simpl. by split.
Qed.

Lemma step_trace (first : bool) (jx : nat * interaction) (p : P) (st st' : loop_state P) :
  replay_flushes process_tbatch backpropagate (flushed st) p = Some (payload st)
  ∧ total_interaction_count st = length (mjoin (flush_interactionids <$> flushed st)) →
  interaction_step L process_tbatch backpropagate span first jx st = Some st' →
  replay_flushes process_tbatch backpropagate (flushed st') p = Some (payload st')
  ∧ total_interaction_count st' = length (mjoin (flush_interactionids <$> flushed st')).
Proof.
  destruct jx as [j x]. intros [Hreplay Hcount] Hstep.
  destruct (scheduled_timing L first j x st) as (_ & _ & Hf & _ & Hp).
  assert (total_interaction_count (if first then schedule L j x st else st)
          = total_interaction_count st) as Hn.
  { destruct first; [apply schedule_counts|done]. }
  apply interaction_step_Some in Hstep as [[_ ->]|[_ Hflush]].
  - simpl. by rewrite Hf, Hp, Hn.
  - apply flush_trace in Hflush as (r & -> & Hr & ->).
    rewrite Hf, Hp in *. rewrite Hn. unfold replay_flushes in *.
    rewrite for_each_app, Hreplay. simpl. rewrite Hr. simpl. split; [done|].
    rewrite fmap_app, join_app, length_app, list_fmap_singleton, join_singleton. lia.
Qed.
End Trace.

(** X9.  The embeddings at the end of an epoch are those at its start after
    the batches that the flushes processed, in the order in which they were
    processed, with one backward pass after the batches of each flush; and the
    interaction count of the epoch is the number of interactions in these
    batches.  Nothing else in the loop changes either. *)
Theorem payload_replays_flushes {P : Type} (L : Lib)
    (process_tbatch : tbatch → P → option P) (backpropagate : P → P) (span : Qc)
    (first : bool) (xs : list interaction) (t : tbatches)
    (cache : gmap Qc (gmap Z tbatch)) (p : P) (st : loop_state P) :
  train_epoch L process_tbatch backpropagate span first xs t cache p = Some st →
  replay_flushes process_tbatch backpropagate (flushed st) p = Some (payload st)
  ∧ total_interaction_count st = length (mjoin (flush_interactionids <$> flushed st)).
Proof.
  intros Hrun. unfold train_epoch in Hrun.
  refine (for_each_invariant _
            (λ s, replay_flushes process_tbatch backpropagate (flushed s) p
                  = Some (payload s)
                  ∧ total_interaction_count s
                    = length (mjoin (flush_interactionids <$> flushed s))) _ _ _ _ _ Hrun).
  - intros jx s s' _. apply step_trace.
  - done.
Qed.

Lemma payload_replays_flushes_witness :
  replay_flushes
    (process_tbatch (λ _ _ _ _ _, tt) (λ _ _ _ _ _, tt) (λ _ _ _ _ _ _ _, tt)
       example_args example_data)
    (backpropagate (λ _ _, tt) tt)
    (flushed (example_jodie_epoch fresh_lib 0)) example_jodie_start
    = Some (payload (example_jodie_epoch fresh_lib 0))
  ∧ total_interaction_count (example_jodie_epoch fresh_lib 0)
    = length (mjoin (flush_interactionids <$> flushed (example_jodie_epoch fresh_lib 0))).
Proof.
  apply (payload_replays_flushes fresh_lib
           (process_tbatch (λ _ _ _ _ _, tt) (λ _ _ _ _ _, tt) (λ _ _ _ _ _ _ _, tt)
              example_args example_data)
           (backpropagate (λ _ _, tt) tt) example_span true
           (training_prefix example_args example_data) empty_tbatches ∅
           example_jodie_start).
  vm_compute. reflexivity.
Defined.

(** ** The interactions of a window and its batches (lines 169-204) *)

Lemma join_update_perm {A : Type} (g g' : nat → list A) (s n k : nat) (y : A) :
  (s ≤ k < s + n)%nat → g' k = g k ++ [y] → (∀ i, i ≠ k → g' i = g i) →
  mjoin (g' <$> seq s n) ≡ₚ mjoin (g <$> seq s n) ++ [y].
Proof.
  intros Hk Hat Hother. revert s Hk. induction n as [|n IH]; intros s Hk; [lia|].
  cbn [seq]. rewrite !fmap_cons, !join_cons.
  destruct (decide (s = k)) as [->|Hne].
  - rewrite Hat.
    assert (g' <$> seq (S k) n = g <$> seq (S k) n) as ->.
    { apply Forall_fmap_ext, Forall_forall. intros i Hi%elem_of_seq. apply Hother. lia. }
    rewrite <- !(assoc_L (++)). f_equiv. apply Permutation_app_comm.
  - rewrite (Hother s Hne), <- (assoc_L (++)). f_equiv. apply IH. lia.
Qed.

Lemma tbatches_interactionids_seq (cur : gmap Z tbatch) :
  tbatches_interactionids cur
  = mjoin ((λ i : nat, tb_interactionids (tbatch_get cur (Z.of_nat i))) <$> seq 0 (size cur)).
Proof.
  unfold tbatches_interactionids, tbatches_in_range. by rewrite <- list_fmap_compose.
Qed.

Lemma tbatches_interactionids_empty : tbatches_interactionids ∅ = [].
Proof. rewrite tbatches_interactionids_seq, map_size_empty. done. Qed.

Section Covering.
Variable L : Lib.
Hypothesis Hfresh : reinit_fresh L.

(** Lines 169-179 on contiguous tables: the interaction is added to the
    interactions held, once. *)
Lemma insert_interaction_ids (j : nat) (x : interaction) (t : tbatches) :
  contiguous t →
  tbatches_interactionids (current_tbatches (insert_interaction L j x t).2)
    ≡ₚ tbatches_interactionids (current_tbatches t) ++ [j].
Proof.
  intros (Hkeyed & Husers & Hitems). unfold insert_interaction. simpl.
  unfold keyed_from_zero in Hkeyed.
  pose proof (contiguous_get L Hfresh t _ (userid x) Husers) as Hcu.
  pose proof (contiguous_get L Hfresh t _ (itemid x) Hitems) as Hci.
  set (new := Z.max (tbatchid_get L (tbatchid_user t) (userid x))
                    (tbatchid_get L (tbatchid_item t) (itemid x)) + 1) in *.
  set (b := tbatch_append j x (tbatch_get (current_tbatches t) new)).
  set (cur := current_tbatches t) in *.
  set (n := size cur) in *.
  assert (0 ≤ new ≤ Z.of_nat n) as Hnew by lia.
  assert (∀ i : nat, Z.of_nat i ≠ new →
            tb_interactionids (tbatch_get (<[new := b]> cur) (Z.of_nat i))
            = tb_interactionids (tbatch_get cur (Z.of_nat i))) as Hother.
  { intros i Hi. unfold tbatch_get. by rewrite lookup_insert_ne. }
  assert (tb_interactionids (tbatch_get (<[new := b]> cur) new)
          = tb_interactionids (tbatch_get cur new) ++ [j]) as Hat.
  { unfold tbatch_get at 1. by rewrite lookup_insert_eq. }
  rewrite !tbatches_interactionids_seq. fold n.
  destruct (decide (new = Z.of_nat n)) as [Hlast|Hinside].
  - assert (cur !! new = None) as Hnone.
    { apply eq_None_not_Some. rewrite Hkeyed. fold n. lia. }
    rewrite (map_size_insert_None _ _ _ Hnone). fold n.
    rewrite seq_S, fmap_app, join_app, list_fmap_singleton, join_singleton. simpl.
    rewrite <- Hlast, Hat.
    assert (tbatch_get cur new = empty_tbatch) as ->
      by (unfold tbatch_get; by rewrite Hnone).
    simpl.
    assert ((λ i : nat, tb_interactionids (tbatch_get (<[new := b]> cur) (Z.of_nat i)))
              <$> seq 0 n
            = (λ i : nat, tb_interactionids (tbatch_get cur (Z.of_nat i))) <$> seq 0 n)
      as ->; [|done].
    apply Forall_fmap_ext, Forall_forall. intros i Hi%elem_of_seq. apply Hother. lia.
  - assert (is_Some (cur !! new)) as Hsome by (apply Hkeyed; fold n; lia).
    rewrite (map_size_insert_Some _ _ _ Hsome). fold n.
    apply (join_update_perm _ _ 0 n (Z.to_nat new)).
    + lia.
    + rewrite Z2Nat.id by lia. exact Hat.
    + intros i Hi. apply Hother. lia.
Qed.
End Covering.

Section FirstEpochCovers.
Context {P : Type}.
Variable L : Lib.
Variable process_tbatch : tbatch → P → option P.
Variable backpropagate : P → P.
Variable span : Qc.
Hypothesis Hfresh : reinit_fresh L.

Lemma step_covers (k : nat) (y : interaction) (st st' : loop_state P) :
  covers_inv k st → cache_keyed (cached_tbatches st) →
  interaction_step L process_tbatch backpropagate span true (k, y) st = Some st' →
  covers_inv (S k) st' ∧ cache_keyed (cached_tbatches st').
Proof.
  intros (Hcontig & Hle & Hids & Hflushed) Hcache Hstep.
  pose proof (schedule_timing L k y st) as (_ & Hw & Hf & Hc & _).
  assert (contiguous (lib (schedule L k y st))) as Hcontig0.
  { rewrite (schedule_lib L). by apply insert_interaction_contiguous. }
  assert (tbatches_interactionids (current_tbatches (lib (schedule L k y st)))
            ≡ₚ seq (window_first st) (S k - window_first st)) as Hids0.
  { rewrite (schedule_lib L), insert_interaction_ids, Hids by done.
    replace (S k - window_first st)%nat with (S (k - window_first st)) by lia.
    rewrite seq_S. do 2 f_equiv. lia. }
  apply interaction_step_Some in Hstep as [[_ ->]|[_ Hflush]].
  - unfold covers_inv, set_start_time.
    cbn [lib window_first flushed cached_tbatches]. rewrite Hw, Hf, Hc. split; [|done].
    split; [done|]. split; [lia|]. by split.
  - pose proof Hflush as Hwf.
    apply flush_Some in Hwf as (_ & _ & _ & _ & _ & _ & _ & _ & Hwf & _).
    apply flush_keyed in Hflush as (cur & Hsrc & Hkeyed & Hlib & Hc' & _ & Hf');
      [|intros _; apply Hcontig0|by rewrite Hc].
    injection Hsrc as <-.
    unfold covers_inv. rewrite Hlib, Hwf, Hf', Hf, Hc', Hc, Hw. split.
    + split; [by apply contiguous_reinit|]. split; [lia|]. split.
      * rewrite (fresh_clears L Hfresh), tbatches_interactionids_empty.
        by rewrite Nat.sub_diag.
      * apply Forall_app. split; [done|]. constructor; [|constructor].
        exact Hids0.
    + intros ts cur Hcur. apply lookup_insert_Some in Hcur as [[_ <-]|[_ Hcur]].
      * apply Hcontig0.
      * by eapply Hcache.
Qed.

Lemma steps_cover (ys : list interaction) (k : nat) (st st' : loop_state P) :
  covers_inv k st → cache_keyed (cached_tbatches st) →
  for_each (interaction_step L process_tbatch backpropagate span true)
    (enumerate_from k ys) st = Some st' →
  covers_inv (k + length ys) st'.
Proof.
  revert k st. induction ys as [|y ys IH]; intros k st Hinv Hcache Hrun; simpl in Hrun.
  { injection Hrun as <-. by rewrite Nat.add_0_r. }
  destruct (interaction_step L process_tbatch backpropagate span true (k, y) st)
    as [st1|] eqn:Hstep; [simpl in Hrun|done].
  destruct (step_covers _ _ _ _ Hinv Hcache Hstep) as [Hinv1 Hcache1].
  simpl. rewrite <- Nat.add_succ_comm. by eapply IH.
Qed.

Lemma first_epoch_covers (xs : list interaction) (t : tbatches)
    (cache : gmap Qc (gmap Z tbatch)) (p : P) (st : loop_state P) :
  cache_keyed cache →
  train_epoch L process_tbatch backpropagate span true xs t cache p = Some st →
  Forall flush_covers (flushed st).
Proof.
  intros Hcache Hrun. unfold train_epoch in Hrun.
  apply steps_cover in Hrun as (_ & _ & _ & Hall); [done| |done].
  unfold covers_inv. simpl. split; [by apply contiguous_reinit|]. split; [lia|].
  split; [|constructor].
  by rewrite (fresh_clears L Hfresh), tbatches_interactionids_empty.
Qed.
End FirstEpochCovers.

(** *** Over the epochs of a run *)

Section Epochs.
Context {P : Type}.
Variable L : Lib.
Variable process_tbatch : tbatch → P → option P.
Variable backpropagate epoch_begin epoch_end : P → P.
Variable span : Qc.
Variable xs : list interaction.

Lemma epoch_step_Some (ep : nat) (rs rs' : run_state P) :
  epoch_step L process_tbatch backpropagate epoch_begin epoch_end span xs ep rs = Some rs' →
  ∃ st,
    train_epoch L process_tbatch backpropagate span (is_first_epoch rs) xs (rs_lib rs)
      (rs_cached_tbatches rs) (epoch_begin (rs_payload rs)) = Some st
    ∧ rs_epochs rs' = rs_epochs rs ++ [st]
    ∧ rs_payload rs' = epoch_end (payload st)
    ∧ rs_cached_tbatches rs' = cached_tbatches st
    ∧ is_first_epoch rs' = false.
Proof.
  unfold epoch_step. intros Hstep.
  destruct (train_epoch _ _ _ _ _ _ _ _ _) as [st|]; [simpl in Hstep|done].
  injection Hstep as <-. by exists st.
Qed.

(** The first epoch of a run schedules, from an empty cache. *)
Lemma train_first_epoch (n : nat) (t : tbatches) (p : P) (rs : run_state P)
    (st1 : loop_state P) (later : list (loop_state P)) :
  train L process_tbatch backpropagate epoch_begin epoch_end span n xs t p = Some rs →
  rs_epochs rs = st1 :: later →
  train_epoch L process_tbatch backpropagate span true xs t ∅ (epoch_begin p) = Some st1.
Proof.
  unfold train. intros Hrun Hepochs.
  set (init := {| is_first_epoch := true; rs_lib := t; rs_cached_tbatches := ∅;
                  rs_payload := p; rs_epochs := [] |}) in *.
  cut (match rs_epochs rs with
       | [] => rs = init
       | st :: _ => train_epoch L process_tbatch backpropagate span true xs t ∅
                      (epoch_begin p) = Some st
       end).
  { by rewrite Hepochs. }
  refine (for_each_invariant _
            (λ s, match rs_epochs s with
                  | [] => s = init
                  | st :: _ => train_epoch L process_tbatch backpropagate span true xs t ∅
                                 (epoch_begin p) = Some st
                  end) _ _ _ _ _ Hrun).
  - intros ep s s' _ Hs Hstep.
    apply epoch_step_Some in Hstep as (st & Hepoch & -> & _).
    destruct (rs_epochs s) as [|st0 rest]; [|done].
    subst s. exact Hepoch.
  - unfold init. simpl. reflexivity.
Qed.

(** Every epoch logged is a run of the interaction loop. *)
Lemma train_epochs_run (n : nat) (t : tbatches) (p : P) (rs : run_state P)
    (st : loop_state P) :
  train L process_tbatch backpropagate epoch_begin epoch_end span n xs t p = Some rs →
  st ∈ rs_epochs rs →
  ∃ first t' cache q,
    train_epoch L process_tbatch backpropagate span first xs t' cache (epoch_begin q)
    = Some st.
Proof.
  unfold train. intros Hrun Hst.
  cut (Forall (λ st, ∃ first t' cache q,
                 train_epoch L process_tbatch backpropagate span first xs t' cache
                   (epoch_begin q) = Some st) (rs_epochs rs)).
  { intros Hall. rewrite Forall_forall in Hall. by apply Hall. }
  refine (for_each_invariant _
            (λ s, Forall (λ st, ∃ first t' cache q,
                            train_epoch L process_tbatch backpropagate span first xs t'
                              cache (epoch_begin q) = Some st) (rs_epochs s))
            _ _ _ _ _ Hrun).
  - intros ep s s' _ Hs Hstep.
    apply epoch_step_Some in Hstep as (st' & Hepoch & -> & _).
    apply Forall_app. split; [done|].
    constructor; [|constructor]. by eexists _, _, _, _.
  - constructor.
Qed.

Hypothesis Hfresh : reinit_fresh L.

(** With a span that is not negative, all epochs log the flushes of the
    first. *)
Lemma train_same_flushes (n : nat) (t : tbatches) (p : P) (rs : run_state P)
    (st1 st : loop_state P) (later : list (loop_state P)) :
  (0 ≤ span)%Qc →
  train L process_tbatch backpropagate epoch_begin epoch_end span n xs t p = Some rs →
  rs_epochs rs = st1 :: later → st ∈ rs_epochs rs →
  flushed st = flushed st1.
Proof.
  intros Hspan Hrun Hepochs Hst.
  apply (train_keyed L _ _ _ _ _ xs Hfresh) in Hrun as [_ Hkeyed].
  rewrite Hepochs in Hkeyed, Hst.
  destruct Hkeyed as (_ & _ & (_ & Hwindows & _ & Hown) & Hlater).
  apply elem_of_cons in Hst as [->|Hst]; [done|].
  rewrite Forall_forall in Hlater. destruct (Hlater st Hst) as [_ Hflushed].
  rewrite Hflushed, <- Hwindows. symmetry. by apply replayed_records, Hown.
Qed.

Lemma train_flush_covers (n : nat) (t : tbatches) (p : P) (rs : run_state P)
    (st : loop_state P) :
  (0 ≤ span)%Qc →
  train L process_tbatch backpropagate epoch_begin epoch_end span n xs t p = Some rs →
  st ∈ rs_epochs rs → Forall flush_covers (flushed st).
Proof.
  intros Hspan Hrun Hst.
  destruct (rs_epochs rs) as [|st1 later] eqn:Hepochs; [by apply elem_of_nil in Hst|].
  rewrite <- Hepochs in Hst.
  rewrite (train_same_flushes _ _ _ _ _ _ _ Hspan Hrun Hepochs Hst).
  apply (train_first_epoch _ _ _ _ _ _ Hrun) in Hepochs.
  eapply first_epoch_covers; [done| |exact Hepochs].
  intros ts cur. by rewrite lookup_empty.
Qed.
End Epochs.

Lemma covers_length (rs : list flush_record) :
  Forall flush_covers rs →
  length (mjoin (flush_interactionids <$> rs))
  = length (mjoin (window_indices <$> (fr_window <$> rs))).
Proof.
  induction 1 as [|r rs Hr _ IH]; [done|].
  rewrite !fmap_cons, !join_cons, !length_app, IH. f_equal.
  by apply Permutation_length.
Qed.

(** X10.  Under a library that starts every window from new tables and with
    a span that is not negative, the batches a flush processes hold the
    interactions of its window and no others, each of them in one batch and
    once; in the first epoch and in every later one. *)
Theorem flush_processes_its_window {P : Type} (L : Lib)
    (process_tbatch : tbatch → P → option P) (backpropagate epoch_begin epoch_end : P → P)
    (span : Qc) (n : nat) (xs : list interaction) (t : tbatches) (p : P)
    (rs : run_state P) (st : loop_state P) (r : flush_record) :
  reinit_fresh L → (0 ≤ span)%Qc →
  train L process_tbatch backpropagate epoch_begin epoch_end span n xs t p = Some rs →
  st ∈ rs_epochs rs → r ∈ flushed st →
  flush_interactionids r ≡ₚ window_indices (fr_window r)
  ∧ NoDup (flush_interactionids r)
  ∧ ∀ j, j ∈ flush_interactionids r ↔ in_window j (fr_window r).
Proof.
  intros Hfresh Hspan Hrun Hst Hr.
  pose proof (train_flush_covers L _ _ _ _ _ xs Hfresh _ _ _ _ _ Hspan Hrun Hst) as Hall.
  rewrite Forall_forall in Hall. specialize (Hall r Hr). unfold flush_covers in Hall.
  split; [done|]. split.
  - rewrite Hall. apply NoDup_seq.
  - intros j. rewrite Hall. apply window_indices_in_window.
Qed.

Lemma flush_processes_its_window_witness :
  flush_interactionids (example_flush fresh_lib 2 0)
    ≡ₚ window_indices (fr_window (example_flush fresh_lib 2 0))
  ∧ NoDup (flush_interactionids (example_flush fresh_lib 2 0))
  ∧ ∀ j, j ∈ flush_interactionids (example_flush fresh_lib 2 0)
         ↔ in_window j (fr_window (example_flush fresh_lib 2 0)).
Proof.
  apply (flush_processes_its_window fresh_lib (λ _ _, Some tt) id id id example_span 3
           (training_prefix example_args example_data) empty_tbatches tt
           (example_run fresh_lib) (example_epoch fresh_lib 2)).
  - apply fresh_lib_fresh.
  - by vm_compute.
  - apply example_run_fresh.
  - apply (list_elem_of_lookup_2 _ 2%nat). apply example_epoch_fresh. lia.
  - apply (list_elem_of_lookup_2 _ 0%nat). apply example_flush_fresh; lia.
Defined.

(** X11.  Under the same conditions the interaction count of every epoch is
    the number of interactions up to the last closing one: every interaction
    of a flushed window is counted once, and those read after the last flush
    are not counted. *)
Theorem interaction_count_is_flushed_prefix {P : Type} (L : Lib)
    (process_tbatch : tbatch → P → option P) (backpropagate epoch_begin epoch_end : P → P)
    (span : Qc) (n : nat) (xs : list interaction) (t : tbatches) (p : P)
    (rs : run_state P) (st : loop_state P) :
  reinit_fresh L → (0 ≤ span)%Qc →
  train L process_tbatch backpropagate epoch_begin epoch_end span n xs t p = Some rs →
  st ∈ rs_epochs rs →
  total_interaction_count st = window_first st ∧ (window_first st ≤ length xs)%nat.
Proof.
  intros Hfresh Hspan Hrun Hst.
  pose proof (train_flush_covers L _ _ _ _ _ xs Hfresh _ _ _ _ _ Hspan Hrun Hst) as Hall.
  destruct (train_epochs_run _ _ _ _ _ _ _ _ _ _ _ _ Hrun Hst)
    as (first & t' & cache & q & Hepoch).
  unfold train_epoch in Hepoch.
  pose proof Hepoch as Htile.
  apply steps_tile in Htile as [Hle Hcat]; [|simpl; lia|done]. simpl in Hle.
  split; [|done].
  assert (total_interaction_count st
          = length (mjoin (flush_interactionids <$> flushed st))) as ->.
  { refine (proj2 (for_each_invariant _
              (λ s, replay_flushes process_tbatch backpropagate (flushed s) (epoch_begin q)
                    = Some (payload s)
                    ∧ total_interaction_count s
                      = length (mjoin (flush_interactionids <$> flushed s)))
              _ _ _ _ _ Hepoch)).
    - intros jx s s' _. apply step_trace.
    - done. }
  by rewrite (covers_length _ Hall), Hcat, length_seq.
Qed.

Lemma interaction_count_is_flushed_prefix_witness :
  total_interaction_count (example_epoch fresh_lib 1) = window_first (example_epoch fresh_lib 1)
  ∧ (window_first (example_epoch fresh_lib 1)
     ≤ length (training_prefix example_args example_data))%nat.
Proof.
  apply (interaction_count_is_flushed_prefix fresh_lib (λ _ _, Some tt) id id id
           example_span 3 (training_prefix example_args example_data) empty_tbatches tt
           (example_run fresh_lib) (example_epoch fresh_lib 1)).
  - apply fresh_lib_fresh.
  - by vm_compute.
  - apply example_run_fresh.
  - apply (list_elem_of_lookup_2 _ 1%nat). apply example_epoch_fresh. lia.
Defined.

(** *** Shapes of the batches of a window *)

Lemma filled_append (j : nat) (x : interaction) (b : tbatch) :
  b = empty_tbatch ∨ filled b → filled (tbatch_append j x b).
Proof.
  intros Hb.
  assert (aligned b) as (H1 & H2 & H3 & H4 & H5 & H6).
  { destruct Hb as [->|[Hb _]]; [by repeat split|done]. }
  split.
  - unfold aligned. simpl. rewrite !length_app. simpl. lia.
  - simpl. intros Hnil. by apply app_nil in Hnil as [_ ?].
Qed.

Section Shapes.
Context {P : Type}.
Variable L : Lib.
Variable process_tbatch : tbatch → P → option P.
Variable backpropagate epoch_begin epoch_end : P → P.
Variable span : Qc.
Variable xs : list interaction.
Variable Q : tbatch → Prop.
Hypothesis Hfresh : reinit_fresh L.
Hypothesis Happend : ∀ j x b, b = empty_tbatch ∨ Q b → Q (tbatch_append j x b).

Lemma insert_interaction_shapes (j : nat) (x : interaction) (t : tbatches) :
  all_tbatches Q (current_tbatches t) →
  all_tbatches Q (current_tbatches (insert_interaction L j x t).2).
Proof.
  intros Hall id b. unfold insert_interaction. simpl.
  intros [[_ <-]|[_ Hb]]%lookup_insert_Some; [|by eapply Hall].
  apply Happend. unfold tbatch_get.
  destruct (current_tbatches t !! _) as [b'|] eqn:Hb'; simpl; [right|by left].
  by eapply Hall.
Qed.

Lemma first_step_shapes (jx : nat * interaction) (st st' : loop_state P) :
  shapes_inv Q st →
  interaction_step L process_tbatch backpropagate span true jx st = Some st' →
  shapes_inv Q st'.
Proof.
  destruct jx as [j x]. intros (Hcontig & Hcur & Hkeyed & Hcache & Hflushed) Hstep.
  pose proof (schedule_timing L j x st) as (_ & _ & Hf & Hc & _).
  assert (contiguous (lib (schedule L j x st))) as Hcontig0.
  { rewrite (schedule_lib L). by apply insert_interaction_contiguous. }
  assert (all_tbatches Q (current_tbatches (lib (schedule L j x st)))) as Hcur0.
  { rewrite (schedule_lib L). by apply insert_interaction_shapes. }
  apply interaction_step_Some in Hstep as [[_ ->]|[_ Hflush]].
  - unfold shapes_inv, set_start_time. cbn [lib flushed cached_tbatches].
    by rewrite Hf, Hc.
  - apply flush_keyed in Hflush as (cur & Hsrc & Hk & Hlib & Hc' & _ & Hf');
      [|intros _; apply Hcontig0|by rewrite Hc].
    injection Hsrc as <-.
    unfold shapes_inv. rewrite Hlib, Hf', Hf, Hc', Hc.
    split; [by apply contiguous_reinit|]. split.
    { rewrite (fresh_clears L Hfresh). intros id b. by rewrite lookup_empty. }
    split.
    { intros ts cur. intros [[_ <-]|[_ Hcur']]%lookup_insert_Some; [done|].
      by eapply Hkeyed. }
    split.
    { intros ts cur. intros [[_ <-]|[_ Hcur']]%lookup_insert_Some; [done|].
      by eapply Hcache. }
    apply Forall_app. split; [done|]. by constructor.
Qed.

Lemma train_shapes (n : nat) (t : tbatches) (p : P) (rs : run_state P)
    (st : loop_state P) (r : flush_record) (id : Z) (b : tbatch) :
  train L process_tbatch backpropagate epoch_begin epoch_end span n xs t p = Some rs →
  st ∈ rs_epochs rs → r ∈ flushed st → (id, b) ∈ fr_consumed r → Q b.
Proof.
  intros Hrun Hst Hr Hb.
  pose proof (train_keyed L _ _ _ _ _ xs Hfresh _ _ _ _ Hrun) as Hkeyed.
  pose proof (run_keyed_in_order _ _ _ _ Hkeyed Hst) as Horder.
  rewrite Forall_forall in Horder. destruct (Horder r Hr) as [Hk Hcons].
  rewrite Hcons in Hb. apply tbatches_in_range_keyed in Hb; [|done].
  cut (all_tbatches Q (fr_accumulated r)). { intros Hall. by eapply Hall. }
  clear Horder Hk Hcons Hb id b.
  destruct (rs_epochs rs) as [|st1 later] eqn:Hepochs; [by apply elem_of_nil in Hst|].
  pose proof (train_first_epoch _ _ _ _ _ _ _ _ _ _ _ _ _ Hrun Hepochs) as Hfirst.
  assert (shapes_inv Q st1) as (_ & _ & _ & Hcache & Hflushed).
  { unfold train_epoch in Hfirst.
    refine (for_each_invariant _ (shapes_inv Q) _ _ _ _ _ Hfirst).
    - intros jx s s' _. apply first_step_shapes.
    - unfold shapes_inv. simpl. split; [by apply contiguous_reinit|]. split.
      { rewrite (fresh_clears L Hfresh). intros id b. by rewrite lookup_empty. }
      split; [intros ts cur; by rewrite lookup_empty|].
      split; [intros ts cur; by rewrite lookup_empty|constructor]. }
  destruct Hkeyed as [_ Hkeyed]. rewrite Hepochs in Hkeyed.
  destruct Hkeyed as (_ & _ & _ & Hlater).
  apply elem_of_cons in Hst as [->|Hst].
  - rewrite Forall_forall in Hflushed. by apply Hflushed.
  - rewrite Forall_forall in Hlater. destruct (Hlater st Hst) as [(_ & _ & Hreplayed) _].
    rewrite Forall_forall in Hreplayed. destruct (Hreplayed r Hr) as [Hlook _].
    by eapply Hcache.
Qed.
End Shapes.

(** X12.  Under a library that starts every window from new tables, every
    batch the loop processes, in any epoch, holds at least one interaction,
    and its seven lists have the same length: no empty batch reaches the
    model, and the tensors of a batch fit together. *)
Theorem processed_tbatches_filled {P : Type} (L : Lib)
    (process_tbatch : tbatch → P → option P) (backpropagate epoch_begin epoch_end : P → P)
    (span : Qc) (n : nat) (xs : list interaction) (t : tbatches) (p : P)
    (rs : run_state P) (st : loop_state P) (r : flush_record) (id : Z) (b : tbatch) :
  reinit_fresh L →
  train L process_tbatch backpropagate epoch_begin epoch_end span n xs t p = Some rs →
  st ∈ rs_epochs rs → r ∈ flushed st → (id, b) ∈ fr_consumed r →
  tb_interactionids b ≠ []
  ∧ length (tb_user b) = length (tb_interactionids b)
  ∧ length (tb_item b) = length (tb_interactionids b)
  ∧ length (tb_feature b) = length (tb_interactionids b)
  ∧ length (tb_user_timediffs b) = length (tb_interactionids b)
  ∧ length (tb_item_timediffs b) = length (tb_interactionids b)
  ∧ length (tb_previous_item b) = length (tb_interactionids b).
Proof.
  intros Hfresh Hrun Hst Hr Hb.
  destruct (train_shapes L _ _ _ _ _ xs filled Hfresh filled_append _ _ _ _ _ _ _ _
              Hrun Hst Hr Hb) as [Haligned Hne].
  by split.
Qed.

Lemma processed_tbatches_filled_witness :
  tb_interactionids (example_tbatch fresh_lib 1 0 0) ≠ []
  ∧ length (tb_user (example_tbatch fresh_lib 1 0 0))
    = length (tb_interactionids (example_tbatch fresh_lib 1 0 0))
  ∧ length (tb_item (example_tbatch fresh_lib 1 0 0))
    = length (tb_interactionids (example_tbatch fresh_lib 1 0 0))
  ∧ length (tb_feature (example_tbatch fresh_lib 1 0 0))
    = length (tb_interactionids (example_tbatch fresh_lib 1 0 0))
  ∧ length (tb_user_timediffs (example_tbatch fresh_lib 1 0 0))
    = length (tb_interactionids (example_tbatch fresh_lib 1 0 0))
  ∧ length (tb_item_timediffs (example_tbatch fresh_lib 1 0 0))
    = length (tb_interactionids (example_tbatch fresh_lib 1 0 0))
  ∧ length (tb_previous_item (example_tbatch fresh_lib 1 0 0))
    = length (tb_interactionids (example_tbatch fresh_lib 1 0 0)).
Proof.
  apply (processed_tbatches_filled fresh_lib (λ _ _, Some tt) id id id example_span 3
           (training_prefix example_args example_data) empty_tbatches tt
           (example_run fresh_lib) (example_epoch fresh_lib 1)
           (example_flush fresh_lib 1 0) 0 (example_tbatch fresh_lib 1 0 0)).
  - apply fresh_lib_fresh.
  - apply example_run_fresh.
  - apply (list_elem_of_lookup_2 _ 1%nat). apply example_epoch_fresh. lia.
  - apply (list_elem_of_lookup_2 _ 0%nat). apply example_flush_fresh; lia.
  - apply (list_elem_of_lookup_2 _ 0%nat). vm_compute. reflexivity.
Defined.

(** *** The batch id of an interaction is the least possible *)

Lemma earliest_mono (log log' : list assigned) (flushes flushes' : list flush_record)
    (a : assigned) :
  log ⊆ log' →
  (∀ r, r ∈ flushes' → r ∈ flushes ∨ (as_index a ≤ closing_index (fr_window r))%nat) →
  earliest log flushes a → earliest log' flushes' a.
Proof.
  intros Hlog Hflushes [Hnonneg Hblocked]. split; [done|]. intros Hpos.
  destruct (Hblocked Hpos) as (a' & Ha' & Hlt & Hid & Hshare & Hwindow).
  exists a'. split; [by apply Hlog|]. split; [done|]. split; [done|]. split; [done|].
  intros r Hr. destruct (Hflushes r Hr) as [Hold|Hlater]; [by apply Hwindow|lia].
Qed.

Section Greedy.
Context {P : Type}.
Variable L : Lib.
Variable process_tbatch : tbatch → P → option P.
Variable backpropagate : P → P.
Variable span : Qc.
Hypothesis Hfresh : reinit_fresh L.

Lemma tbatchid_get_stored (table : gmap nat Z) (k : nat) :
  0 ≤ tbatchid_get L table k → table !! k = Some (tbatchid_get L table k).
Proof.
  destruct Hfresh as [Hd _]. unfold tbatchid_get. rewrite Hd.
  destruct (table !! k) as [c|]; simpl; [done|lia].
Qed.

Lemma schedule_earliest (k : nat) (y : interaction) (st : loop_state P) :
  earliest_inv k st → earliest_inv (S k) (schedule L k y st).
Proof.
  intros (Hcontig & Hle & Hu & Hi & Hclosed & Hlog).
  pose proof (schedule_timing L k y st) as (_ & Hw & Hf & _).
  pose proof (schedule_assignment L k y st) as Ha. cbv zeta in Ha.
  pose proof (schedule_lib L k y st) as Hlib.
  destruct Hcontig as (Hkeyed & Husers & Hitems).
  pose proof (contiguous_get L Hfresh (lib st) _ (userid y) Husers) as Hcu.
  pose proof (contiguous_get L Hfresh (lib st) _ (itemid y) Hitems) as Hci.
  unfold insert_interaction in Ha, Hlib. cbn [fst snd] in Ha, Hlib.
  set (cu := tbatchid_get L (tbatchid_user (lib st)) (userid y)) in *.
  set (ci := tbatchid_get L (tbatchid_item (lib st)) (itemid y)) in *.
  set (a := {| as_index := k; as_user := userid y; as_item := itemid y;
               as_tbatch := Z.max cu ci + 1 |}) in *.
  assert (earliest (assignment st ++ [a]) (flushed st) a) as Hnew.
  { split; [simpl; lia|]. simpl. intros Hpos.
    assert (∃ a', a' ∈ assignment st ∧ as_tbatch a' = Z.max cu ci
                  ∧ (as_user a' = userid y ∨ as_item a' = itemid y)
                  ∧ (window_first st ≤ as_index a' < k)%nat)
      as (a' & Ha' & Hid & Hshare & Hidx).
    { destruct (Z.max_spec cu ci) as [[Hlt Hmax]|[Hge Hmax]]; rewrite Hmax.
      - destruct (Hi (itemid y) ci) as (a' & ? & ? & ? & ?).
        { apply tbatchid_get_stored. fold ci. lia. }
        exists a'. split; [done|]. split; [done|]. split; [by right|done].
      - destruct (Hu (userid y) cu) as (a' & ? & ? & ? & ?).
        { apply tbatchid_get_stored. fold cu. lia. }
        exists a'. split; [done|]. split; [done|]. split; [by left|done]. }
    exists a'. split; [apply elem_of_app; by left|].
    split; [simpl; lia|]. split; [simpl; lia|]. split; [done|].
    intros r Hr. rewrite Forall_forall in Hclosed. specialize (Hclosed r Hr). lia. }
  unfold earliest_inv. rewrite Hw, Hf, Ha, Hlib. simpl.
  split; [rewrite <- Hlib, (schedule_lib L); by apply insert_interaction_contiguous|].
  split; [lia|]. split; [|split; [|split; [done|]]].
  - intros u c. intros [[<- <-]|[_ Hc]]%lookup_insert_Some.
    + exists a. split; [apply elem_of_app; right; by apply list_elem_of_singleton|].
      split; [done|]. split; [done|]. simpl. lia.
    + destruct (Hu u c Hc) as (a' & ? & ? & ? & ?). exists a'.
      split; [apply elem_of_app; by left|]. split; [done|]. split; [done|]. lia.
  - intros i c. intros [[<- <-]|[_ Hc]]%lookup_insert_Some.
    + exists a. split; [apply elem_of_app; right; by apply list_elem_of_singleton|].
      split; [done|]. split; [done|]. simpl. lia.
    + destruct (Hi i c Hc) as (a' & ? & ? & ? & ?). exists a'.
      split; [apply elem_of_app; by left|]. split; [done|]. split; [done|]. lia.
  - apply Forall_app. split.
    + eapply Forall_impl; [exact Hlog|]. simpl. intros a0 [Hidx Hearly].
      split; [lia|]. eapply earliest_mono; [| |exact Hearly].
      * intros a1 Ha1. apply elem_of_app. by left.
      * intros r Hr. by left.
    + constructor; [|constructor]. split; [simpl; lia|done].
Qed.

Lemma step_earliest (k : nat) (y : interaction) (st st' : loop_state P) :
  earliest_inv k st →
  interaction_step L process_tbatch backpropagate span true (k, y) st = Some st' →
  earliest_inv (S k) st'.
Proof.
  intros Hinv Hstep. apply (schedule_earliest k y) in Hinv.
  apply interaction_step_Some in Hstep as [[_ ->]|[_ Hflush]]; [done|].
  destruct Hinv as (_ & Hle & _ & _ & Hclosed & Hlog).
  apply flush_Some in Hflush
    as (cur & bs & _ & _ & Hlib & _ & _ & _ & Hwf & Ha & Hf).
  destruct Hfresh as [_ Hreinit].
  unfold earliest_inv. rewrite Hlib, Hwf, Ha, Hf.
  split; [by apply contiguous_reinit|]. split; [lia|]. rewrite Hreinit. simpl.
  split; [intros u c; by rewrite lookup_empty|].
  split; [intros i c; by rewrite lookup_empty|]. split.
  - apply Forall_app. split.
    + eapply Forall_impl; [exact Hclosed|]. cbn beta. intros r Hr. lia.
    + constructor; [|constructor]. cbn [fr_window closing_index]. lia.
  - eapply Forall_impl; [exact Hlog|]. cbn beta. intros a [Hidx Hearly].
    split; [done|]. eapply earliest_mono; [done| |exact Hearly].
    intros r [Hr|Hr%list_elem_of_singleton]%elem_of_app; [by left|].
    right. subst r. cbn [fr_window closing_index]. lia.
Qed.

Lemma steps_earliest (ys : list interaction) (k : nat) (st st' : loop_state P) :
  earliest_inv k st →
  for_each (interaction_step L process_tbatch backpropagate span true)
    (enumerate_from k ys) st = Some st' →
  earliest_inv (k + length ys) st'.
Proof.
  revert k st. induction ys as [|y ys IH]; intros k st Hinv Hrun; simpl in Hrun.
  { injection Hrun as <-. by rewrite Nat.add_0_r. }
  destruct (interaction_step L process_tbatch backpropagate span true (k, y) st)
    as [st1|] eqn:Hstep; [simpl in Hrun|done].
  apply step_earliest in Hstep; [|done].
  simpl. rewrite <- Nat.add_succ_comm. by eapply IH.
Qed.
End Greedy.

(** X13.  Under a library that starts every window from new tables the
    scheduler is greedy: the batch ids of a window start at 0, and an
    interaction is given a batch id above 0 only if an earlier interaction of
    the same window, of the same actor or of the same target, is in the batch
    just before.  No interaction could be in an earlier batch and still be
    processed after the interactions of its actor and of its target that
    precede it in the window. *)
Theorem scheduler_is_greedy {P : Type} (L : Lib)
    (process_tbatch : tbatch → P → option P) (backpropagate : P → P) (span : Qc)
    (xs : list interaction) (t : tbatches) (cache : gmap Qc (gmap Z tbatch)) (p : P)
    (st : loop_state P) (a : assigned) :
  reinit_fresh L →
  train_epoch L process_tbatch backpropagate span true xs t cache p = Some st →
  a ∈ assignment st →
  0 ≤ as_tbatch a
  ∧ (0 < as_tbatch a →
     ∃ a', a' ∈ assignment st
           ∧ (as_index a' < as_index a)%nat
           ∧ as_tbatch a' = as_tbatch a - 1
           ∧ (as_user a' = as_user a ∨ as_item a' = as_item a)
           ∧ ∀ r, r ∈ flushed st →
                  ¬ (as_index a' ≤ closing_index (fr_window r) < as_index a)%nat).
Proof.
  intros Hfresh Hrun Ha. unfold train_epoch in Hrun.
  apply (steps_earliest L _ _ _ Hfresh) in Hrun as (_ & _ & _ & _ & _ & Hlog).
  - rewrite Forall_forall in Hlog. by destruct (Hlog a Ha) as [_ Hearly].
  - unfold earliest_inv. simpl. split; [by apply contiguous_reinit|]. split; [lia|].
    destruct Hfresh as [_ Hreinit]. rewrite Hreinit. simpl.
    split; [intros u c; by rewrite lookup_empty|].
    split; [intros i c; by rewrite lookup_empty|]. split; constructor.
Qed.

Lemma scheduler_is_greedy_witness :
  0 ≤ as_tbatch example_conflict_entry
  ∧ (0 < as_tbatch example_conflict_entry →
     ∃ a', a' ∈ assignment example_conflict_epoch
           ∧ (as_index a' < as_index example_conflict_entry)%nat
           ∧ as_tbatch a' = as_tbatch example_conflict_entry - 1
           ∧ (as_user a' = as_user example_conflict_entry
              ∨ as_item a' = as_item example_conflict_entry)
           ∧ ∀ r, r ∈ flushed example_conflict_epoch →
                  ¬ (as_index a' ≤ closing_index (fr_window r)
                     < as_index example_conflict_entry)%nat).
Proof.
  apply (scheduler_is_greedy fresh_lib (λ _ _, Some tt) id 0%Qc example_conflict
           empty_tbatches ∅ tt example_conflict_epoch example_conflict_entry).
  - apply fresh_lib_fresh.
  - vm_compute. reflexivity.
  - apply (list_elem_of_lookup_2 _ 1%nat). vm_compute. reflexivity.
Defined.

(** ** The rows of the trajectories that an epoch writes (lines 140-141, 246-247) *)

Lemma scatter_written_iff {emb : Type} (timeseries timeseries' : list (option emb))
    (ids : list nat) (rows : list emb) (j : nat) :
  length rows = length ids →
  scatter timeseries ids (Some <$> rows) = Some timeseries' →
  written timeseries' !! j = Some true ↔ written timeseries !! j = Some true ∨ j ∈ ids.
Proof.
  intros Hlen Hsc. destruct (decide (j ∈ ids)) as [Hin|Hnotin].
  - split; [by right|]. intros _. by eapply scatter_written.
  - unfold written. rewrite !list_lookup_fmap.
    rewrite (scatter_lookup_other _ _ _ _ _ Hsc Hnotin).
    split; [by left|]. by intros [?|?].
Qed.

Lemma rows_added_refl {emb model loss : Type} (td : train_data emb model loss) :
  rows_added [] td td.
Proof.
  intros j. split; (split; [by left|]); intros [?|Hin]; try done; by apply elem_of_nil in Hin.
Qed.

Lemma rows_added_trans {emb model loss : Type} (ids1 ids2 : list nat)
    (td1 td2 td3 : train_data emb model loss) :
  rows_added ids1 td1 td2 → rows_added ids2 td2 td3 → rows_added (ids1 ++ ids2) td1 td3.
Proof.
  intros H12 H23 j. destruct (H12 j) as [Hu12 Hi12]. destruct (H23 j) as [Hu23 Hi23].
  rewrite Hu23, Hu12, Hi23, Hi12, elem_of_app. tauto.
Qed.

Section TrajectoryRows.
Context {emb model loss : Type}.
Variable forward_user_update forward_item_update :
  model → emb → emb → Qc → feature → emb.
Variable tbatch_loss : model → bool → tbatch → list emb → list emb → list emb → loss → loss.
Variable optimizer_step : model → loss → model.
Variable zero_loss : loss.
Variable a : args.
Variable d : network_data.

Lemma process_tbatch_rows (b : tbatch) (td td' : train_data emb model loss) :
  aligned b →
  process_tbatch forward_user_update forward_item_update tbatch_loss a d b td = Some td' →
  rows_added (tb_interactionids b) td td'.
Proof.
  intros (Hlu & Hli & Hlf & Hlut & Hlit & _) Hp.
  apply process_tbatch_scatters in Hp
    as (us & vs & Hus & Hvs & _ & _ & Hstu & Hsti & _).
  pose proof (gather_length _ _ _ Hus) as Hlus.
  pose proof (gather_length _ _ _ Hvs) as Hlvs.
  intros j. split.
  - eapply scatter_written_iff; [|exact Hstu]. apply forward_length; congruence.
  - eapply scatter_written_iff; [|exact Hsti]. apply forward_length; congruence.
Qed.

Lemma process_tbatches_rows (bs : list (Z * tbatch)) (td td' : train_data emb model loss) :
  Forall (λ ib, aligned ib.2) bs →
  for_each (λ ib : Z * tbatch,
              process_tbatch forward_user_update forward_item_update tbatch_loss a d ib.2)
    bs td = Some td' →
  rows_added (mjoin ((λ ib : Z * tbatch, tb_interactionids ib.2) <$> bs)) td td'.
Proof.
  intros Hall. revert td. induction Hall as [|ib bs Hb _ IH]; intros td Hrun; simpl in Hrun.
  { injection Hrun as <-. apply rows_added_refl. }
  destruct (process_tbatch _ _ _ _ _ _ td) as [td1|] eqn:Hp; [simpl in Hrun|done].
  rewrite fmap_cons, join_cons. eapply rows_added_trans; [|by apply IH].
  by eapply process_tbatch_rows.
Qed.

Lemma replay_flushes_rows (rs : list flush_record) (td td' : train_data emb model loss) :
  Forall (λ r, Forall (λ ib, aligned ib.2) (fr_consumed r)) rs →
  replay_flushes
    (process_tbatch forward_user_update forward_item_update tbatch_loss a d)
    (backpropagate optimizer_step zero_loss) rs td = Some td' →
  rows_added (mjoin (flush_interactionids <$> rs)) td td'.
Proof.
  intros Hall. revert td. unfold replay_flushes.
  induction Hall as [|r rs Hr _ IH]; intros td Hrun; simpl in Hrun.
  { injection Hrun as <-. apply rows_added_refl. }
  destruct (replay_flush _ _ r td) as [td1|] eqn:Hflush; [simpl in Hrun|done].
  rewrite fmap_cons, join_cons. eapply rows_added_trans; [|by apply IH].
  unfold replay_flush in Hflush.
  destruct (for_each _ (fr_consumed r) td) as [td0|] eqn:Hbs; [simpl in Hflush|done].
  injection Hflush as <-. apply process_tbatches_rows in Hbs; [|done].
  intros j. apply Hbs.
Qed.
End TrajectoryRows.

Lemma tbatch_timespan_nonneg (d : network_data) (span : Qc) :
  (∀ t0 tl, head (timestamp_sequence d) = Some t0 → last (timestamp_sequence d) = Some tl →
            (t0 ≤ tl)%Qc) →
  tbatch_timespan d = Some span → (0 ≤ span)%Qc.
Proof.
  unfold tbatch_timespan. intros Hordered Hspan.
  destruct (head (timestamp_sequence d)) as [t0|]; [simpl in Hspan|done].
  destruct (last (timestamp_sequence d)) as [tl|]; [simpl in Hspan|done].
  injection Hspan as <-. specialize (Hordered t0 tl eq_refl eq_refl).
  unfold Qcdiv. apply Qcmult_nonneg_nonneg.
  - unfold Qcminus. apply Qcle_minus_iff in Hordered. exact Hordered.
  - by vm_compute.
Qed.

(** X14.  Under a library that starts every window from new tables, and for
    a stream whose last timestamp is not earlier than its first, a run of the
    script that does not raise leaves, after every epoch, exactly the rows of
    the two trajectories written that belong to flushed windows: row [j] is
    written iff [j] is below the index that follows the last closing
    interaction.  The rows of the interactions read after the last flush
    stay as they were allocated. *)
Theorem trajectory_rows_written_iff_flushed {emb model loss : Type}
    (initial_user_embedding initial_item_embedding : model → emb)
    (forward_user_update forward_item_update : model → emb → emb → Qc → feature → emb)
    (tbatch_loss : model → bool → tbatch → list emb → list emb → list emb → loss → loss)
    (optimizer_step : model → loss → model) (zero_loss : loss)
    (a : args) (d : network_data) (L : Lib) (t : tbatches) (m : model)
    (rs : run_state (train_data emb model loss))
    (st : loop_state (train_data emb model loss)) (j : nat) :
  reinit_fresh L →
  (∀ t0 tl, head (timestamp_sequence d) = Some t0 → last (timestamp_sequence d) = Some tl →
            (t0 ≤ tl)%Qc) →
  jodie initial_user_embedding initial_item_embedding forward_user_update
    forward_item_update tbatch_loss optimizer_step zero_loss a d L t m = Some rs →
  st ∈ rs_epochs rs → (j < num_interactions d)%nat →
  written (user_embeddings_timeseries (payload st)) !! j
    = Some (bool_decide (j < window_first st)%nat)
  ∧ written (item_embeddings_timeseries (payload st)) !! j
    = Some (bool_decide (j < window_first st)%nat).
Proof.
  intros Hfresh Hordered Hrun Hst Hj.
  apply jodie_Some in Hrun as (span & Hspan & Hrun).
  pose proof (tbatch_timespan_nonneg d span Hordered Hspan) as Hnonneg.
  pose proof (train_flush_covers L _ _ _ _ _ _ Hfresh _ _ _ _ _ Hnonneg Hrun Hst) as Hcovers.
  assert (Forall (λ r, Forall (λ ib : Z * tbatch, aligned ib.2) (fr_consumed r)) (flushed st))
    as Haligned.
  { apply Forall_forall. intros r Hr. apply Forall_forall. intros [id b] Hb.
    by destruct (train_shapes L _ _ _ _ _ _ filled Hfresh filled_append _ _ _ _ _ _ _ _
                   Hrun Hst Hr Hb). }
  destruct (train_epochs_run _ _ _ _ _ _ _ _ _ _ _ _ Hrun Hst)
    as (first & t' & cache & q & Hepoch).
  pose proof Hepoch as Hsizes.
  unfold train_epoch in Hepoch.
  pose proof Hepoch as Htile.
  apply steps_tile in Htile as [_ Hcat]; [|simpl; lia|done].
  assert (replay_flushes
            (process_tbatch forward_user_update forward_item_update tbatch_loss a d)
            (backpropagate optimizer_step zero_loss) (flushed st) (epoch_begin zero_loss d q)
          = Some (payload st)) as Hreplay.
  { refine (proj1 (for_each_invariant _
              (λ s, replay_flushes
                      (process_tbatch forward_user_update forward_item_update tbatch_loss a d)
                      (backpropagate optimizer_step zero_loss) (flushed s)
                      (epoch_begin zero_loss d q) = Some (payload s)
                    ∧ total_interaction_count s
                      = length (mjoin (flush_interactionids <$> flushed s)))
              _ _ _ _ _ Hepoch)).
    - intros jx s s' _. apply step_trace.
    - done. }
  apply replay_flushes_rows in Hreplay; [|done].
  assert (j ∈ mjoin (flush_interactionids <$> flushed st) ↔ (j < window_first st)%nat)
    as Hin.
  { transitivity (j ∈ seq 0 (window_first st)); [|rewrite elem_of_seq; lia].
    rewrite <- Hcat, !list_elem_of_join. rewrite Forall_forall in Hcovers. split.
    - intros (l & Hjl & Hl). apply list_elem_of_fmap in Hl as (r & -> & Hr).
      exists (window_indices (fr_window r)). split.
      + pose proof (Hcovers r Hr) as Hc. unfold flush_covers in Hc. by rewrite <- Hc.
      + apply list_elem_of_fmap. exists (fr_window r). split; [done|].
        apply list_elem_of_fmap. by exists r.
    - intros (l & Hjl & Hl). apply list_elem_of_fmap in Hl as (w & -> & Hw).
      apply list_elem_of_fmap in Hw as (r & -> & Hr).
      exists (flush_interactionids r). split.
      + pose proof (Hcovers r Hr) as Hc. unfold flush_covers in Hc. by rewrite Hc.
      + apply list_elem_of_fmap. by exists r. }
  destruct (Hreplay j) as [Hu Hi]. simpl in Hu, Hi.
  assert (∀ ts : list (option emb),
            length ts = num_interactions d →
            (written ts !! j = Some true
             ↔ written (replicate (num_interactions d) (@None emb)) !! j = Some true
               ∨ j ∈ mjoin (flush_interactionids <$> flushed st)) →
            written ts !! j = Some (bool_decide (j < window_first st)%nat)) as Hrow.
  { intros ts Hlen Hiff.
    assert (written (replicate (num_interactions d) (@None emb)) !! j ≠ Some true) as Hnone.
    { unfold written. rewrite list_lookup_fmap, lookup_replicate_2 by done. done. }
    destruct (written ts !! j) as [w|] eqn:Hw.
    - f_equal. destruct w.
      + symmetry. apply bool_decide_eq_true. apply Hin.
        destruct (proj1 Hiff eq_refl) as [?|?]; done.
      + symmetry. apply bool_decide_eq_false. intros Hlt%Hin.
        assert (Some false = Some true) by (apply Hiff; by right). done.
    - apply lookup_ge_None in Hw. unfold written in Hw. rewrite length_fmap in Hw. lia. }
  assert (length (user_embeddings_timeseries (payload st)) = num_interactions d
          ∧ length (item_embeddings_timeseries (payload st)) = num_interactions d)
    as [Hlu Hli].
  { refine (epoch_payload L _ _ span
              (λ td, length (user_embeddings_timeseries td) = num_interactions d
                     ∧ length (item_embeddings_timeseries td) = num_interactions d)
              _ _ first _ t' cache _ st _ Hsizes).
    - intros b td td' [Hlu Hli] Hp.
      apply process_tbatch_Some in Hp as (_ & _ & _ & _ & Hlu' & Hli'). split; congruence.
    - intros td. done.
    - simpl. by rewrite !length_replicate. }
  split; by apply Hrow.
Qed.

Lemma trajectory_rows_written_iff_flushed_witness :
  written (user_embeddings_timeseries (payload (example_jodie_epoch fresh_lib 2))) !! 3%nat
    = Some (bool_decide (3 < window_first (example_jodie_epoch fresh_lib 2))%nat)
  ∧ written (item_embeddings_timeseries (payload (example_jodie_epoch fresh_lib 2))) !! 3%nat
    = Some (bool_decide (3 < window_first (example_jodie_epoch fresh_lib 2))%nat).
Proof.
  apply (trajectory_rows_written_iff_flushed (λ _ : unit, tt) (λ _, tt) (λ _ _ _ _ _, tt)
           (λ _ _ _ _ _, tt) (λ _ _ _ _ _ _ _, tt) (λ _ _, tt) tt
           example_args example_data fresh_lib empty_tbatches tt (example_jodie fresh_lib)).
  - apply fresh_lib_fresh.
  - intros t0 tl Ht0 Htl. injection Ht0 as <-. injection Htl as <-. by vm_compute.
  - vm_compute. reflexivity.
  - apply (list_elem_of_lookup_2 _ 2%nat). vm_compute. reflexivity.
  - vm_compute. lia.
Defined.

(** ** Interactions of one actor or one target are processed in stream order *)

Section Dependencies.
Context {P : Type}.
Variable L : Lib.
Variable process_tbatch : tbatch → P → option P.
Variable backpropagate epoch_begin epoch_end : P → P.
Variable span : Qc.
Variable xs : list interaction.
Hypothesis Hclears : reinit_clears L.

Lemma batch_before_insert (cur : gmap Z tbatch) (id : Z) (j : nat) (x : interaction)
    (j1 j2 : nat) :
  batch_before cur j1 j2 →
  batch_before (<[id := tbatch_append j x (tbatch_get cur id)]> cur) j1 j2.
Proof.
  intros (id1 & id2 & b1 & b2 & Hb1 & Hb2 & Hj1 & Hj2 & Hlt).
  assert (∀ i b j', cur !! i = Some b → j' ∈ tb_interactionids b →
            ∃ b', <[id := tbatch_append j x (tbatch_get cur id)]> cur !! i = Some b'
                  ∧ j' ∈ tb_interactionids b') as Hkeep.
  { intros i b j' Hb Hj'. destruct (decide (id = i)) as [->|Hne].
    - rewrite lookup_insert_eq. eexists. split; [done|]. simpl.
      unfold tbatch_get. rewrite Hb. simpl. apply elem_of_app. by left.
    - rewrite lookup_insert_ne by done. by exists b. }
  destruct (Hkeep _ _ _ Hb1 Hj1) as (b1' & ? & ?).
  destruct (Hkeep _ _ _ Hb2 Hj2) as (b2' & ? & ?).
  by exists id1, id2, b1', b2'.
Qed.

Lemma placed_insert (k : nat) (y : interaction) (t : tbatches) (j : nat) (x : interaction) :
  placed L t j x → placed L (insert_interaction L k y t).2 j x.
Proof.
  intros (id & b & Hb & Hj & Hu & Hi). unfold placed, insert_interaction. simpl.
  set (new := Z.max (tbatchid_get L (tbatchid_user t) (userid y))
                    (tbatchid_get L (tbatchid_item t) (itemid y)) + 1).
  assert (∃ b', <[new := tbatch_append k y (tbatch_get (current_tbatches t) new)]>
                  (current_tbatches t) !! id = Some b'
                ∧ j ∈ tb_interactionids b') as (b' & Hb' & Hj').
  { destruct (decide (new = id)) as [->|Hne].
    - rewrite lookup_insert_eq. eexists. split; [done|]. simpl.
      unfold tbatch_get. rewrite Hb. simpl. apply elem_of_app. by left.
    - rewrite lookup_insert_ne by done. by exists b. }
  exists id, b'. split; [done|]. split; [done|].
  rewrite !tbatchid_get_insert.
  split; (case_decide as Heq; [unfold new; rewrite Heq; lia|lia]).
Qed.

Lemma placed_new (k : nat) (y : interaction) (t : tbatches) :
  placed L (insert_interaction L k y t).2 k y.
Proof.
  unfold placed, insert_interaction. simpl.
  eexists _, _. split; [by rewrite lookup_insert_eq|]. split.
  - simpl. apply elem_of_app. right. by apply list_elem_of_singleton.
  - rewrite !tbatchid_get_insert, !decide_True by done. lia.
Qed.

Lemma schedule_dependencies (k : nat) (y : interaction) (st : loop_state P) :
  xs !! k = Some y →
  dependencies_inv L xs k st → dependencies_inv L xs (S k) (schedule L k y st).
Proof.
  intros Hy (Hle & Hplaced & Hordered & Hflushed).
  pose proof (schedule_timing L k y st) as (_ & Hw & Hf & _).
  unfold dependencies_inv. rewrite Hw, Hf, (schedule_lib L).
  split; [lia|]. split; [|split; [|done]].
  - intros j x Hj Hx. destruct (decide (j = k)) as [->|Hne].
    + rewrite Hy in Hx. injection Hx as <-. apply placed_new.
    + apply placed_insert. apply Hplaced; [lia|done].
  - intros j1 j2 x1 x2 Hj1 Hj2 Hx1 Hx2 Hshare.
    destruct (decide (j2 = k)) as [->|Hne].
    + rewrite Hy in Hx2. injection Hx2 as <-.
      destruct (Hplaced j1 x1 ltac:(lia) Hx1) as (id1 & b1 & Hb1 & Hin1 & Hu1 & Hi1).
      unfold batch_before, insert_interaction. simpl.
      set (new := Z.max (tbatchid_get L (tbatchid_user (lib st)) (userid y))
                        (tbatchid_get L (tbatchid_item (lib st)) (itemid y)) + 1).
      assert (id1 < new) as Hlt.
      { unfold new. destruct Hshare as [Hsame|Hsame]; rewrite Hsame in *; lia. }
      exists id1, new, b1. eexists. split; [rewrite lookup_insert_ne by lia; done|].
      split; [by rewrite lookup_insert_eq|]. split; [done|]. split; [|done].
      simpl. apply elem_of_app. right. by apply list_elem_of_singleton.
    + unfold insert_interaction. simpl. apply batch_before_insert.
      eapply Hordered; [done| |done|done|done]. lia.
Qed.

Lemma step_dependencies (k : nat) (y : interaction) (st st' : loop_state P) :
  xs !! k = Some y →
  dependencies_inv L xs k st →
  interaction_step L process_tbatch backpropagate span true (k, y) st = Some st' →
  dependencies_inv L xs (S k) st'.
Proof.
  intros Hy Hinv Hstep. apply (schedule_dependencies k y _ Hy) in Hinv.
  apply interaction_step_Some in Hstep as [[_ ->]|[_ Hflush]]; [done|].
  destruct Hinv as (Hle & _ & Hordered & Hflushed).
  apply flush_Some in Hflush
    as (cur & bs & Hsrc & _ & Hlib & _ & _ & _ & Hwf & _ & Hf).
  injection Hsrc as <-.
  unfold dependencies_inv. rewrite Hlib, Hwf, Hf, Hclears.
  split; [lia|]. split; [intros j x ?; lia|]. split; [intros j1 j2 x1 x2 ? ?; lia|].
  apply Forall_app. split; [done|]. constructor; [|constructor]. exact Hordered.
Qed.

Lemma steps_dependencies (ys l1 : list interaction) (st st' : loop_state P) :
  xs = l1 ++ ys →
  dependencies_inv L xs (length l1) st →
  for_each (interaction_step L process_tbatch backpropagate span true)
    (enumerate_from (length l1) ys) st = Some st' →
  Forall (flush_ordered xs) (flushed st').
Proof.
  revert l1 st. induction ys as [|y ys IH]; intros l1 st Hxs Hinv Hrun; simpl in Hrun.
  { injection Hrun as <-. by destruct Hinv as (_ & _ & _ & ?). }
  destruct (interaction_step L process_tbatch backpropagate span true (length l1, y) st)
    as [st1|] eqn:Hstep; [simpl in Hrun|done].
  apply step_dependencies in Hstep; [|by rewrite Hxs, list_lookup_middle|done].
  apply (IH (l1 ++ [y]) st1).
  - by rewrite <- (assoc_L (++)).
  - rewrite length_app, Nat.add_1_r. exact Hstep.
  - rewrite length_app, Nat.add_1_r. exact Hrun.
Qed.

Lemma first_epoch_dependencies (t : tbatches) (cache : gmap Qc (gmap Z tbatch)) (p : P)
    (st : loop_state P) :
  train_epoch L process_tbatch backpropagate span true xs t cache p = Some st →
  Forall (flush_ordered xs) (flushed st).
Proof.
  unfold train_epoch. intros Hrun.
  apply (steps_dependencies xs []) in Hrun; [done|done|].
  unfold dependencies_inv. simpl. split; [lia|]. split; [intros j x ?; lia|].
  split; [intros j1 j2 x1 x2 ? ?; lia|constructor].
Qed.
End Dependencies.

(** X15.  Under a library that starts every window from new tables and with
    a span that is not negative: of two interactions of a flushed window
    that have the same actor or the same target, the earlier one is processed
    in a batch with a smaller id, hence (batches are processed by increasing
    id) before the later one; in the first epoch and in every later one. *)
Theorem dependent_interactions_in_order {P : Type} (L : Lib)
    (process_tbatch : tbatch → P → option P) (backpropagate epoch_begin epoch_end : P → P)
    (span : Qc) (n : nat) (xs : list interaction) (t : tbatches) (p : P)
    (rs : run_state P) (st : loop_state P) (r : flush_record)
    (j1 j2 : nat) (x1 x2 : interaction) :
  reinit_fresh L → (0 ≤ span)%Qc →
  train L process_tbatch backpropagate epoch_begin epoch_end span n xs t p = Some rs →
  st ∈ rs_epochs rs → r ∈ flushed st →
  in_window j1 (fr_window r) → in_window j2 (fr_window r) → (j1 < j2)%nat →
  xs !! j1 = Some x1 → xs !! j2 = Some x2 →
  userid x1 = userid x2 ∨ itemid x1 = itemid x2 →
  ∃ id1 id2 b1 b2,
    (id1, b1) ∈ fr_consumed r ∧ (id2, b2) ∈ fr_consumed r
    ∧ j1 ∈ tb_interactionids b1 ∧ j2 ∈ tb_interactionids b2
    ∧ id1 < id2.
Proof.
  intros Hfresh Hspan Hrun Hst Hr [Hlo1 Hhi1] [Hlo2 Hhi2] Hlt Hx1 Hx2 Hshare.
  pose proof (train_keyed L _ _ _ _ _ xs Hfresh _ _ _ _ Hrun) as Hkeyed.
  pose proof (run_keyed_in_order _ _ _ _ Hkeyed Hst) as Horder.
  rewrite Forall_forall in Horder. destruct (Horder r Hr) as [Hk Hcons].
  destruct (rs_epochs rs) as [|st1 later] eqn:Hepochs; [by apply elem_of_nil in Hst|].
  rewrite <- Hepochs in Hst.
  rewrite (train_same_flushes _ _ _ _ _ _ _ Hfresh _ _ _ _ _ _ _ Hspan Hrun Hepochs Hst)
    in Hr.
  apply (train_first_epoch _ _ _ _ _ _ _ _ _ _ _ _ _ Hrun) in Hepochs.
  apply first_epoch_dependencies in Hepochs; [|by apply fresh_clears].
  rewrite Forall_forall in Hepochs.
  destruct (Hepochs r Hr j1 j2 x1 x2)
    as (id1 & id2 & b1 & b2 & Hb1 & Hb2 & Hj1 & Hj2 & Hid); [lia|lia|done|done|done|].
  exists id1, id2, b1, b2. rewrite Hcons.
  split; [by apply tbatches_in_range_keyed|]. split; [by apply tbatches_in_range_keyed|].
  done.
Qed.

Lemma dependent_interactions_in_order_witness :
  ∃ id1 id2 b1 b2,
    (id1, b1) ∈ fr_consumed (example_chain_flush 1)
    ∧ (id2, b2) ∈ fr_consumed (example_chain_flush 1)
    ∧ 1%nat ∈ tb_interactionids b1 ∧ 2%nat ∈ tb_interactionids b2
    ∧ id1 < id2.
Proof.
  apply (dependent_interactions_in_order fresh_lib (λ _ _, Some tt) id id id (Qc_of_Z 5) 2
           example_chain empty_tbatches tt example_chain_run (example_chain_epoch 1)
           (example_chain_flush 1) 1 2
           (example_interaction 0 1 0) (example_interaction 1 1 10)).
  - apply fresh_lib_fresh.
  - by vm_compute.
  - vm_compute. reflexivity.
  - apply (list_elem_of_lookup_2 _ 1%nat). vm_compute. reflexivity.
  - apply (list_elem_of_lookup_2 _ 0%nat). vm_compute. reflexivity.
  - split; vm_compute; lia.
  - split; vm_compute; lia.
  - lia.
  - reflexivity.
  - reflexivity.
  - right. reflexivity.
Defined.

(** ** A training proportion that leaves nothing to train on (lines 40, 68, 155) *)




(** ** A well-formed stream raises nothing *)




Section Totality.
Context {P : Type}.
Variable L : Lib.
Variable process_tbatch : tbatch → P → option P.
Variable backpropagate epoch_begin epoch_end : P → P.
Variable span : Qc.
Variable xs : list interaction.
Variable Ir Ip : P → Prop.
Hypothesis Hfresh : reinit_fresh L.
Hypothesis Hprocess :
  ∀ b p, good xs b → Ip p → ∃ p', process_tbatch b p = Some p' ∧ Ip p'.
Hypothesis Hbackpropagate : ∀ p, Ip p → Ip (backpropagate p).
Hypothesis Hbegin : ∀ p, Ir p → Ip (epoch_begin p).
Hypothesis Hend : ∀ p, Ip p → Ir (epoch_end p).







End Totality.

Section WellFormed.
Context {emb model loss : Type}.
Variable initial_user_embedding initial_item_embedding : model → emb.
Variable forward_user_update forward_item_update :
  model → emb → emb → Qc → feature → emb.
Variable tbatch_loss : model → bool → tbatch → list emb → list emb → list emb → loss → loss.
Variable optimizer_step : model → loss → model.
Variable zero_loss : loss.
Variable a : args.
Variable d : network_data.

End WellFormed.



(** ** What an epoch starts from (lines 94-100, 140-148, 292-293) *)

Section EpochStart.
Context {P : Type}.
Variable L : Lib.
Variable process_tbatch : tbatch → P → option P.
Variable backpropagate epoch_begin epoch_end : P → P.
Variable span : Qc.
Variable xs : list interaction.
Variable U : P → Prop.
Hypothesis Hend : ∀ q, U (epoch_end q).

Lemma train_epochs_start (n : nat) (t : tbatches) (p : P) (rs : run_state P) :
  U p →
  train L process_tbatch backpropagate epoch_begin epoch_end span n xs t p = Some rs →
  U (rs_payload rs)
  ∧ Forall (λ st, ∃ first t' cache q,
              U q
              ∧ train_epoch L process_tbatch backpropagate span first xs t' cache
                  (epoch_begin q) = Some st) (rs_epochs rs).
Proof.
  unfold train. intros Hp Hrun.
  refine (for_each_invariant _
            (λ s, U (rs_payload s)
                  ∧ Forall (λ st, ∃ first t' cache q,
                              U q
                              ∧ train_epoch L process_tbatch backpropagate span first xs
                                  t' cache (epoch_begin q) = Some st) (rs_epochs s))
            _ _ _ _ _ Hrun).
  - intros ep s s' _ [Hs Hepochs] Hstep.
    apply epoch_step_Some in Hstep as (st & Hepoch & -> & -> & _).
    split; [apply Hend|]. apply Forall_app. split; [done|].
    constructor; [|constructor]. by eexists _, _, _, _.
  - split; [done|constructor].
Qed.
End EpochStart.

(** X18.  Every epoch of a run starts from tables in which every row is the
    initial embedding of the model as it then is (the initial embeddings are
    learned, so the rows differ from epoch to epoch but not within a table),
    from trajectories in which no row is written, and from a zero loss; and
    the run ends with tables reset in the same way. *)
Theorem epochs_start_from_initial_embeddings {emb model loss : Type}
    (initial_user_embedding initial_item_embedding : model → emb)
    (forward_user_update forward_item_update : model → emb → emb → Qc → feature → emb)
    (tbatch_loss : model → bool → tbatch → list emb → list emb → list emb → loss → loss)
    (optimizer_step : model → loss → model) (zero_loss : loss)
    (a : args) (d : network_data) (L : Lib) (t : tbatches) (m : model)
    (rs : run_state (train_data emb model loss)) :
  jodie initial_user_embedding initial_item_embedding forward_user_update
    forward_item_update tbatch_loss optimizer_step zero_loss a d L t m = Some rs →
  uniform initial_user_embedding initial_item_embedding d (rs_payload rs)
  ∧ ∀ st, st ∈ rs_epochs rs →
      ∃ span first t' cache td0,
        train_epoch L
          (process_tbatch forward_user_update forward_item_update tbatch_loss a d)
          (backpropagate optimizer_step zero_loss) span first (training_prefix a d)
          t' cache td0 = Some st
        ∧ uniform initial_user_embedding initial_item_embedding d td0
        ∧ user_embeddings_timeseries td0 = replicate (num_interactions d) None
        ∧ item_embeddings_timeseries td0 = replicate (num_interactions d) None
        ∧ loss_acc td0 = zero_loss.
Proof.
  intros Hrun. apply jodie_Some in Hrun as (span & _ & Hrun).
  apply (train_epochs_start _ _ _ _ _ _ _
           (uniform initial_user_embedding initial_item_embedding d)) in Hrun
    as [Hlast Hepochs]; [|done|done].
  split; [done|]. intros st Hst. rewrite Forall_forall in Hepochs.
  destruct (Hepochs st Hst) as (first & t' & cache & q & Hq & Hepoch).
  exists span, first, t', cache, (epoch_begin zero_loss d q).
  split; [done|]. by split.
Qed.

Lemma epochs_start_from_initial_embeddings_witness :
  uniform (λ _ : unit, tt) (λ _ : unit, tt) example_data (rs_payload (example_jodie fresh_lib))
  ∧ ∀ st, st ∈ rs_epochs (example_jodie fresh_lib) →
      ∃ span first t' cache td0,
        train_epoch fresh_lib
          (process_tbatch (λ _ _ _ _ _, tt) (λ _ _ _ _ _, tt) (λ _ _ _ _ _ _ _, tt)
             example_args example_data)
          (backpropagate (λ _ _, tt) tt) span first
          (training_prefix example_args example_data) t' cache td0 = Some st
        ∧ uniform (λ _ : unit, tt) (λ _ : unit, tt) example_data td0
        ∧ user_embeddings_timeseries td0 = replicate (num_interactions example_data) None
        ∧ item_embeddings_timeseries td0 = replicate (num_interactions example_data) None
        ∧ loss_acc td0 = tt.
Proof.
  apply (epochs_start_from_initial_embeddings (λ _ : unit, tt) (λ _, tt) (λ _ _ _ _ _, tt)
           (λ _ _ _ _ _, tt) (λ _ _ _ _ _ _ _, tt) (λ _ _, tt) tt
           example_args example_data fresh_lib empty_tbatches tt).
  vm_compute. reflexivity.
Defined.
